(** * Gif-alchemy: the frame pipeline, embedded and checked against its specification

    The development follows the repository's layout:

    - [JsNumber]      the ECMAScript number operations the sources rely on
                      (binary64 arithmetic, [Math.round], [Math.max], the
                      conversion a [Uint8ClampedArray] applies on a store);
    - [GifService]    [src/services/gifService.ts]: colour conversions,
                      [hexToRgb], [colorDistance] and [processFrameLocal];
    - [GeminiService] [src/services/geminiService.ts]: [generateWithRetry],
                      [getClient] and [editFrameWithGemini] with its callback;
    - [GifEditor]     [src/components/GifEditor.tsx]: frame down-sampling,
                      [processSingleFrame] and the worker pool of
                      [triggerProcessProject], the transparent key; the
                      project limit and the project name of
                      [handleFileUpload], [toggleMode], the progress shown.

    Numbers.  A JavaScript number is an IEEE 754 binary64 value, and so is a
    Rocq primitive [float]; every operation on pixel values that can round
    ([/], [sqrt], the HSL arithmetic, the feathering product) is carried out
    on [float].  Bytes, their differences, squares of differences and sums of
    three such squares are integers below 2^18, which binary64 represents
    exactly: they are carried out in [Z] and injected with [Z2F].  The
    back-off delays of the retry loop are binary64 too: both the product
    [Math.random() * 1000] and the sum that gives the delay round.  One
    quantity is kept in exact arithmetic: the stride [Math.ceil(n / 50)] of
    the down-sampling (a natural number; its binary64 evaluation is checked
    against it in [stride_binary64]). *)

From Stdlib Require Import ZArith List Bool Lia String Ascii.
From Stdlib Require Import Floats Uint63.
From Stdlib Require Import QArith.
From Stdlib Require Import Reals Lra.
From Stdlib Require Import Permutation.
From Stdlib Require Lqa.
Import ListNotations.

#[local] Open Scope Z_scope.

(* ================================================================== *)
(** ** ECMAScript numbers *)

Module JsNumber.

(** An integer as a number; exact for |z| < 2^53. *)
Definition Z2F (z : Z) : float :=
  if z <? 0 then (- of_uint63 (Uint63.of_Z (- z)))%float
  else of_uint63 (Uint63.of_Z z).

(** [Math.max] / [Math.min] of two numbers: NaN is contagious, and +0 is
    larger than -0. *)
Definition Math_max (x y : float) : float :=
  if is_nan x || is_nan y then nan
  else if (x <? y)%float then y
  else if (y <? x)%float then x
  else if get_sign x then y else x.

Definition Math_min (x y : float) : float :=
  if is_nan x || is_nan y then nan
  else if (x <? y)%float then x
  else if (y <? x)%float then y
  else if get_sign x then x else y.

(** [Math.round]: floor (x + 1/2) computed exactly on the value
    [(-1)^s * m * 2^e] of [x]; integers, infinities and NaN are returned as
    they are, and a negative argument rounding to zero gives -0.
    ([Z.shiftr z k] is the floor of [z / 2^k].) *)
Definition Math_round (x : float) : float :=
  match Prim2SF x with
  | S754_finite s m e =>
      if 0 <=? e then x
      else
        let v := if s then Z.neg m else Z.pos m in
        let k := Z.shiftr (2 * v + Z.shiftl 1 (- e)) (- e + 1) in
        if (k =? 0) && s then neg_zero else Z2F k
  | _ => x
  end.

(** [Math.ceil], in the same way: minus the floor of [-x]. *)
Definition Math_ceil (x : float) : float :=
  match Prim2SF x with
  | S754_finite s m e =>
      if 0 <=? e then x
      else
        let v := if s then Z.neg m else Z.pos m in
        let k := - Z.shiftr (- v) (- e) in
        if (k =? 0) && s then neg_zero else Z2F k
  | _ => x
  end.

(** [Math.pow(2, e)] for an integer [e]: the power of two, which binary64
    holds exactly from 2^-1074 to 2^1023; below it is 0 and above it
    [Infinity]. *)
Definition Math_pow2 (e : Z) : float := Z.ldexp 1 e.

(** The floor of a number in the range [0, 255]: the largest integer [k]
    with [k <= x], found by bisection on the eight bits of [k]. *)
Definition floorByte (x : float) : Z :=
  fold_left (fun k bit => if (Z2F (k + bit) <=? x)%float then k + bit else k)
            [128; 64; 32; 16; 8; 4; 2; 1] 0.

(** ToUint8Clamp, the conversion applied when a number is stored into a
    [Uint8ClampedArray], step by step as ECMA-262 gives it: NaN becomes 0;
    the number is clamped between 0 and 255; with [f] the floor of the
    clamped number, the result is [f] below [f + 0.5], [f + 1] above it, and
    the even one of the two at [f + 0.5]. *)
Definition ToUint8Clamp (x : float) : Z :=
  if is_nan x then 0
  else
    let clamped := if (x <? 0)%float then 0%float
                   else if (255 <? x)%float then 255%float
                   else x in
    let f := floorByte clamped in
    if (clamped <? Z2F f + 0.5)%float then f
    else if (Z2F f + 0.5 <? clamped)%float then f + 1
    else if Z.even f then f else f + 1.

End JsNumber.

(* ================================================================== *)
(** ** src/services/gifService.ts *)

Module GifService.
Import JsNumber.

Record RGB := { r : Z; g : Z; b : Z }.

(** A pixel: the four consecutive entries [data[i .. i+3]] of the buffer. *)
Definition Pixel : Type := Z * Z * Z * Z.

Record ImageData := { data : list Z; width : Z; height : Z }.

(** [rgbToHsl(r, g, b)]. *)
Definition rgbToHsl (r g b : Z) : float * float * float :=
  let r := (Z2F r / 255)%float in
  let g := (Z2F g / 255)%float in
  let b := (Z2F b / 255)%float in
  let max := Math_max (Math_max r g) b in
  let min := Math_min (Math_min r g) b in
  let l := ((max + min) / 2)%float in
  if (max =? min)%float then (0%float, 0%float, l)
  else
    let d := (max - min)%float in
    let s := if (0.5 <? l)%float then (d / ((2 - max) - min))%float
             else (d / (max + min))%float in
    let h :=
      if (max =? r)%float then ((g - b) / d + (if (g <? b)%float then 6 else 0))%float
      else if (max =? g)%float then ((b - r) / d + 2)%float
      else if (max =? b)%float then ((r - g) / d + 4)%float
      else 0%float in
    ((h / 6)%float, s, l).

(** The inner helper [hue2rgb] of [hslToRgb]. *)
Definition hue2rgb (p q t : float) : float :=
  let t := if (t <? 0)%float then (t + 1)%float else t in
  let t := if (1 <? t)%float then (t - 1)%float else t in
  if (t <? 1 / 6)%float then (p + ((q - p) * 6) * t)%float
  else if (t <? 1 / 2)%float then q
  else if (t <? 2 / 3)%float then (p + ((q - p) * (2 / 3 - t)) * 6)%float
  else p.

(** [hslToRgb(h, s, l)]: the three channels after [Math.round]. *)
Definition hslToRgb (h s l : float) : float * float * float :=
  let '(r, g, b) :=
    if (s =? 0)%float then (l, l, l)
    else
      let q := if (l <? 0.5)%float then (l * (1 + s))%float
               else ((l + s) - l * s)%float in
      let p := (2 * l - q)%float in
      (hue2rgb p q (h + 1 / 3)%float, hue2rgb p q h, hue2rgb p q (h - 1 / 3)%float) in
  (Math_round (r * 255)%float, Math_round (g * 255)%float, Math_round (b * 255)%float).

(** One character of the class [[a-f\d]] under the [i] flag, with its value. *)
Definition hexDigit (c : ascii) : option Z :=
  let n := Z.of_N (N_of_ascii c) in
  if (48 <=? n) && (n <=? 57) then Some (n - 48)
  else if (97 <=? n) && (n <=? 102) then Some (n - 87)
  else if (65 <=? n) && (n <=? 70) then Some (n - 55)
  else None.

(** [parseInt(xy, 16)] for the two characters a group of the pattern captures. *)
Definition parseHexPair (x y : ascii) : option Z :=
  match hexDigit x, hexDigit y with
  | Some hi, Some lo => Some (16 * hi + lo)
  | _, _ => None
  end.

(** [hexToRgb(hex)]: the pattern [/^#?([a-f\d]{2})([a-f\d]{2})([a-f\d]{2})$/i];
    [None] is the source's [null]. *)
Definition hexToRgb (hex : string) : option RGB :=
  let body := match hex with
              | String "#"%char rest => rest
              | _ => hex
              end in
  match list_ascii_of_string body with
  | [c1; c2; c3; c4; c5; c6] =>
      match parseHexPair c1 c2, parseHexPair c3 c4, parseHexPair c5 c6 with
      | Some vr, Some vg, Some vb => Some {| r := vr; g := vg; b := vb |}
      | _, _, _ => None
      end
  | _ => None
  end.

(** The radicand of [colorDistance]: the sum of the three squared channel
    differences, an integer in [0, 3 * 255^2]. *)
Definition sqDist (c1 c2 : RGB) : Z :=
  (r c1 - r c2) ^ 2 + (g c1 - g c2) ^ 2 + (b c1 - b c2) ^ 2.

(** [colorDistance(c1, c2)]. *)
Definition colorDistance (c1 c2 : RGB) : float :=
  PrimFloat.sqrt (Z2F (sqDist c1 c2)).

(** ProcessingConfig; an absent optional field, [undefined] and [null] are
    all [None]. *)
Record RecolorPair := { original : string; target : string }.

Record ProcessingConfig := {
  recolorPairs : option (list RecolorPair);
  removeBgColor : option string;
  bgReplacementColor : option string
}.

Inductive Mode := recolor | remove_bg.

Definition Mode_eqb (m1 m2 : Mode) : bool :=
  match m1, m2 with
  | recolor, recolor | remove_bg, remove_bg => true
  | _, _ => false
  end.

(** [modes.includes(m)]. *)
Definition includes (m : Mode) (modes : list Mode) : bool :=
  existsb (Mode_eqb m) modes.

(** A string in a boolean position: the empty string is falsy. *)
Definition truthy (s : option string) : option string :=
  match s with
  | Some EmptyString => None
  | _ => s
  end.

(** The loops [for (let i = 0; i < data.length; i += 4)]: iteration [i] reads
    and writes only [data[i .. i+3]], so the loop is the pixel-wise map below.
    An [ImageData] buffer has length [4 * width * height]; a tail of fewer
    than four entries cannot occur there and is kept as it is. *)
Fixpoint mapPixels (f : Pixel -> Pixel) (data : list Z) : list Z :=
  match data with
  | pr :: pg :: pb :: pa :: rest =>
      let '(pr', pg', pb', pa') := f (pr, pg, pb, pa) in
      pr' :: pg' :: pb' :: pa' :: mapPixels f rest
  | _ => data
  end.

(** The pixel with number [k]: entries [4k .. 4k+3]. *)
Fixpoint pixelAt (data : list Z) (k : nat) : option Pixel :=
  match data with
  | pr :: pg :: pb :: pa :: rest =>
      match k with
      | O => Some (pr, pg, pb, pa)
      | S k' => pixelAt rest k'
      end
  | _ => None
  end.

(** *** 1. Recolor mode *)

(** An element of [processedPairs]. *)
Record ProcessedPair := {
  originalRGB : RGB;
  targetHSL : float * float * float
}.

Definition black : RGB := {| r := 0; g := 0; b := 0 |}.

(** The body of [config.recolorPairs.map(p => ...)]. *)
Definition processPair (p : RecolorPair) : ProcessedPair :=
  let originalRGB := match hexToRgb (original p) with Some c => c | None => black end in
  let targetRGB := match hexToRgb (target p) with Some c => c | None => black end in
  {| originalRGB := originalRGB;
     targetHSL := rgbToHsl (r targetRGB) (g targetRGB) (b targetRGB) |}.

Definition threshold : float := 60.

(** One turn of [for (const pair of processedPairs)]; the state is
    [(bestMatch, minDistance)]. *)
Definition scanStep (currentRGB : RGB) (st : option ProcessedPair * float)
    (pair : ProcessedPair) : option ProcessedPair * float :=
  let dist := colorDistance currentRGB (originalRGB pair) in
  if (dist <? snd st)%float then (Some pair, dist) else st.

Definition scanPairs (currentRGB : RGB) (processedPairs : list ProcessedPair)
    (st : option ProcessedPair * float) : option ProcessedPair * float :=
  fold_left (scanStep currentRGB) processedPairs st.

(** [bestMatch] when the inner loop is over. *)
Definition bestMatch (currentRGB : RGB) (processedPairs : list ProcessedPair)
    : option ProcessedPair :=
  fst (scanPairs currentRGB processedPairs (None, threshold)).

(** The colour written on a match: [hslToRgb(tH, tS, cL)], each channel as
    the byte buffer stores it. *)
Definition recolorTo (pair : ProcessedPair) (pr pg pb : Z) : Z * Z * Z :=
  let '(tH, tS, _) := targetHSL pair in
  let '(_, _, cL) := rgbToHsl pr pg pb in
  let '(nr, ng, nb) := hslToRgb tH tS cL in
  (ToUint8Clamp nr, ToUint8Clamp ng, ToUint8Clamp nb).

(** The body of the outer recolor loop. *)
Definition recolorPixel (processedPairs : list ProcessedPair) (px : Pixel) : Pixel :=
  let '(pr, pg, pb, pa) := px in
  if pa <? 10 then px
  else
    match bestMatch {| r := pr; g := pg; b := pb |} processedPairs with
    | Some best =>
        let '(nr, ng, nb) := recolorTo best pr pg pb in
        (nr, ng, nb, pa)
    | None => px
    end.

Definition recolorPass (pairs : list RecolorPair) (data : list Z) : list Z :=
  mapPixels (recolorPixel (map processPair pairs)) data.

(** *** 2. Remove-background mode *)

Definition tolerance : float := 60.

Definition green : RGB := {| r := 0; g := 255; b := 0 |}.

(** The alpha written in the feathering branch, from the old alpha and the
    radicand of [diff]. *)
Definition featherAlpha (pa n : Z) : Z :=
  let diff := PrimFloat.sqrt (Z2F n) in
  let alpha := ((diff - tolerance) / 20)%float in
  ToUint8Clamp (Math_max 0 (Math_min 255 (Z2F pa * alpha)%float)).

(** The body of the remove-background loop. *)
Definition removeBgPixel (bgRGB : RGB) (replaceRGB : option RGB) (px : Pixel) : Pixel :=
  let '(pr, pg, pb, pa) := px in
  if pa =? 0 then px
  else
    let n := sqDist {| r := pr; g := pg; b := pb |} bgRGB in
    let diff := PrimFloat.sqrt (Z2F n) in
    if (diff <? tolerance)%float then
      match replaceRGB with
      | Some c =>
          (ToUint8Clamp (Z2F (r c)), ToUint8Clamp (Z2F (g c)), ToUint8Clamp (Z2F (b c)), 255)
      | None => (pr, pg, pb, 0)
      end
    else if (diff <? tolerance + 20)%float
            && match replaceRGB with None => true | Some _ => false end then
      (pr, pg, pb, featherAlpha pa n)
    else px.

(** [bgRGB] and [replaceRGB], as the pass computes them from the
    configuration before its loop. *)
Definition bgRGB (config : ProcessingConfig) : RGB :=
  let bgHex := match truthy (removeBgColor config) with
               | Some s => s
               | None => "#00FF00"%string
               end in
  match hexToRgb bgHex with Some c => c | None => green end.

Definition replaceRGB (config : ProcessingConfig) : option RGB :=
  match truthy (bgReplacementColor config) with
  | Some replaceHex => hexToRgb replaceHex
  | None => None
  end.

Definition removeBgPass (config : ProcessingConfig) (data : list Z) : list Z :=
  mapPixels (removeBgPixel (bgRGB config) (replaceRGB config)) data.

(** *** processFrameLocal *)

(** The 2D context of the scratch canvas, as far as the function uses it:
    [putImageData(img, 0, 0)] followed by [getImageData(0, 0, w, h)]. *)
Record Canvas2D := { readBack : ImageData -> ImageData }.

(** How a call ends.  The only error the specification names for this
    function is [RenderContextUnavailable]; the source has no [throw] in
    [processFrameLocal], so every call of the model ends in [Returned]. *)
Inductive LocalError := RenderContextUnavailable.

Inductive Completion :=
| Returned (img : ImageData)
| Thrown (e : LocalError).

(** [ctx] is the result of [canvas.getContext('2d')], [None] for [null]. *)
Definition processFrameLocal (ctx : option Canvas2D) (imageData : ImageData)
    (modes : list Mode) (config : ProcessingConfig) : Completion :=
  match ctx with
  | None => Returned imageData
  | Some ctx =>
      let data0 := data imageData in
      let data1 :=
        match recolorPairs config with
        | Some (p :: ps) =>
            if includes recolor modes then recolorPass (p :: ps) data0 else data0
        | _ => data0
        end in
      let data2 :=
        if includes remove_bg modes then removeBgPass config data1 else data1 in
      Returned (readBack ctx {| data := data2;
                                width := width imageData;
                                height := height imageData |})
  end.

End GifService.

(* ================================================================== *)
(** ** src/services/geminiService.ts *)

Module GeminiService.

(** What a rejected promise carries, as far as the sources inspect it:
    [error.status] when it is a number and [error.message] when it is a
    string. *)
Record JsError := { status : option Z; message : option string }.

(** How an awaited promise settles. *)
Inductive Settled (A : Type) :=
| Fulfilled (a : A)
| Rejected (error : JsError).
Arguments Fulfilled {A} a.
Arguments Rejected {A} error.

(** [haystack.includes(needle)]. *)
Fixpoint str_includes (needle haystack : string) : bool :=
  String.prefix needle haystack ||
  match haystack with
  | EmptyString => false
  | String _ rest => str_includes needle rest
  end.

(** [error.message?.includes(needle)] in a boolean position. *)
Definition messageIncludes (needle : string) (error : JsError) : bool :=
  match message error with
  | Some m => str_includes needle m
  | None => false
  end.

(** The classification inside [generateWithRetry]. *)
Definition isQuotaError (error : JsError) : bool :=
  match status error with Some 429 => true | _ => false end
  || messageIncludes "429" error
  || messageIncludes "quota" error
  || messageIncludes "exhausted" error.

(** What [generateWithRetry] does to its environment, in order. *)
Inductive Effect :=
| Invoke                 (* one call of [fn] *)
| Wait (ms : float).     (* [await wait(delay)] *)

(** The environment threaded through a call: how many times [fn] has been
    invoked, how many values [Math.random] has produced, and the effects so
    far (oldest first). *)
Record World := { calls : nat; draws : nat; effects : list Effect }.

Definition world0 : World := {| calls := 0; draws := 0; effects := [] |}.

Section Retry.

Context {A : Type}.

(** [fn k] is how the [k]-th invocation of the callback settles, and
    [random k] the [k]-th value of [Math.random()]. *)
Variable fn : nat -> Settled A.
Variable random : nat -> float.

(** [delay] at a given value of [retries], [rand] being the value
    [Math.random()] returns:
    [baseDelay * Math.pow(2, 3 - retries) + (Math.random() * 1000)]. *)
Definition backoffDelay (baseDelay : float) (retries : nat) (rand : float) : float :=
  (baseDelay * JsNumber.Math_pow2 (3 - Z.of_nat retries) + rand * 1000)%float.

(** [generateWithRetry(fn, retries, baseDelay)]; the recursion of the source
    is on [retries]. *)
Fixpoint generateWithRetry (retries : nat) (baseDelay : float) (w : World)
    : Settled A * World :=
  let w1 := {| calls := S (calls w); draws := draws w;
               effects := effects w ++ [Invoke] |} in
  match fn (calls w) with
  | Fulfilled a => (Fulfilled a, w1)
  | Rejected error =>
      match retries with
      | S retries' =>
          if isQuotaError error then
            let delay := backoffDelay baseDelay retries (random (draws w1)) in
            let w2 := {| calls := calls w1; draws := S (draws w1);
                         effects := effects w1 ++ [Wait delay] |} in
            generateWithRetry retries' baseDelay w2
          else (Rejected error, w1)
      | O => (Rejected error, w1)
      end
  end.

End Retry.

(** *** [editFrameWithGemini] *)

(** The part of a [GenerateContentResponse] the callback reads. *)
Module Response.
Record Blob := { mimeType : option string; data : option string }.
Record Part := { inlineData : option Blob; text : option string }.
Record Content := { parts : option (list Part) }.
Record Candidate := { content : option Content; finishReason : option string }.
Record GenerateContentResponse := { candidates : option (list Candidate) }.
End Response.

(** [new Error(m)]: a message and no [status]. *)
Definition newError (m : string) : JsError := {| status := None; message := Some m |}.

(** [getClient()]: the key when it is truthy. *)
Definition getClient (apiKey : option string) : Settled string :=
  match GifService.truthy apiKey with
  | Some key => Fulfilled key
  | None => Rejected (newError "API Key not found")
  end.

(** The prompt [editFrameWithGemini] sends. *)
Definition buildPrompt (instruction : string) (modes : list GifService.Mode) : string :=
  (instruction
   ++ (if GifService.includes GifService.remove_bg modes
       then " Remove the background from the main subject in this image. Replace the background with a solid green color (Hex: #00FF00). Ensure the subject retains its original colors (unless instructed to change) and details. High quality, clear edges."
       else " Maintain the background and other details exactly as they are.")
   ++ " Photorealistic, consistent lighting, no noise. Output only the modified image.")%string.

(** The callback of [editFrameWithGemini] from [const candidate] on:
    [response.candidates?.[0]], [candidate?.content?.parts], the first part
    with [inlineData], and [imagePart?.inlineData?.data]. *)
Definition extractImage (response : Response.GenerateContentResponse) : Settled string :=
  let candidate :=
    match Response.candidates response with
    | Some (c :: _) => Some c
    | _ => None
    end in
  let parts :=
    match candidate with
    | Some c =>
        match Response.content c with
        | Some ct => Response.parts ct
        | None => None
        end
    | None => None
    end in
  match parts with
  | Some (p :: ps) =>
      let imagePart :=
        find (fun p => match Response.inlineData p with Some _ => true | None => false end)
             (p :: ps) in
      let imageData :=
        match imagePart with
        | Some part =>
            match Response.inlineData part with
            | Some blob => GifService.truthy (Response.data blob)
            | None => None
            end
        | None => None
        end in
      match imageData with
      | Some d => Fulfilled d
      | None => Rejected (newError "No image data found in Gemini response.")
      end
  | _ =>
      let reason :=
        match candidate with
        | Some c => GifService.truthy (Response.finishReason c)
        | None => None
        end in
      match reason with
      | Some reason =>
          Rejected (newError ("Gemini generation finished with reason: " ++ reason))
      | None => Rejected (newError "Gemini returned a response with no content parts.")
      end
  end.

(** The callback: the remote call, then [extractImage] on its response. *)
Definition callback (generateContent : nat -> Settled Response.GenerateContentResponse)
    (k : nat) : Settled string :=
  match generateContent k with
  | Fulfilled response => extractImage response
  | Rejected error => Rejected error
  end.

(** [editFrameWithGemini]; [generateContent image prompt k] is how the [k]-th
    call of [ai.models.generateContent] with that image and prompt settles. *)
Definition editFrameWithGemini (apiKey : option string)
    (generateContent : string -> string -> nat -> Settled Response.GenerateContentResponse)
    (random : nat -> float)
    (base64Image instruction : string) (modes : list GifService.Mode) (w : World)
    : Settled string * World :=
  match getClient apiKey with
  | Rejected error => (Rejected error, w)
  | Fulfilled _ =>
      generateWithRetry
        (callback (generateContent base64Image (buildPrompt instruction modes)))
        random 3 2000%float w
  end.

End GeminiService.

(* ================================================================== *)
(** ** src/components/GifEditor.tsx *)

Module GifEditor.
Import GifService GeminiService.

(** *** Upload: frame down-sampling in [handleFileUpload] *)

Record GifFrame := { imageData : ImageData; delay : Z }.

(** From [src/constants.ts]. *)
Definition MAX_FRAMES : nat := 50.

(** [Math.ceil(n / d)] for a length [n] and [d = MAX_FRAMES], in exact
    arithmetic: the quotient of two integers is either an integer, and then
    exact in binary64, or at least [1 / d] away from the next one. *)
Definition ceilDiv (n d : nat) : nat := (n + (d - 1)) / d.

(** [frames.filter((_, i) => keep i)], the index starting at [i]. *)
Fixpoint filterIndex {A : Type} (keep : nat -> bool) (i : nat) (l : list A) : list A :=
  match l with
  | [] => []
  | x :: rest =>
      if keep i then x :: filterIndex keep (S i) rest
      else filterIndex keep (S i) rest
  end.

Definition scaleDelay (stride : nat) (f : GifFrame) : GifFrame :=
  {| imageData := imageData f; delay := delay f * Z.of_nat stride |}.

(** [processedFrames] after the [if (processedFrames.length > MAX_FRAMES)]
    block. *)
Definition downsample (parsedFrames : list GifFrame) : list GifFrame :=
  if (MAX_FRAMES <? List.length parsedFrames)%nat then
    let stride := ceilDiv (List.length parsedFrames) MAX_FRAMES in
    map (scaleDelay stride)
        (filterIndex (fun i => (i mod stride =? 0)%nat) 0 parsedFrames)
  else parsedFrames.

(** *** The run of one project: [triggerProcessProject] *)

(** The classification in the [catch] of [processSingleFrame]: the message
    only, not the status. *)
Definition isQuota (err : JsError) : bool :=
  messageIncludes "429" err || messageIncludes "quota" err
  || messageIncludes "exhausted" err.

(** Where a worker of the pool stands between two turns of the event loop. *)
Inductive Worker :=
| AtLoopHead                            (* about to test the [while] condition *)
| Staggering (index : nat)              (* awaiting the [index * 200] ms timer *)
| Calling (index retries : nat)         (* in [generateWithRetry], awaiting [fn()] *)
| BackingOff (index retries : nat)      (* awaiting [wait(delay)] *)
| Decoding (index : nat)                (* awaiting [img.onload] *)
| Done.                                 (* the [while] loop is left *)

(** What the run does, as an observer would log it. *)
Inductive Event :=
| Started (index : nat)                 (* [processSingleFrame(frame, index)] entered *)
| RemoteCall (index : nat)              (* the remote service is called, once *)
| QuotaFlagSet (index : nat)            (* [quotaLimitReached = true] *)
| ProcessedLocal (index : nat)          (* [results[index]] from [processFrameLocal] *)
| ProcessedRemote (index : nat).        (* [results[index]] from the remote image *)

(** The variables the closures of one run share.  [trace] lists the events
    newest first. *)
Record Run := {
  queue : list nat;
  quotaLimitReached : bool;
  abort : bool;
  workers : list Worker;
  completedCount : nat;
  trace : list Event
}.

Definition CONCURRENCY : nat := 2.

(** The state after [const workers = Array(Math.min(CONCURRENCY, queue.length))]
    has been built for [n] frames. *)
Definition startRun (n : nat) : Run :=
  {| queue := seq 0 n;
     quotaLimitReached := false;
     abort := false;
     workers := repeat AtLoopHead (Nat.min CONCURRENCY n);
     completedCount := 0;
     trace := [] |}.

Fixpoint setWorker (k : nat) (w : Worker) (ws : list Worker) : list Worker :=
  match ws, k with
  | [], _ => []
  | _ :: rest, O => w :: rest
  | x :: rest, S k' => x :: setWorker k' w rest
  end.

(** What the awaited operation hands back when a worker is resumed: it went
    through, or it threw (for [img.onload]: no 2D context could be had). *)
Inductive Reply :=
| Ok
| Failed (err : JsError).

(** One turn of the event loop.  Any worker may be resumed at any turn, with
    any reply: the schedules cover every interleaving of the two workers and
    every behaviour of the remote service. *)
Inductive Action :=
| Resume (k : nat) (reply : Reply)      (* worker [k] continues *)
| StopRequested.                        (* [stopBatchProcessing]: [abortRef.current = true] *)

(** Part 2 of [processSingleFrame] (the fallback) and its epilogue; the worker
    is back at the loop head. *)
Definition fallback (k index : nat) (s : Run) : Run :=
  {| queue := queue s;
     quotaLimitReached := quotaLimitReached s;
     abort := abort s;
     workers := setWorker k AtLoopHead (workers s);
     completedCount := S (completedCount s);
     trace := ProcessedLocal index :: trace s |}.

(** The [catch (err)] of part 1, followed by the fallback. *)
Definition catchRemote (k index : nat) (err : JsError) (s : Run) : Run :=
  let s' :=
    if isQuota err then
      {| queue := queue s;
         quotaLimitReached := true;
         abort := abort s;
         workers := workers s;
         completedCount := completedCount s;
         trace := QuotaFlagSet index :: trace s |}
    else s in
  fallback k index s'.

Definition setWorkerOf (k : nat) (w : Worker) (evs : list Event) (s : Run) : Run :=
  {| queue := queue s;
     quotaLimitReached := quotaLimitReached s;
     abort := abort s;
     workers := setWorker k w (workers s);
     completedCount := completedCount s;
     trace := evs ++ trace s |}.

(** Worker [k] runs from where it stands to its next [await]: the [while]
    loop of the worker and the body of [processSingleFrame], cut at the
    stagger timer, at each remote call, at each back-off wait and at
    [img.onload]. *)
Definition resume (activeUseAI : bool) (k : nat) (reply : Reply) (s : Run) : Run :=
  match nth_error (workers s) k with
  | Some AtLoopHead =>
      match queue s with
      | index :: rest =>
          if abort s then setWorkerOf k Done [] s
          else
            let s1 := {| queue := rest;
                         quotaLimitReached := quotaLimitReached s;
                         abort := abort s;
                         workers := workers s;
                         completedCount := completedCount s;
                         trace := Started index :: trace s |} in
            if activeUseAI && negb (quotaLimitReached s)
            then setWorkerOf k (Staggering index) [] s1
            else fallback k index s1
      | [] => setWorkerOf k Done [] s
      end
  | Some (Staggering index) =>
      (* [imageDataToBase64] and [getClient] run before the first call; what
         they throw goes to the same [catch] (the model lets it be any error) *)
      match reply with
      | Ok => setWorkerOf k (Calling index 3) [RemoteCall index] s
      | Failed err => catchRemote k index err s
      end
  | Some (Calling index retries) =>
      (* [reply] is how the remote call settled *)
      match reply with
      | Ok => setWorkerOf k (Decoding index) [] s
      | Failed err =>
          match retries with
          | S retries' =>
              if isQuotaError err
              then setWorkerOf k (BackingOff index retries') [] s
              else catchRemote k index err s
          | O => catchRemote k index err s
          end
      end
  | Some (BackingOff index retries) =>
      setWorkerOf k (Calling index retries) [RemoteCall index] s
  | Some (Decoding index) =>
      (* [reply] tells whether [canvas.getContext('2d')] gave a context *)
      match reply with
      | Ok =>
          {| queue := queue s;
             quotaLimitReached := quotaLimitReached s;
             abort := abort s;
             workers := setWorker k AtLoopHead (workers s);
             completedCount := S (completedCount s);
             trace := ProcessedRemote index :: trace s |}
      | Failed _ => fallback k index s
      end
  | Some Done => s
  | None => s
  end.

Definition act (activeUseAI : bool) (s : Run) (a : Action) : Run :=
  match a with
  | Resume k reply => resume activeUseAI k reply s
  | StopRequested =>
      {| queue := queue s;
         quotaLimitReached := quotaLimitReached s;
         abort := true;
         workers := workers s;
         completedCount := completedCount s;
         trace := trace s |}
  end.

(** The run of [n] frames under a schedule of the event loop. *)
Definition runSchedule (activeUseAI : bool) (n : nat) (schedule : list Action) : Run :=
  fold_left (act activeUseAI) schedule (startRun n).

(** [transparentKey] as [createGif] receives it; [None] is [null]. *)
Definition transparentKey (activeModes : list Mode) (bgReplaceColor : string)
    (activeUseAI quotaLimitReached : bool) : option Z :=
  if includes remove_bg activeModes && (bgReplaceColor =? "transparent")%string then
    if activeUseAI && negb quotaLimitReached then Some 0x00FF00 else None
  else None.

(** *** Other handlers of the editor *)

(** [toggleMode(mode)] on [currentConfig.activeModes]: the new list. *)
Definition toggleMode (mode : Mode) (currentModes : list Mode) : list Mode :=
  if includes mode currentModes
  then filter (fun m => negb (Mode_eqb m mode)) currentModes
  else currentModes ++ [mode].

(** [Math.round((completedCount / workingFrames.length) * 100)]. *)
Definition progressPercent (completedCount total : Z) : float :=
  JsNumber.Math_round ((JsNumber.Z2F completedCount / JsNumber.Z2F total) * 100)%float.

(** The class [[^/.]] of the pattern below. *)
Definition notSlashOrDot (c : ascii) : bool :=
  negb (Ascii.eqb c "/") && negb (Ascii.eqb c ".").

Fixpoint allChars (f : ascii -> bool) (s : string) : bool :=
  match s with
  | EmptyString => true
  | String c rest => f c && allChars f rest
  end.

(** [file.name.replace(/\.[^/.]+$/, "")]: the pattern is tried at each
    position from the left; it matches at a dot that is followed, up to the
    end of the name, by one or more characters none of which is a slash or a
    dot, and the match is replaced by the empty string.  (A name is read here
    as its UTF-8 bytes; the bytes of a character outside ASCII are neither a
    dot nor a slash, as its UTF-16 units are not.) *)
Fixpoint stripExtension (name : string) : string :=
  match name with
  | EmptyString => EmptyString
  | String c rest =>
      if Ascii.eqb c "."
         && negb (String.eqb rest "") && allChars notSlashOrDot rest
      then EmptyString
      else String c (stripExtension rest)
  end.

(** [const MAX_PROJECTS = 10]. *)
Definition MAX_PROJECTS : Z := 10.

(** [l.slice(0, end)] for an integer [end]: a negative [end] counts from the
    end of the list. *)
Definition slice0 {A : Type} (l : list A) (end_ : Z) : list A :=
  let len := Z.of_nat (List.length l) in
  let final := if end_ <? 0 then Z.max (len + end_) 0 else Z.min end_ len in
  firstn (Z.to_nat final) l.

(** [filesToProcess] in [handleFileUpload], and whether the alert is raised. *)
Definition filesToProcess {File : Type} (projectCount : nat) (files : list File)
    : list File :=
  slice0 files (MAX_PROJECTS - Z.of_nat projectCount).

Definition limitAlert {File : Type} (projectCount : nat) (files : list File) : bool :=
  (List.length (filesToProcess projectCount files) <? List.length files)%nat.

(** The recolor rules as the editor keeps them ([interface RecolorPair]). *)
Module Config.
Record RecolorPair := {
  id : string;
  original : string;
  target : string;
  objectDescription : option string
}.

Inductive Field := IdField | OriginalField | TargetField | ObjectDescriptionField.
End Config.

(** The rule [processFrameLocal] reads from a pair of the editor. *)
Definition toRule (p : Config.RecolorPair) : RecolorPair :=
  {| original := Config.original p; target := Config.target p |}.

(** [addRecolorPair()]: the new list; [newId] is the identifier drawn. *)
Definition addRecolorPair (newId : string) (pairs : list Config.RecolorPair)
    : list Config.RecolorPair :=
  pairs ++ [{| Config.id := newId; Config.original := "#000000";
               Config.target := "#FFFFFF";
               Config.objectDescription := Some ""%string |}].

(** [removeRecolorPair(id)]: the new list. *)
Definition removeRecolorPair (id : string) (pairs : list Config.RecolorPair)
    : list Config.RecolorPair :=
  filter (fun p => negb (String.eqb (Config.id p) id)) pairs.

(** [{ ...p, [field]: value }]. *)
Definition setField (field : Config.Field) (value : string) (p : Config.RecolorPair)
    : Config.RecolorPair :=
  match field with
  | Config.IdField =>
      {| Config.id := value; Config.original := Config.original p;
         Config.target := Config.target p;
         Config.objectDescription := Config.objectDescription p |}
  | Config.OriginalField =>
      {| Config.id := Config.id p; Config.original := value;
         Config.target := Config.target p;
         Config.objectDescription := Config.objectDescription p |}
  | Config.TargetField =>
      {| Config.id := Config.id p; Config.original := Config.original p;
         Config.target := value;
         Config.objectDescription := Config.objectDescription p |}
  | Config.ObjectDescriptionField =>
      {| Config.id := Config.id p; Config.original := Config.original p;
         Config.target := Config.target p;
         Config.objectDescription := Some value |}
  end.

(** [updateRecolorPair(id, field, value)]: the new list. *)
Definition updateRecolorPair (id : string) (field : Config.Field) (value : string)
    (pairs : list Config.RecolorPair) : list Config.RecolorPair :=
  map (fun p => if String.eqb (Config.id p) id then setField field value p else p) pairs.

End GifEditor.

(* ================================================================== *)
(** ** Notions used in the statements *)

Module Notions.
Import JsNumber GifService GeminiService GifEditor.

(** A value a [Uint8ClampedArray] can hold. *)
Definition isByte (z : Z) : Prop := 0 <= z <= 255.

Definition byteRGB (c : RGB) : Prop := isByte (r c) /\ isByte (g c) /\ isByte (b c).

Definition bytePixel (px : Pixel) : Prop :=
  let '(pr, pg, pb, pa) := px in isByte pr /\ isByte pg /\ isByte pb /\ isByte pa.

(** The Euclidean distance of two colours, as a real number. *)
Definition euclid (c1 c2 : RGB) : R := R_sqrt.sqrt (IZR (sqDist c1 c2)).

(** A buffer of [n] pixels, all equal to [px]. *)
Fixpoint solid (px : Pixel) (n : nat) : list Z :=
  match n with
  | O => []
  | S n' => let '(pr, pg, pb, pa) := px in pr :: pg :: pb :: pa :: solid px n'
  end.

(** The inner recolor loop on radicands: the state is [(bestMatch, n)] with
    [minDistance = sqrt n]. *)
Definition scanStepSq (currentRGB : RGB) (st : option ProcessedPair * Z)
    (p : ProcessedPair) : option ProcessedPair * Z :=
  let n := sqDist currentRGB (originalRGB p) in
  if n <? snd st then (Some p, n) else st.

Definition scanPairsSq (currentRGB : RGB) (processedPairs : list ProcessedPair)
    (st : option ProcessedPair * Z) : option ProcessedPair * Z :=
  fold_left (scanStepSq currentRGB) processedPairs st.

(** The largest radicand two byte colours can give: [3 * 255^2]. *)
Definition maxSqDist : Z := 195075.

(** [f] holds of the [k] integers from [z] on. *)
Fixpoint holdsFrom (f : Z -> bool) (z : Z) (k : nat) : bool :=
  match k with
  | O => true
  | S k' => if f z then holdsFrom f (z + 1) k' else false
  end.

(** [f] holds of [lo], [lo + 1], ..., [hi]. *)
Definition holdsOn (f : Z -> bool) (lo hi : Z) : bool :=
  holdsFrom f lo (Z.to_nat (hi + 1 - lo)).

(** [k] is an integer nearest to [a * (sqrt n - 60) / 20], that is
    [|k - a (sqrt n - 60) / 20| <= 1/2], decided in integers: multiplied by
    40 the condition reads [lo <= 2 a sqrt n <= hi]. *)
Definition nearestScaled (a n k : Z) : bool :=
  let lo := 40 * k - 20 + 120 * a in
  let hi := 40 * k + 20 + 120 * a in
  ((lo <=? 0) || (lo * lo <=? 4 * a * a * n))
  && (0 <=? hi) && (4 * a * a * n <=? hi * hi).

(** [k] is the half of [a], rounded to the even neighbour when [a] is odd. *)
Definition halfToEven (a k : Z) : bool :=
  if Z.even a then 2 * k =? a
  else Z.even k && ((2 * k =? a - 1) || (2 * k =? a + 1)).

(** [nearestScaled] on machine integers, for [1 <= a]. *)
Definition nearestFast (a n k : int) : bool :=
  let lo := (40 * k + 120 * a - 20)%uint63 in
  let hi := (40 * k + 120 * a + 20)%uint63 in
  let m := (4 * a * a * n)%uint63 in
  ((lo * lo <=? m) && (m <=? hi * hi))%uint63.

(** The feathering band at radicand [n], for every alpha from 1 to 255. *)
Definition featherCheck (n : Z) : bool :=
  let alpha := ((PrimFloat.sqrt (Z2F n) - tolerance) / 20)%float in
  let ni := Uint63.of_Z n in
  holdsOn (fun a =>
             let k := ToUint8Clamp (Math_max 0 (Math_min 255 (Z2F a * alpha)%float)) in
             nearestFast (Uint63.of_Z a) ni (Uint63.of_Z k) && (0 <=? k) && (k <=? 255))
          1 255.

(** The key colour of a configuration: the colour [config.removeBgColor]
    holds, and pure green when the field is absent or holds no colour (the
    empty string included). *)
Definition keyColour (config : ProcessingConfig) : RGB :=
  match removeBgColor config with
  | Some hex =>
      match hexToRgb hex with
      | Some c => c
      | None => {| r := 0; g := 255; b := 0 |}
      end
  | None => {| r := 0; g := 255; b := 0 |}
  end.

(** [m * 2^e] in units of 2^-1200, an integer for every exponent binary64
    arithmetic meets. *)
Definition units (m e : Z) : Z := m * 2 ^ (e + 1200).

(** The jitter and the delay of retry number [k] (counted from 0), both in
    binary64, and what a call that retries [n] times does to its
    environment. *)
Definition jitter (random : nat -> float) (k : nat) : float :=
  (random k * 1000)%float.

Definition retryDelay (random : nat -> float) (k : nat) : float :=
  (Z2F (2000 * 2 ^ Z.of_nat k) + jitter random k)%float.

Fixpoint retryEffects (random : nat -> float) (n : nat) : list Effect :=
  match n with
  | O => [Invoke]
  | S n' => retryEffects random n' ++ [Wait (retryDelay random n'); Invoke]
  end.

(** The same for a call entered with any [retries] and [baseDelay], [d]
    random values having been drawn before. *)
Fixpoint effectsFrom (random : nat -> float) (baseDelay : float) (retries d n : nat)
    : list Effect :=
  match n with
  | O => [Invoke]
  | S n' =>
      Invoke :: Wait (backoffDelay baseDelay retries (random d))
             :: effectsFrom random baseDelay (Nat.pred retries) (S d) n'
  end.

(** The indices of the jobs a trace shows entering [processSingleFrame]. *)
Definition startedOf (tr : list Event) : list nat :=
  flat_map (fun e => match e with Started i => [i] | _ => [] end) tr.

(** The job on whose remote path a worker stands, if any. *)
Definition remoteJob (w : Worker) : option nat :=
  match w with
  | Staggering i | Calling i _ | BackingOff i _ => Some i
  | _ => None
  end.

(** Job [i] was started at a moment when the flag had not been set yet
    (the trace is newest first, so what precedes an event follows it in the
    list). *)
Definition cleanStart (i : nat) (tr : list Event) : Prop :=
  exists later earlier,
    tr = later ++ Started i :: earlier /\ forall j, ~ In (QuotaFlagSet j) earlier.

(** A job started after the flag was set is processed locally at once. *)
Definition lateStartsLocal (tr : list Event) : Prop :=
  forall later i earlier j,
    tr = later ++ Started i :: earlier -> In (QuotaFlagSet j) earlier ->
    exists later', later = later' ++ [ProcessedLocal i].

(** What every state of a run satisfies. *)
Record Invariant (s : Run) : Prop := {
  inv_flag_logged :
    quotaLimitReached s = true <-> exists j, In (QuotaFlagSet j) (trace s);
  inv_started_once : NoDup (queue s ++ startedOf (trace s));
  inv_calls_clean :
    forall i, In (RemoteCall i) (trace s) -> cleanStart i (trace s);
  inv_workers_clean :
    forall w i, In w (workers s) -> remoteJob w = Some i -> cleanStart i (trace s);
  inv_late_local : lateStartsLocal (trace s)
}.

(** *** Notions for the further properties *)

(** The alpha of a pixel. *)
Definition alphaOf (px : Pixel) : Z := snd px.

(** A channel value as two hexadecimal digits, in lower or upper case. *)
Definition hexChar (upper : bool) (d : Z) : ascii :=
  ascii_of_N (Z.to_N (if d <? 10 then 48 + d else if upper then 55 + d else 87 + d)).

Definition hexByte (upper : bool) (v : Z) (rest : string) : string :=
  String (hexChar upper (v / 16)) (String (hexChar upper (v mod 16)) rest).

(** A colour written [#rrggbb], [#RRGGBB], [rrggbb] or [RRGGBB]. *)
Definition toHex (upper hash : bool) (c : RGB) : string :=
  let digits := hexByte upper (r c) (hexByte upper (g c) (hexByte upper (b c) "")) in
  if hash then String "#" digits else digits.

(** The configuration with every colour that cannot be used replaced by the
    colour [processFrameLocal] falls back to: #000000 in a rule, #00FF00 for
    the key colour, none for the replacement colour. *)
Definition hexOr (fallback s : string) : string :=
  match hexToRgb s with Some _ => s | None => fallback end.

Definition normalisePair (p : RecolorPair) : RecolorPair :=
  {| original := hexOr "#000000" (original p);
     target := hexOr "#000000" (target p) |}.

Definition normalise (config : ProcessingConfig) : ProcessingConfig :=
  {| recolorPairs := option_map (map normalisePair) (recolorPairs config);
     removeBgColor :=
       Some (match removeBgColor config with
             | Some s => hexOr "#00FF00" s
             | None => "#00FF00"%string
             end);
     bgReplacementColor :=
       match bgReplacementColor config with
       | Some s => match hexToRgb s with Some _ => Some s | None => None end
       | None => None
       end |}.

(** A channel as [rgbToHsl] scales it, and the grey level [hslToRgb] gives
    at saturation 0 for a pixel whose largest and smallest channels are [M]
    and [m]. *)
Definition channel (z : Z) : float := (Z2F z / 255)%float.

Definition greyLevel (M m : Z) : Z :=
  ToUint8Clamp (Math_round (((channel M + channel m) / 2) * 255)%float).

(** The value of a finite number, as a rational: [(-1)^s * m * 2^e]. *)
Definition F2Q (x : float) : Q :=
  match Prim2SF x with
  | S754_finite s m e =>
      let v := if s then Z.neg m else Z.pos m in
      if 0 <=? e then inject_Z (v * 2 ^ e) else v # 2 ^ Z.to_pos (- e)
  | _ => 0%Q
  end.

(** The time a list of effects spends waiting, in milliseconds: the exact
    sum of its delays. *)
Fixpoint totalWait (l : list Effect) : Q :=
  match l with
  | [] => 0
  | Invoke :: rest => totalWait rest
  | Wait ms :: rest => (F2Q ms + totalWait rest)%Q
  end.

(** The time a frame list plays: the sum of its delays. *)
Definition totalDelay (frames : list GifFrame) : Z :=
  fold_right (fun f acc => delay f + acc) 0 frames.

(** The integer a percentage stands for, among 0 .. 100. *)
Definition percentOf (x : float) : option Z :=
  find (fun p => (Z2F p =? x)%float) (map Z.of_nat (seq 0 101)).

(** What is checked of the percentage shown after [c] of [n] frames. *)
Definition progressCheck (n c : Z) : bool :=
  match percentOf (progressPercent c n) with
  | Some p =>
      (Z2F p =? progressPercent c n)%float
      && (0 <=? p) && (p <=? 100)
      && (Z.abs (2 * (100 * c - n * p)) <=? n)
      && Bool.eqb (p =? 100) (c =? n)
      && ((c =? n)
          || match percentOf (progressPercent (c + 1) n) with
             | Some q => p <? q
             | None => false
             end)
  | None => false
  end.

(** The indices of the frames a trace shows processed, newest first. *)
Definition processedOf (tr : list Event) : list nat :=
  flat_map (fun e => match e with
                     | ProcessedLocal i | ProcessedRemote i => [i]
                     | _ => []
                     end) tr.

Definition isCall (i : nat) (e : Event) : bool :=
  match e with RemoteCall j => (j =? i)%nat | _ => false end.

(** How many times the remote service was called for frame [i]. *)
Definition callsOf (i : nat) (tr : list Event) : nat :=
  List.length (filter (isCall i) tr).

(** The frame a worker is busy with, if any. *)
Definition heldJob (w : Worker) : option nat :=
  match w with
  | Staggering i | Calling i _ | BackingOff i _ | Decoding i => Some i
  | AtLoopHead | Done => None
  end.

Definition jobList (w : Worker) : list nat :=
  match heldJob w with Some i => [i] | None => [] end.

Definition heldJobs (ws : list Worker) : list nat := flat_map jobList ws.

(** The calls made so far for the frame of a worker on the remote path. *)
Definition callsSoFar (w : Worker) (tr : list Event) : Prop :=
  match w with
  | Staggering i => callsOf i tr = 0%nat
  | Calling i retries => (callsOf i tr + retries = 4)%nat
  | BackingOff i retries => (callsOf i tr + retries = 3)%nat
  | _ => True
  end.

Definition isRemoteCall (e : Event) : bool :=
  match e with RemoteCall _ => true | _ => false end.

Definition isCallBelow (n : nat) (e : Event) : bool :=
  match e with RemoteCall j => (j <? n)%nat | _ => false end.

(** How many times the remote service was called in all. *)
Definition remoteCalls (tr : list Event) : nat :=
  List.length (filter isRemoteCall tr).

(** Only [Started] and [ProcessedLocal] events. *)
Definition isLocalEvent (e : Event) : bool :=
  match e with Started _ | ProcessedLocal _ => true | _ => false end.

(** The replies of a schedule that carry an error. *)
Definition failuresOf (schedule : list Action) : list JsError :=
  flat_map (fun a => match a with Resume _ (Failed err) => [err] | _ => [] end) schedule.

(** An upper bound of the resumptions a worker still needs for the frame it
    holds: two for each retry it has left, and what follows the last call. *)
Definition workerCost (w : Worker) : nat :=
  match w with
  | AtLoopHead => 1
  | Staggering _ => 10
  | Calling _ retries => 2 * retries + 3
  | BackingOff _ retries => 2 * retries + 4
  | Decoding _ => 2
  | Done => 0
  end.

(** The same for a pool of workers. *)
Definition workLeft (ws : list Worker) : nat := list_sum (map workerCost ws).

(** And for a run: eleven resumptions for each frame still queued. *)
Definition runCost (s : Run) : nat := (11 * List.length (queue s) + workLeft (workers s))%nat.

(** Worker [k] exists and has not left its loop. *)
Definition isLive (s : Run) (k : nat) : bool :=
  match nth_error (workers s) k with
  | Some Done | None => false
  | Some _ => true
  end.

(** How many turns of a schedule resume a live worker. *)
Fixpoint liveSteps (activeUseAI : bool) (s : Run) (schedule : list Action) : nat :=
  match schedule with
  | [] => 0
  | a :: rest =>
      ((match a with Resume k _ => if isLive s k then 1 else 0 | StopRequested => 0 end)
       + liveSteps activeUseAI (act activeUseAI s a) rest)%nat
  end.

(** The bookkeeping of a run of [n] frames. *)
Record Accounting (n : nat) (s : Run) : Prop := {
  acc_order :
    exists m, (m <= n)%nat /\ queue s = seq m (n - m)
              /\ startedOf (trace s) = rev (seq 0 m);
  acc_held :
    Permutation (startedOf (trace s)) (heldJobs (workers s) ++ processedOf (trace s));
  acc_count : completedCount s = List.length (processedOf (trace s));
  acc_pool : List.length (workers s) = Nat.min CONCURRENCY n;
  acc_calls : forall i, (callsOf i (trace s) <= 4)%nat;
  acc_calls_unstarted :
    forall i, ~ In i (startedOf (trace s)) -> callsOf i (trace s) = 0%nat;
  acc_calls_worker :
    forall k w, nth_error (workers s) k = Some w -> callsSoFar w (trace s);
  acc_done : In Done (workers s) -> abort s = true \/ queue s = []
}.

End Notions.

(* ================================================================== *)
(** * Proofs *)

Import JsNumber GifService GeminiService GifEditor Notions.

(** ** The definitions on a few inputs *)

Example hexToRgb_examples :
  hexToRgb "#FF0000" = Some {| r := 255; g := 0; b := 0 |}
  /\ hexToRgb "00ff7F" = Some {| r := 0; g := 255; b := 127 |}
  /\ hexToRgb "#12345" = None
  /\ hexToRgb "#GG0000" = None
  /\ hexToRgb "transparent" = None
  /\ hexToRgb "" = None.
Proof. repeat split. Qed.

Example rgbToHsl_examples :
  rgbToHsl 255 0 0 = (0, 1, 0.5)%float
  /\ rgbToHsl 0 0 255 = ((4 / 6)%float, 1%float, 0.5%float)
  /\ rgbToHsl 128 128 128 = (0%float, 0%float, (128 / 255)%float)
  /\ hslToRgb (4 / 6) 1 0.5 = (0, 0, 255)%float
  /\ hslToRgb 0 0 (128 / 255) = (128, 128, 128)%float.
Proof. vm_compute. repeat split. Qed.

Example ToUint8Clamp_examples :
  map ToUint8Clamp [127.5; 128.5; 0.5; 1.5; 254.5; 300; -3; nan; infinity]%float
  = [128; 128; 0; 2; 254; 255; 0; 0; 255].
Proof. vm_compute. reflexivity. Qed.

Example Math_round_examples :
  map Math_round [2.5; -2.5; 0.5; 254.5; 3; nan]%float
  = [3; -2; 1; 255; 3; nan]%float.
Proof. vm_compute. reflexivity. Qed.

Example Math_pow2_examples :
  map Math_pow2 [0; 1; 2; 3; -1; 1023; 1024; -1074; -1075]
  = [1; 2; 4; 8; 0.5; 0x1p1023; infinity; 0x1p-1074; 0]%float.
Proof. vm_compute. reflexivity. Qed.

Example F2Q_examples :
  (F2Q 2500 == 2500 # 1 /\ F2Q 0.5 == 1 # 2 /\ F2Q (-0.75) == -3 # 4
   /\ F2Q 0x1.fffffffffffffp-1 == (2 ^ 53 - 1) # 2 ^ 53)%Q.
Proof. repeat split. Qed.

Example processFrameLocal_example :
  processFrameLocal (Some {| readBack := fun img => img |})
    {| data := [255; 0; 0; 255;  0; 255; 0; 255;  0; 185; 0; 101];
       width := 3; height := 1 |}
    [recolor; remove_bg]
    {| recolorPairs := Some [{| original := "#FF0000"; target := "#0000FF" |}]%string;
       removeBgColor := None; bgReplacementColor := None |}
  = Returned {| data := [0; 0; 255; 255;  0; 255; 0; 0;  0; 185; 0; 50];
                width := 3; height := 1 |}.
Proof. vm_compute. reflexivity. Qed.

(** ** Checking a property on every value of a finite range *)

Lemma holdsFrom_spec (f : Z -> bool) (k : nat) :
  forall z, holdsFrom f z k = true ->
  forall x, z <= x < z + Z.of_nat k -> f x = true.
Proof.
  induction k as [|k IH]; intros z Hk x Hx.
  - simpl in Hx. lia.
  - cbn [holdsFrom] in Hk.
    destruct (f z) eqn:Hf; [|discriminate].
    destruct (Z.eq_dec x z) as [->|Hne]; [exact Hf|].
    apply (IH (z + 1)); [exact Hk | lia].
Qed.

Lemma holdsOn_spec (f : Z -> bool) (lo hi : Z) :
  holdsOn f lo hi = true -> forall x, lo <= x <= hi -> f x = true.
Proof.
  unfold holdsOn. intros H x Hx.
  apply (holdsFrom_spec f _ lo H). lia.
Qed.

(** ** Order of binary64 numbers *)

Lemma SFltb_irrefl x : SFltb x x = false.
Proof.
  unfold SFltb, SFcompare.
  destruct x as [[|]|[|]| |[|] m e]; try reflexivity;
    rewrite Z.compare_refl;
    change (Pos.compare_cont Eq m m) with (Pos.compare m m);
    rewrite Pos.compare_refl; reflexivity.
Qed.

Lemma SFltb_trans x y z :
  SFltb x y = true -> SFltb y z = true -> SFltb x z = true.
Proof.
  unfold SFltb, SFcompare.
  destruct x as [[|]|[|]| |[|] mx ex], y as [[|]|[|]| |[|] my ey],
           z as [[|]|[|]| |[|] mz ez];
    try discriminate; try reflexivity;
    change (Pos.compare_cont Eq) with Pos.compare;
    destruct (Z.compare_spec ex ey), (Z.compare_spec ey ez), (Z.compare_spec ex ez);
    try discriminate; try reflexivity; try lia; subst;
    destruct (Pos.compare_spec mx my), (Pos.compare_spec my mz),
             (Pos.compare_spec mx mz);
    try discriminate; try reflexivity; try lia.
Qed.

Lemma ltb_irrefl (x : float) : (x <? x)%float = false.
Proof. rewrite FloatAxioms.ltb_spec. apply SFltb_irrefl. Qed.

Lemma ltb_trans (x y z : float) :
  (x <? y)%float = true -> (y <? z)%float = true -> (x <? z)%float = true.
Proof. rewrite !FloatAxioms.ltb_spec. apply SFltb_trans. Qed.

Lemma ltb_asym (x y : float) : (x <? y)%float = true -> (y <? x)%float = false.
Proof.
  intros H. destruct (y <? x)%float eqn:E; [|reflexivity].
  pose proof (ltb_trans _ _ _ H E) as C. rewrite ltb_irrefl in C. discriminate.
Qed.

(** ** The square root on the radicands of byte colours

    Each statement is checked on all 195076 radicands by evaluation. *)

Lemma sqrt_below_60 n :
  0 <= n <= maxSqDist -> (PrimFloat.sqrt (Z2F n) <? 60)%float = (n <? 3600).
Proof.
  intros Hn. apply eqb_prop.
  apply (holdsOn_spec
           (fun z => Bool.eqb (PrimFloat.sqrt (Z2F z) <? 60)%float (z <? 3600))
           0 maxSqDist); [|exact Hn].
  vm_compute. reflexivity.
Qed.

Lemma sqrt_below_80 n :
  0 <= n <= maxSqDist -> (PrimFloat.sqrt (Z2F n) <? 60 + 20)%float = (n <? 6400).
Proof.
  intros Hn. apply eqb_prop.
  apply (holdsOn_spec
           (fun z => Bool.eqb (PrimFloat.sqrt (Z2F z) <? 60 + 20)%float (z <? 6400))
           0 maxSqDist); [|exact Hn].
  vm_compute. reflexivity.
Qed.

Lemma sqrt_next n :
  0 <= n < maxSqDist ->
  (PrimFloat.sqrt (Z2F n) <? PrimFloat.sqrt (Z2F (n + 1)))%float = true.
Proof.
  intros Hn.
  apply (holdsOn_spec
           (fun z => (PrimFloat.sqrt (Z2F z) <? PrimFloat.sqrt (Z2F (z + 1)))%float)
           0 (maxSqDist - 1)); [|lia].
  vm_compute. reflexivity.
Qed.

Lemma sqrt_increasing n m :
  0 <= n -> n < m -> m <= maxSqDist ->
  (PrimFloat.sqrt (Z2F n) <? PrimFloat.sqrt (Z2F m))%float = true.
Proof.
  intros Hn Hnm Hm.
  replace m with (n + 1 + Z.of_nat (Z.to_nat (m - n - 1))) in * by lia.
  induction (Z.to_nat (m - n - 1)) as [|d IH].
  - rewrite Z.add_0_r. apply sqrt_next. lia.
  - eapply ltb_trans.
    + apply IH; lia.
    + replace (n + 1 + Z.of_nat (S d)) with (n + 1 + Z.of_nat d + 1) by lia.
      apply sqrt_next. lia.
Qed.

(** The comparison of two computed distances is the comparison of their
    radicands. *)
Lemma sqrt_ltb n m :
  0 <= n <= maxSqDist -> 0 <= m <= maxSqDist ->
  (PrimFloat.sqrt (Z2F n) <? PrimFloat.sqrt (Z2F m))%float = (n <? m).
Proof.
  intros Hn Hm. destruct (Z.ltb_spec n m) as [Hlt|Hge].
  - apply sqrt_increasing; lia.
  - destruct (Z.eq_dec n m) as [->|Hne]; [apply ltb_irrefl|].
    apply ltb_asym, sqrt_increasing; lia.
Qed.

(** A byte stored into the buffer is read back as it is. *)
Lemma store_byte z : isByte z -> ToUint8Clamp (Z2F z) = z.
Proof.
  intros Hz. apply Z.eqb_eq.
  apply (holdsOn_spec (fun z => ToUint8Clamp (Z2F z) =? z) 0 255); [|exact Hz].
  vm_compute. reflexivity.
Qed.

(** ** The feathering band *)

Lemma to_Z_of_Z_small z : 0 <= z < 2 ^ 40 -> Uint63.to_Z (Uint63.of_Z z) = z.
Proof.
  intros Hz. rewrite Uint63.of_Z_spec. apply Z.mod_small.
  change wB with (2 ^ 63). assert (2 ^ 40 < 2 ^ 63) by reflexivity. lia.
Qed.

Lemma nearestFast_spec a n k :
  1 <= a <= 255 -> 0 <= n <= 6399 -> 0 <= k <= 255 ->
  nearestFast (Uint63.of_Z a) (Uint63.of_Z n) (Uint63.of_Z k) = true ->
  nearestScaled a n k = true.
Proof.
  intros Ha Hn Hk H. unfold nearestFast in H. cbv zeta in H.
  apply andb_prop in H as [Hlo Hhi].
  apply Uint63.leb_spec in Hlo. apply Uint63.leb_spec in Hhi.
  assert (forall x y, 0 <= x < 2 ^ 31 -> 0 <= y < 2 ^ 31 ->
            Uint63.to_Z (Uint63.of_Z x * Uint63.of_Z y)%uint63 = x * y) as Hmul.
  { intros x y Hx Hy. rewrite Uint63.mul_spec, !to_Z_of_Z_small by lia.
    apply Z.mod_small. change wB with (2 ^ 63). nia. }
  assert (Uint63.to_Z (40 * Uint63.of_Z k + 120 * Uint63.of_Z a)%uint63
          = 40 * k + 120 * a) as Hsum.
  { rewrite Uint63.add_spec.
    change 40%uint63 with (Uint63.of_Z 40). change 120%uint63 with (Uint63.of_Z 120).
    rewrite !Hmul by lia. apply Z.mod_small. change wB with (2 ^ 63). lia. }
  assert (Uint63.to_Z (40 * Uint63.of_Z k + 120 * Uint63.of_Z a - 20)%uint63
          = 40 * k + 120 * a - 20) as Elo.
  { rewrite Uint63.sub_spec, Hsum. change (Uint63.to_Z 20) with 20.
    apply Z.mod_small. change wB with (2 ^ 63). lia. }
  assert (Uint63.to_Z (40 * Uint63.of_Z k + 120 * Uint63.of_Z a + 20)%uint63
          = 40 * k + 120 * a + 20) as Ehi.
  { rewrite Uint63.add_spec, Hsum. change (Uint63.to_Z 20) with 20.
    apply Z.mod_small. change wB with (2 ^ 63). lia. }
  assert (Uint63.to_Z (4 * Uint63.of_Z a * Uint63.of_Z a * Uint63.of_Z n)%uint63
          = 4 * a * a * n) as Em.
  { rewrite !Uint63.mul_spec, !to_Z_of_Z_small by lia.
    change (Uint63.to_Z 4) with 4. change wB with (2 ^ 63).
    rewrite (Z.mod_small (4 * a)) by lia.
    rewrite (Z.mod_small (4 * a * a)) by nia.
    apply Z.mod_small. nia. }
  rewrite Uint63.mul_spec, Elo, Em in Hlo.
  rewrite Em, Uint63.mul_spec, Ehi in Hhi.
  change wB with (2 ^ 63) in Hlo, Hhi.
  rewrite Z.mod_small in Hlo by nia. rewrite Z.mod_small in Hhi by nia.
  unfold nearestScaled. cbv zeta.
  apply andb_true_intro. split; [apply andb_true_intro; split|].
  - apply orb_true_intro. right. apply Z.leb_le.
    replace (40 * k - 20 + 120 * a) with (40 * k + 120 * a - 20) by ring. exact Hlo.
  - apply Z.leb_le. lia.
  - apply Z.leb_le.
    replace (40 * k + 20 + 120 * a) with (40 * k + 120 * a + 20) by ring. exact Hhi.
Qed.

(** All 2800 * 255 cases of the band, by evaluation. *)
Lemma featherCheck_all : holdsOn featherCheck 3600 6399 = true.
Proof. vm_cast_no_check (eq_refl true). Qed.

(** The alpha written in the feathering band is a byte and an integer
    nearest to the scaled alpha, for every alpha and every radicand of the
    band. *)
Lemma featherAlpha_checked a n :
  1 <= a <= 255 -> 3600 <= n <= 6399 ->
  nearestScaled a n (featherAlpha a n) = true /\ isByte (featherAlpha a n).
Proof.
  intros Ha Hn.
  pose proof (holdsOn_spec featherCheck 3600 6399 featherCheck_all n Hn) as Hc.
  unfold featherCheck in Hc. cbv zeta in Hc.
  pose proof (holdsOn_spec _ 1 255 Hc a Ha) as H. cbv beta in H.
  change (ToUint8Clamp _) with (featherAlpha a n) in H.
  apply andb_prop in H as [H H2]. apply andb_prop in H as [H H1].
  apply Z.leb_le in H1. apply Z.leb_le in H2.
  split; [|unfold isByte; lia].
  apply nearestFast_spec; [exact Ha | lia | lia | exact H].
Qed.

Lemma featherAlpha_nearest a n :
  1 <= a <= 255 -> 3600 <= n <= 6399 -> nearestScaled a n (featherAlpha a n) = true.
Proof. intros Ha Hn. apply featherAlpha_checked; assumption. Qed.

Lemma featherAlpha_byte a n :
  1 <= a <= 255 -> 3600 <= n <= 6399 -> isByte (featherAlpha a n).
Proof. intros Ha Hn. apply featherAlpha_checked; assumption. Qed.

(** At distance exactly 70 the factor is 1/2. *)
Lemma featherAlpha_half a :
  1 <= a <= 255 -> halfToEven a (featherAlpha a 4900) = true.
Proof.
  intros Ha.
  apply (holdsOn_spec (fun x => halfToEven x (featherAlpha x 4900)) 1 255);
    [|exact Ha].
  vm_compute. reflexivity.
Qed.

(** ** Distances as real numbers *)

Lemma sqDist_nonneg c1 c2 : 0 <= sqDist c1 c2.
Proof. unfold sqDist. nia. Qed.

Lemma sqDist_bytes c1 c2 :
  byteRGB c1 -> byteRGB c2 -> 0 <= sqDist c1 c2 <= maxSqDist.
Proof.
  unfold byteRGB, isByte, sqDist, maxSqDist.
  intros (Hr1 & Hg1 & Hb1) (Hr2 & Hg2 & Hb2).
  assert (forall x y, 0 <= x <= 255 -> 0 <= y <= 255 -> 0 <= (x - y) ^ 2 <= 65025)
    as Hsq by (intros; nia).
  pose proof (Hsq _ _ Hr1 Hr2). pose proof (Hsq _ _ Hg1 Hg2).
  pose proof (Hsq _ _ Hb1 Hb2). lia.
Qed.

Lemma sqrt_IZR_lt n m :
  0 <= n -> 0 <= m -> (R_sqrt.sqrt (IZR n) < R_sqrt.sqrt (IZR m))%R <-> n < m.
Proof.
  intros Hn Hm. split; intros H.
  - apply lt_IZR. apply sqrt_lt_0_alt. exact H.
  - apply sqrt_lt_1_alt. split; [apply IZR_le; exact Hn | apply IZR_lt; exact H].
Qed.

Lemma sqrt_IZR_le n m :
  0 <= n -> 0 <= m -> (R_sqrt.sqrt (IZR n) <= R_sqrt.sqrt (IZR m))%R <-> n <= m.
Proof.
  intros Hn Hm. split; intros H.
  - destruct (Z_le_gt_dec n m) as [Hle|Hgt]; [exact Hle|].
    assert (m < n) as Hlt by lia.
    apply (sqrt_IZR_lt m n Hm Hn) in Hlt. lra.
  - apply sqrt_le_1_alt. apply IZR_le. exact H.
Qed.

Lemma sqrt_IZR_square k : 0 <= k -> R_sqrt.sqrt (IZR (k * k)) = IZR k.
Proof.
  intros Hk. rewrite mult_IZR. apply sqrt_square. apply IZR_le. exact Hk.
Qed.

Lemma euclid_lt_const c1 c2 k :
  0 <= k -> (euclid c1 c2 < IZR k)%R <-> sqDist c1 c2 < k * k.
Proof.
  intros Hk. unfold euclid. rewrite <- (sqrt_IZR_square k Hk).
  apply sqrt_IZR_lt; [apply sqDist_nonneg | nia].
Qed.

Lemma euclid_ge_const c1 c2 k :
  0 <= k -> (IZR k <= euclid c1 c2)%R <-> k * k <= sqDist c1 c2.
Proof.
  intros Hk. unfold euclid. rewrite <- (sqrt_IZR_square k Hk).
  apply sqrt_IZR_le; [nia | apply sqDist_nonneg].
Qed.

Lemma euclid_gt_const c1 c2 k :
  0 <= k -> (IZR k < euclid c1 c2)%R <-> k * k < sqDist c1 c2.
Proof.
  intros Hk. unfold euclid. rewrite <- (sqrt_IZR_square k Hk).
  apply sqrt_IZR_lt; [nia | apply sqDist_nonneg].
Qed.

Lemma euclid_eq_const c1 c2 k :
  0 <= k -> euclid c1 c2 = IZR k <-> sqDist c1 c2 = k * k.
Proof.
  intros Hk. split; intros H.
  - assert (~ sqDist c1 c2 < k * k) as H1.
    { intros Hlt. apply (euclid_lt_const c1 c2 k Hk) in Hlt. lra. }
    assert (~ k * k < sqDist c1 c2) as H2.
    { intros Hgt. apply (euclid_gt_const c1 c2 k Hk) in Hgt. lra. }
    lia.
  - unfold euclid. rewrite H. apply sqrt_IZR_square. exact Hk.
Qed.

Lemma euclid_lt_euclid c c1 c2 :
  (euclid c c1 < euclid c c2)%R <-> sqDist c c1 < sqDist c c2.
Proof. apply sqrt_IZR_lt; apply sqDist_nonneg. Qed.

Lemma euclid_le_euclid c c1 c2 :
  (euclid c c1 <= euclid c c2)%R <-> sqDist c c1 <= sqDist c c2.
Proof. apply sqrt_IZR_le; apply sqDist_nonneg. Qed.

(** What [nearestScaled] decides. *)
Lemma nearestScaled_spec a n k :
  0 <= a -> 0 <= n -> nearestScaled a n k = true ->
  (Rabs (IZR k - IZR a * (R_sqrt.sqrt (IZR n) - 60) / 20) <= 1 / 2)%R.
Proof.
  intros Ha Hn H.
  set (y := (2 * IZR a * R_sqrt.sqrt (IZR n))%R).
  assert (0 <= 4 * a * a * n) as HN by nia.
  assert (R_sqrt.sqrt (IZR (4 * a * a * n)) = y) as Hy.
  { replace (4 * a * a * n) with ((2 * a) * (2 * a) * n) by ring.
    rewrite (mult_IZR (2 * a * (2 * a)) n).
    rewrite sqrt_mult_alt by (apply IZR_le; nia).
    rewrite sqrt_IZR_square by lia. rewrite mult_IZR. reflexivity. }
  assert (0 <= y)%R as Hy0 by (rewrite <- Hy; apply sqrt_pos).
  unfold nearestScaled in H.
  set (lo := 40 * k - 20 + 120 * a) in *.
  set (hi := 40 * k + 20 + 120 * a) in *.
  apply andb_prop in H as [H Hhi2]. apply andb_prop in H as [Hlo Hhi0].
  apply Z.leb_le in Hhi2. apply Z.leb_le in Hhi0.
  assert (IZR lo <= y)%R as Hloy.
  { apply orb_prop in Hlo as [Hneg|Hsq].
    - apply Z.leb_le in Hneg. apply IZR_le in Hneg. lra.
    - apply Z.leb_le in Hsq.
      destruct (Z_le_gt_dec lo 0) as [Hneg|Hpos].
      + apply IZR_le in Hneg. lra.
      + rewrite <- Hy, <- (sqrt_IZR_square lo) by lia.
        apply sqrt_IZR_le; nia. }
  assert (y <= IZR hi)%R as Hyhi.
  { rewrite <- Hy, <- (sqrt_IZR_square hi) by lia. apply sqrt_IZR_le; nia. }
  assert (IZR lo = 40 * IZR k - 20 + 120 * IZR a)%R as Elo.
  { unfold lo. rewrite plus_IZR, minus_IZR, !mult_IZR. reflexivity. }
  assert (IZR hi = 40 * IZR k + 20 + 120 * IZR a)%R as Ehi.
  { unfold hi. rewrite !plus_IZR, !mult_IZR. reflexivity. }
  assert (IZR a * (R_sqrt.sqrt (IZR n) - 60) / 20 = (y - 120 * IZR a) / 40)%R as Hv.
  { unfold y. field. }
  rewrite Hv. apply Rabs_le. lra.
Qed.

(** ** The pixel loops *)

Lemma pixelAt_mapPixels (f : Pixel -> Pixel) (k : nat) :
  forall data, pixelAt (mapPixels f data) k = option_map f (pixelAt data k).
Proof.
  induction k as [|k IH]; intros [|pr [|pg [|pb [|pa rest]]]]; try reflexivity.
  - cbn [mapPixels pixelAt option_map].
    destruct (f (pr, pg, pb, pa)) as [[[pr' pg'] pb'] pa']. reflexivity.
  - cbn [mapPixels pixelAt option_map].
    destruct (f (pr, pg, pb, pa)) as [[[pr' pg'] pb'] pa'].
    cbn [pixelAt]. apply IH.
Qed.

Lemma length_mapPixels_upto (f : Pixel -> Pixel) :
  forall k data, (List.length data <= k)%nat ->
  List.length (mapPixels f data) = List.length data.
Proof.
  induction k as [|k IH]; intros [|pr [|pg [|pb [|pa rest]]]] Hk; try reflexivity.
  - simpl in Hk. lia.
  - cbn [mapPixels]. destruct (f (pr, pg, pb, pa)) as [[[pr' pg'] pb'] pa'].
    cbn [List.length] in *. rewrite IH by lia. reflexivity.
Qed.

(** A pass keeps the length of the buffer. *)
Lemma length_mapPixels (f : Pixel -> Pixel) (data : list Z) :
  List.length (mapPixels f data) = List.length data.
Proof. apply (length_mapPixels_upto f (List.length data)). lia. Qed.

(** ** hexToRgb *)

Lemma hexDigit_range c d : hexDigit c = Some d -> 0 <= d <= 15.
Proof.
  unfold hexDigit. generalize (Z.of_N (N_of_ascii c)). intros n H.
  destruct (Z.leb_spec 48 n), (Z.leb_spec n 57); cbn [andb] in H;
    try (injection H as <-; lia);
    destruct (Z.leb_spec 97 n), (Z.leb_spec n 102); cbn [andb] in H;
    try (injection H as <-; lia);
    destruct (Z.leb_spec 65 n), (Z.leb_spec n 70); cbn [andb] in H;
    try (injection H as <-; lia); discriminate.
Qed.

Lemma parseHexPair_byte x y v : parseHexPair x y = Some v -> isByte v.
Proof.
  unfold parseHexPair, isByte. intros H.
  destruct (hexDigit x) as [hi|] eqn:Ex; [|discriminate].
  destruct (hexDigit y) as [lo|] eqn:Ey; [|discriminate].
  apply hexDigit_range in Ex. apply hexDigit_range in Ey.
  assert (v = 16 * hi + lo) as -> by congruence. lia.
Qed.

Lemma hexToRgb_bytes hex c : hexToRgb hex = Some c -> byteRGB c.
Proof.
  unfold hexToRgb. intros H.
  destruct (list_ascii_of_string _) as [|c1 [|c2 [|c3 [|c4 [|c5 [|c6 [|c7 l]]]]]]];
    try discriminate.
  destruct (parseHexPair c1 c2) as [vr|] eqn:Er; [|discriminate].
  destruct (parseHexPair c3 c4) as [vg|] eqn:Eg; [|discriminate].
  destruct (parseHexPair c5 c6) as [vb|] eqn:Eb; [|discriminate].
  injection H as <-. unfold byteRGB. cbn [r g b].
  split; [|split]; eapply parseHexPair_byte; eassumption.
Qed.

Lemma black_bytes : byteRGB black.
Proof. unfold byteRGB, isByte, black. cbn. lia. Qed.

Lemma green_bytes : byteRGB green.
Proof. unfold byteRGB, isByte, green. cbn. lia. Qed.

Lemma processPair_bytes p : byteRGB (originalRGB (processPair p)).
Proof.
  unfold processPair. cbn [originalRGB].
  destruct (hexToRgb (original p)) as [c|] eqn:E.
  - eapply hexToRgb_bytes, E.
  - apply black_bytes.
Qed.

(** ** The best-match scan *)

(** On byte colours the scan in binary64 and the scan on radicands walk in
    step. *)
Lemma scanPairs_radicands cur pairs :
  byteRGB cur -> Forall (fun p => byteRGB (originalRGB p)) pairs ->
  forall best n, 0 <= n <= maxSqDist ->
  scanPairs cur pairs (best, PrimFloat.sqrt (Z2F n)) =
  (fst (scanPairsSq cur pairs (best, n)),
   PrimFloat.sqrt (Z2F (snd (scanPairsSq cur pairs (best, n))))).
Proof.
  intros Hcur Hall. induction Hall as [|p ps Hp Hps IH]; intros best n Hn.
  - reflexivity.
  - unfold scanPairs, scanPairsSq in *. cbn [fold_left].
    pose proof (sqDist_bytes cur (originalRGB p) Hcur Hp) as Hd.
    replace (scanStepSq cur (best, n) p)
      with (if sqDist cur (originalRGB p) <? n
            then (Some p, sqDist cur (originalRGB p)) else (best, n))
      by reflexivity.
    replace (scanStep cur (best, PrimFloat.sqrt (Z2F n)) p)
      with (if (PrimFloat.sqrt (Z2F (sqDist cur (originalRGB p)))
                <? PrimFloat.sqrt (Z2F n))%float
            then (Some p, PrimFloat.sqrt (Z2F (sqDist cur (originalRGB p))))
            else (best, PrimFloat.sqrt (Z2F n)))
      by reflexivity.
    rewrite (sqrt_ltb _ _ Hd Hn).
    destruct (sqDist cur (originalRGB p) <? n); apply IH; assumption.
Qed.

Lemma threshold_radicand : threshold = PrimFloat.sqrt (Z2F 3600).
Proof. vm_compute. reflexivity. Qed.

Lemma bestMatch_radicands cur pairs :
  byteRGB cur -> Forall (fun p => byteRGB (originalRGB p)) pairs ->
  bestMatch cur pairs = fst (scanPairsSq cur pairs (None, 3600)).
Proof.
  intros Hcur Hall. unfold bestMatch. rewrite threshold_radicand.
  rewrite (scanPairs_radicands cur pairs Hcur Hall None 3600)
    by (unfold maxSqDist; lia).
  reflexivity.
Qed.

(** What the scan on radicands returns: either nothing beats the bound it
    started with, or the first pair of least radicand. *)
Lemma scanPairsSq_spec cur pairs :
  forall best n,
  let res := scanPairsSq cur pairs (best, n) in
  (res = (best, n) /\ forall q, In q pairs -> n <= sqDist cur (originalRGB q))
  \/ (exists l1 p l2,
        pairs = l1 ++ p :: l2 /\ res = (Some p, sqDist cur (originalRGB p))
        /\ sqDist cur (originalRGB p) < n
        /\ (forall q, In q l1 -> sqDist cur (originalRGB p) < sqDist cur (originalRGB q))
        /\ (forall q, In q l2 -> sqDist cur (originalRGB p) <= sqDist cur (originalRGB q))).
Proof.
  induction pairs as [|p ps IH]; intros best n res.
  - left. split; [reflexivity | intros q []].
  - subst res. unfold scanPairsSq in *. cbn [fold_left].
    replace (scanStepSq cur (best, n) p)
      with (if sqDist cur (originalRGB p) <? n
            then (Some p, sqDist cur (originalRGB p)) else (best, n))
      by reflexivity.
    destruct (Z.ltb_spec (sqDist cur (originalRGB p)) n) as [Hlt|Hge].
    + destruct (IH (Some p) (sqDist cur (originalRGB p)))
        as [[Hres Hall]|(l1 & p' & l2 & Hps & Hres & Hlt' & H1 & H2)].
      * right. exists [], p, ps.
        split; [reflexivity|]. split; [exact Hres|]. split; [exact Hlt|].
        split; [intros q []|exact Hall].
      * right. exists (p :: l1), p', l2. subst ps.
        split; [reflexivity|]. split; [exact Hres|]. split; [lia|].
        split; [|exact H2].
        intros q [<-|Hq]; [exact Hlt' | apply H1, Hq].
    + destruct (IH best n)
        as [[Hres Hall]|(l1 & p' & l2 & Hps & Hres & Hlt' & H1 & H2)].
      * left. split; [exact Hres|]. intros q [<-|Hq]; [exact Hge | apply Hall, Hq].
      * right. exists (p :: l1), p', l2. subst ps.
        split; [reflexivity|]. split; [exact Hres|]. split; [exact Hlt'|].
        split; [|exact H2].
        intros q [<-|Hq]; [lia | apply H1, Hq].
Qed.

Lemma bestMatch_spec cur rules :
  byteRGB cur ->
  let pairs := map processPair rules in
  (bestMatch cur pairs = None
   /\ forall q, In q pairs -> 3600 <= sqDist cur (originalRGB q))
  \/ (exists l1 p l2,
        pairs = l1 ++ p :: l2 /\ bestMatch cur pairs = Some p
        /\ sqDist cur (originalRGB p) < 3600
        /\ (forall q, In q l1 -> sqDist cur (originalRGB p) < sqDist cur (originalRGB q))
        /\ (forall q, In q l2 -> sqDist cur (originalRGB p) <= sqDist cur (originalRGB q))).
Proof.
  intros Hcur pairs.
  assert (Forall (fun p => byteRGB (originalRGB p)) pairs) as Hall.
  { subst pairs. apply Forall_forall. intros q Hq.
    apply in_map_iff in Hq as (rule & <- & _). apply processPair_bytes. }
  rewrite (bestMatch_radicands cur pairs Hcur Hall).
  destruct (scanPairsSq_spec cur pairs None 3600)
    as [[Hres Hfar]|(l1 & p & l2 & Hps & Hres & Hlt & H1 & H2)].
  - left. rewrite Hres. split; [reflexivity | exact Hfar].
  - right. exists l1, p, l2. rewrite Hres.
    split; [exact Hps|]. split; [reflexivity|]. split; [exact Hlt|].
    split; assumption.
Qed.

(** ** The recolor pass *)

(** C1.  In the recolor pass of [processFrameLocal], a pixel whose alpha is
    below 10 is skipped, and a pixel whose alpha is at least 10 and whose
    Euclidean RGB distance to the source colour of every rule is at least 60
    keeps its four bytes. *)
Theorem recolor_keeps_unmatched_pixels
    (rules : list RecolorPair) (data : list Z) (k : nat) (pr pg pb pa : Z) :
  pixelAt data k = Some (pr, pg, pb, pa) ->
  bytePixel (pr, pg, pb, pa) ->
  (pa < 10 -> pixelAt (recolorPass rules data) k = Some (pr, pg, pb, pa))
  /\ (10 <= pa ->
      (forall rule, In rule rules ->
         (60 <= euclid {| r := pr; g := pg; b := pb |}
                       (originalRGB (processPair rule)))%R) ->
      pixelAt (recolorPass rules data) k = Some (pr, pg, pb, pa)).
Proof.
  intros Hpx (Hr & Hg & Hb & Ha).
  unfold recolorPass. rewrite pixelAt_mapPixels, Hpx. cbn [option_map recolorPixel].
  split.
  - intros Hlow. apply Z.ltb_lt in Hlow. rewrite Hlow. reflexivity.
  - intros Hhigh Hfar.
    destruct (Z.ltb_spec pa 10) as [?|_]; [lia|].
    assert (byteRGB {| r := pr; g := pg; b := pb |}) as Hcur
      by (unfold byteRGB; cbn; auto).
    destruct (bestMatch_spec _ rules Hcur)
      as [[Hnone _]|(l1 & p & l2 & Hps & _ & Hlt & _)].
    + rewrite Hnone. reflexivity.
    + exfalso.
      assert (In p (map processPair rules)) as Hin
        by (rewrite Hps; apply in_elt).
      apply in_map_iff in Hin as (rule & <- & Hrule).
      specialize (Hfar rule Hrule).
      apply (euclid_ge_const _ _ 60) in Hfar; lia.
Qed.

Lemma recolor_keeps_unmatched_pixels_witness :
  let rules := [{| original := "#FF0000"; target := "#0000FF" |}]%string in
  let data := [255; 0; 0; 255;  0; 200; 10; 255;  250; 5; 5; 9] in
  pixelAt data 1 = Some (0, 200, 10, 255)
  /\ bytePixel (0, 200, 10, 255)
  /\ 10 <= 255
  /\ (forall rule, In rule rules ->
        (60 <= euclid {| r := 0; g := 200; b := 10 |}
                      (originalRGB (processPair rule)))%R)
  /\ pixelAt (recolorPass rules data) 1 = Some (0, 200, 10, 255)
  /\ recolorPass rules data = [0; 0; 255; 255;  0; 200; 10; 255;  250; 5; 5; 9].
Proof.
  intros rules data.
  assert (forall rule, In rule rules ->
            (60 <= euclid {| r := 0; g := 200; b := 10 |}
                          (originalRGB (processPair rule)))%R) as Hfar.
  { intros rule [<-|[]]. apply (euclid_ge_const _ _ 60); [lia|].
    vm_compute. discriminate. }
  split; [reflexivity|].
  split; [unfold bytePixel, isByte; lia|].
  split; [lia|]. split; [exact Hfar|].
  split; [|vm_compute; reflexivity].
  apply (recolor_keeps_unmatched_pixels rules data 1 0 200 10 255).
  - reflexivity.
  - unfold bytePixel, isByte. lia.
  - lia.
  - exact Hfar.
Defined.

(** C10.  The rule chosen for a pixel is the first one attaining the least
    distance, provided that distance is below 60: every earlier rule is
    strictly farther and every later rule is at least as far; a tie is thus
    won by the earliest rule.  When no rule is closer than 60 none is chosen. *)
Theorem bestMatch_first_minimum (currentRGB : RGB) (rules : list RecolorPair) :
  byteRGB currentRGB ->
  match bestMatch currentRGB (map processPair rules) with
  | Some best =>
      (euclid currentRGB (originalRGB best) < 60)%R
      /\ exists earlier later,
           map processPair rules = earlier ++ best :: later
           /\ (forall q, In q earlier ->
                 (euclid currentRGB (originalRGB best)
                  < euclid currentRGB (originalRGB q))%R)
           /\ (forall q, In q later ->
                 (euclid currentRGB (originalRGB best)
                  <= euclid currentRGB (originalRGB q))%R)
  | None =>
      forall q, In q (map processPair rules) ->
        (60 <= euclid currentRGB (originalRGB q))%R
  end.
Proof.
  intros Hcur.
  destruct (bestMatch_spec currentRGB rules Hcur)
    as [[Hnone Hfar]|(l1 & p & l2 & Hps & Hsome & Hlt & H1 & H2)].
  - rewrite Hnone. intros q Hq. apply (euclid_ge_const _ _ 60); [lia|].
    apply Hfar in Hq. lia.
  - rewrite Hsome. split.
    + apply (euclid_lt_const _ _ 60); lia.
    + exists l1, l2. split; [exact Hps|]. split.
      * intros q Hq. apply euclid_lt_euclid, H1, Hq.
      * intros q Hq. apply euclid_le_euclid, H2, Hq.
Qed.

Lemma bestMatch_first_minimum_witness :
  let rules := [{| original := "#101010"; target := "#FF0000" |};
                {| original := "#0A000A"; target := "#00FF00" |};
                {| original := "#000A0A"; target := "#0000FF" |}]%string in
  byteRGB {| r := 0; g := 0; b := 10 |}
  /\ bestMatch {| r := 0; g := 0; b := 10 |} (map processPair rules)
     = Some (processPair {| original := "#0A000A"; target := "#00FF00" |}%string)
  /\ match bestMatch {| r := 0; g := 0; b := 10 |} (map processPair rules) with
     | Some best =>
         (euclid {| r := 0; g := 0; b := 10 |} (originalRGB best) < 60)%R
         /\ exists earlier later,
              map processPair rules = earlier ++ best :: later
              /\ (forall q, In q earlier ->
                    (euclid {| r := 0; g := 0; b := 10 |} (originalRGB best)
                     < euclid {| r := 0; g := 0; b := 10 |} (originalRGB q))%R)
              /\ (forall q, In q later ->
                    (euclid {| r := 0; g := 0; b := 10 |} (originalRGB best)
                     <= euclid {| r := 0; g := 0; b := 10 |} (originalRGB q))%R)
     | None =>
         forall q, In q (map processPair rules) ->
           (60 <= euclid {| r := 0; g := 0; b := 10 |} (originalRGB q))%R
     end.
Proof.
  intros rules.
  split; [unfold byteRGB, isByte; cbn; lia|].
  split; [vm_compute; reflexivity|].
  apply (bestMatch_first_minimum {| r := 0; g := 0; b := 10 |} rules).
  unfold byteRGB, isByte. cbn. lia.
Defined.

(** C2.  A pixel matched by a rule is rewritten to
    [hslToRgb(targetHue, targetSaturation, currentLightness)], the hue and
    saturation being those of the rule's target colour, and keeps its alpha.
    In particular the single rule #FF0000 -> #0000FF turns an opaque pure red
    pixel into pure blue, red and blue having the same HSL lightness 0.5, and
    so turns a solid red frame of any size into a solid blue one. *)
Theorem recolor_matched_pixel :
  (forall (rules : list RecolorPair) (data : list Z) (k : nat)
          (pr pg pb pa : Z) (best : ProcessedPair),
     pixelAt data k = Some (pr, pg, pb, pa) ->
     10 <= pa ->
     bestMatch {| r := pr; g := pg; b := pb |} (map processPair rules) = Some best ->
     (exists rule targetRGB,
        In rule rules
        /\ targetRGB = match hexToRgb (target rule) with Some c => c | None => black end
        /\ targetHSL best = rgbToHsl (r targetRGB) (g targetRGB) (b targetRGB))
     /\ pixelAt (recolorPass rules data) k =
        Some (let '(tH, tS, _) := targetHSL best in
              let '(_, _, cL) := rgbToHsl pr pg pb in
              let '(nr, ng, nb) := hslToRgb tH tS cL in
              (ToUint8Clamp nr, ToUint8Clamp ng, ToUint8Clamp nb, pa)))
  /\ snd (rgbToHsl 255 0 0) = 0.5%float
  /\ snd (rgbToHsl 0 0 255) = 0.5%float
  /\ forall n : nat,
       recolorPass [{| original := "#FF0000"; target := "#0000FF" |}]%string
                   (solid (255, 0, 0, 255) n)
       = solid (0, 0, 255, 255) n.
Proof.
  split; [|split; [|split]].
  - intros rules data k pr pg pb pa best Hpx Ha Hbest. split.
    + assert (In best (map processPair rules)) as Hin.
      { unfold bestMatch, scanPairs in Hbest.
        assert (forall ps st,
                  fst (fold_left (scanStep {| r := pr; g := pg; b := pb |}) ps st)
                  = Some best ->
                  fst st = Some best \/ In best ps) as Hscan.
        { induction ps as [|p ps IH]; intros st Hst; [left; exact Hst|].
          cbn [fold_left] in Hst. apply IH in Hst as [Hst|Hst].
          - unfold scanStep in Hst.
            destruct (_ <? _)%float; [|left; exact Hst].
            right. left. cbn in Hst. congruence.
          - right. right. exact Hst. }
        apply Hscan in Hbest as [Hbest|Hbest]; [discriminate | exact Hbest]. }
      apply in_map_iff in Hin as (rule & <- & Hrule).
      exists rule, (match hexToRgb (target rule) with Some c => c | None => black end).
      split; [exact Hrule|]. split; reflexivity.
    + unfold recolorPass. rewrite pixelAt_mapPixels, Hpx.
      cbn [option_map recolorPixel].
      destruct (Z.ltb_spec pa 10) as [?|_]; [lia|].
      rewrite Hbest. unfold recolorTo.
      destruct (targetHSL best) as [[tH tS] tL].
      destruct (rgbToHsl pr pg pb) as [[cH cS] cL].
      destruct (hslToRgb tH tS cL) as [[nr ng] nb]. reflexivity.
  - vm_compute. reflexivity.
  - vm_compute. reflexivity.
  - induction n as [|n IH]; [reflexivity|].
    unfold recolorPass in *. cbn [solid mapPixels].
    rewrite IH.
    replace (recolorPixel _ (255, 0, 0, 255)) with (0, 0, 255, 255)
      by (vm_compute; reflexivity).
    reflexivity.
Qed.

Lemma recolor_matched_pixel_witness :
  let rules := [{| original := "#FF0000"; target := "#0000FF" |}]%string in
  let data := [250; 10; 10; 128;  0; 0; 0; 255] in
  pixelAt data 0 = Some (250, 10, 10, 128)
  /\ 10 <= 128
  /\ bestMatch {| r := 250; g := 10; b := 10 |} (map processPair rules)
     = Some (processPair {| original := "#FF0000"; target := "#0000FF" |}%string)
  /\ recolorPass rules data = [5; 5; 255; 128;  0; 0; 0; 255]
  /\ pixelAt (recolorPass rules data) 0 =
     Some (let '(tH, tS, _) :=
             targetHSL (processPair {| original := "#FF0000"; target := "#0000FF" |}%string) in
           let '(_, _, cL) := rgbToHsl 250 10 10 in
           let '(nr, ng, nb) := hslToRgb tH tS cL in
           (ToUint8Clamp nr, ToUint8Clamp ng, ToUint8Clamp nb, 128)).
Proof.
  intros rules data.
  split; [reflexivity|]. split; [lia|].
  split; [vm_compute; reflexivity|]. split; [vm_compute; reflexivity|].
  apply (proj1 recolor_matched_pixel rules data 0%nat 250 10 10 128
           (processPair {| original := "#FF0000"; target := "#0000FF" |}%string)).
  - reflexivity.
  - lia.
  - vm_compute. reflexivity.
Defined.

(** ** The remove-background pass *)

Lemma bgRGB_bytes config : byteRGB (bgRGB config).
Proof.
  unfold bgRGB. destruct (hexToRgb _) as [c|] eqn:E.
  - eapply hexToRgb_bytes, E.
  - apply green_bytes.
Qed.

(** The colour the pass measures distances to is the key colour of the
    configuration. *)
Lemma bgRGB_keyColour config : bgRGB config = keyColour config.
Proof.
  unfold bgRGB, keyColour, truthy.
  destruct (removeBgColor config) as [[|c hex]|]; reflexivity.
Qed.

(** [replaceRGB] is null exactly when the field is absent or empty or is not
    a hex colour; otherwise it is the colour parsed, whose channels are bytes. *)
Lemma replaceRGB_spec config :
  replaceRGB config =
  match bgReplacementColor config with
  | Some replaceHex => hexToRgb replaceHex
  | None => None
  end.
Proof.
  unfold replaceRGB, truthy.
  destruct (bgReplacementColor config) as [[|c hex]|]; reflexivity.
Qed.

Lemma replaceRGB_bytes config c : replaceRGB config = Some c -> byteRGB c.
Proof.
  rewrite replaceRGB_spec.
  destruct (bgReplacementColor config) as [hex|]; [|discriminate].
  apply hexToRgb_bytes.
Qed.

(** The loop body on a visible byte pixel, with the two tests on [diff] read
    on the radicand. *)
Lemma removeBgPixel_cases bg rep pr pg pb pa :
  byteRGB bg -> bytePixel (pr, pg, pb, pa) -> 0 < pa ->
  removeBgPixel bg rep (pr, pg, pb, pa) =
  let n := sqDist {| r := pr; g := pg; b := pb |} bg in
  if n <? 3600 then
    match rep with
    | Some c => (ToUint8Clamp (Z2F (r c)), ToUint8Clamp (Z2F (g c)),
                 ToUint8Clamp (Z2F (b c)), 255)
    | None => (pr, pg, pb, 0)
    end
  else if (n <? 6400) && match rep with None => true | Some _ => false end
  then (pr, pg, pb, featherAlpha pa n)
  else (pr, pg, pb, pa).
Proof.
  intros Hbg (Hr & Hg & Hb & Ha) Hpos.
  assert (byteRGB {| r := pr; g := pg; b := pb |}) as Hcur
    by (unfold byteRGB; cbn; auto).
  pose proof (sqDist_bytes _ _ Hcur Hbg) as Hn.
  unfold removeBgPixel.
  destruct (Z.eqb_spec pa 0) as [?|_]; [lia|].
  cbv zeta. unfold tolerance.
  rewrite (sqrt_below_60 _ Hn), (sqrt_below_80 _ Hn). reflexivity.
Qed.

(** C3.  Background removal in transparent mode, that is when the pass has
    no replacement colour ([replaceRGB] is null: the field is absent, or holds
    no hex colour), on a pixel whose alpha is not 0, [d] being its Euclidean
    RGB distance to the key colour, the colour of [config.removeBgColor]
    (pure green when that field holds none): below 60 the alpha becomes 0; from 60 to
    below 80 the alpha becomes a byte nearest to [alpha * (d - 60) / 20] and
    the colour is kept, so at [d = 70] it becomes half the alpha (an odd
    alpha going to the even neighbour of its half); from 80 on the pixel is
    unchanged. *)
Theorem removeBg_transparent_mode
    (config : ProcessingConfig) (data : list Z) (k : nat) (pr pg pb pa : Z) :
  replaceRGB config = None ->
  pixelAt data k = Some (pr, pg, pb, pa) ->
  bytePixel (pr, pg, pb, pa) ->
  0 < pa ->
  let d := euclid {| r := pr; g := pg; b := pb |} (keyColour config) in
  let out := pixelAt (removeBgPass config data) k in
  ((d < 60)%R -> out = Some (pr, pg, pb, 0))
  /\ ((60 <= d < 80)%R ->
      exists pa', out = Some (pr, pg, pb, pa') /\ isByte pa'
                  /\ (Rabs (IZR pa' - IZR pa * (d - 60) / 20) <= 1 / 2)%R)
  /\ (d = 70%R ->
      exists pa', out = Some (pr, pg, pb, pa') /\ halfToEven pa pa' = true)
  /\ ((80 <= d)%R -> out = Some (pr, pg, pb, pa)).
Proof.
  intros Hnone Hpx Hbytes Hpos. rewrite <- (bgRGB_keyColour config). intros d out.
  assert (out = Some (removeBgPixel (bgRGB config) None (pr, pg, pb, pa))) as Hout.
  { subst out. unfold removeBgPass. rewrite pixelAt_mapPixels, Hpx, Hnone.
    reflexivity. }
  rewrite (removeBgPixel_cases _ None pr pg pb pa (bgRGB_bytes config) Hbytes Hpos)
    in Hout.
  cbv zeta in Hout.
  set (n := sqDist {| r := pr; g := pg; b := pb |} (bgRGB config)) in *.
  assert (0 <= n) as Hn0 by apply sqDist_nonneg.
  destruct Hbytes as (_ & _ & _ & Ha). unfold isByte in Ha.
  split; [|split; [|split]].
  - intros Hd. apply (euclid_lt_const _ _ 60) in Hd; [|lia]. fold n in Hd.
    destruct (Z.ltb_spec n 3600); [exact Hout | lia].
  - intros [Hlo Hhi].
    apply (euclid_ge_const _ _ 60) in Hlo; [|lia].
    apply (euclid_lt_const _ _ 80) in Hhi; [|lia]. fold n in Hlo, Hhi.
    destruct (Z.ltb_spec n 3600); [lia|].
    destruct (Z.ltb_spec n 6400); [|lia]. cbn [andb] in Hout.
    exists (featherAlpha pa n). split; [exact Hout|]. split.
    + apply featherAlpha_byte; lia.
    + apply nearestScaled_spec; [lia | lia | apply featherAlpha_nearest; lia].
  - intros Hd. apply (euclid_eq_const _ _ 70) in Hd; [|lia]. fold n in Hd.
    destruct (Z.ltb_spec n 3600); [lia|].
    destruct (Z.ltb_spec n 6400); [|lia]. cbn [andb] in Hout.
    exists (featherAlpha pa n). split; [exact Hout|].
    replace n with 4900 by lia. apply featherAlpha_half. lia.
  - intros Hd. apply (euclid_ge_const _ _ 80) in Hd; [|lia]. fold n in Hd.
    destruct (Z.ltb_spec n 3600); [lia|].
    destruct (Z.ltb_spec n 6400); [lia|]. exact Hout.
Qed.

Lemma removeBg_transparent_mode_witness :
  let config := {| recolorPairs := None; removeBgColor := Some "#FF0000"%string;
                   bgReplacementColor := None |} in
  let data := [255; 0; 0; 255;  185; 0; 0; 255;  175; 0; 0; 200;  0; 255; 0; 255] in
  replaceRGB config = None
  /\ pixelAt data 1 = Some (185, 0, 0, 255)
  /\ bytePixel (185, 0, 0, 255)
  /\ 0 < 255
  /\ keyColour config = {| r := 255; g := 0; b := 0 |}
  /\ removeBgPass config data
     = [255; 0; 0; 0;  185; 0; 0; 128;  175; 0; 0; 200;  0; 255; 0; 255]
  /\ (let d := euclid {| r := 185; g := 0; b := 0 |} (keyColour config) in
      let out := pixelAt (removeBgPass config data) 1 in
      ((d < 60)%R -> out = Some (185, 0, 0, 0))
      /\ ((60 <= d < 80)%R ->
          exists pa', out = Some (185, 0, 0, pa') /\ isByte pa'
                      /\ (Rabs (IZR pa' - 255 * (d - 60) / 20) <= 1 / 2)%R)
      /\ (d = 70%R ->
          exists pa', out = Some (185, 0, 0, pa') /\ halfToEven 255 pa' = true)
      /\ ((80 <= d)%R -> out = Some (185, 0, 0, 255))).
Proof.
  intros config data.
  split; [reflexivity|]. split; [reflexivity|].
  split; [unfold bytePixel, isByte; lia|]. split; [lia|].
  split; [reflexivity|].
  split; [vm_compute; reflexivity|].
  apply (removeBg_transparent_mode config data 1 185 0 0 255).
  - reflexivity.
  - reflexivity.
  - unfold bytePixel, isByte. lia.
  - lia.
Defined.

(** C4.  Background removal in solid-replacement mode, that is when the pass
    has a replacement colour ([replaceRGB] is the colour parsed from
    [config.bgReplacementColor]), on a pixel whose alpha is not 0: at a
    distance below 60 from the key colour, the colour of
    [config.removeBgColor] (pure green when that field holds none), the
    pixel becomes the replacement colour with alpha 255; at any distance from 60 on, and so at 70, it is
    unchanged: there is no feathering band. *)
Theorem removeBg_solid_mode
    (config : ProcessingConfig) (data : list Z) (k : nat) (pr pg pb pa : Z)
    (c : RGB) :
  replaceRGB config = Some c ->
  pixelAt data k = Some (pr, pg, pb, pa) ->
  bytePixel (pr, pg, pb, pa) ->
  0 < pa ->
  let d := euclid {| r := pr; g := pg; b := pb |} (keyColour config) in
  let out := pixelAt (removeBgPass config data) k in
  ((d < 60)%R -> out = Some (r c, g c, b c, 255))
  /\ ((60 <= d)%R -> out = Some (pr, pg, pb, pa))
  /\ (d = 70%R -> out = Some (pr, pg, pb, pa)).
Proof.
  intros Hsome Hpx Hbytes Hpos. rewrite <- (bgRGB_keyColour config). intros d out.
  assert (out = Some (removeBgPixel (bgRGB config) (Some c) (pr, pg, pb, pa))) as Hout.
  { subst out. unfold removeBgPass. rewrite pixelAt_mapPixels, Hpx, Hsome.
    reflexivity. }
  rewrite (removeBgPixel_cases _ (Some c) pr pg pb pa (bgRGB_bytes config) Hbytes Hpos)
    in Hout.
  cbv zeta in Hout.
  set (n := sqDist {| r := pr; g := pg; b := pb |} (bgRGB config)) in *.
  rewrite andb_false_r in Hout.
  destruct (replaceRGB_bytes _ _ Hsome) as (Hcr & Hcg & Hcb).
  rewrite !store_byte in Hout by assumption.
  assert ((60 <= d)%R -> out = Some (pr, pg, pb, pa)) as Hfar.
  { intros Hd. apply (euclid_ge_const _ _ 60) in Hd; [|lia]. fold n in Hd.
    destruct (Z.ltb_spec n 3600); [lia | exact Hout]. }
  split; [|split].
  - intros Hd. apply (euclid_lt_const _ _ 60) in Hd; [|lia]. fold n in Hd.
    destruct (Z.ltb_spec n 3600); [exact Hout | lia].
  - exact Hfar.
  - intros Hd. apply Hfar. rewrite Hd. lra.
Qed.

Lemma removeBg_solid_mode_witness :
  let config := {| recolorPairs := None; removeBgColor := Some "#0000FF"%string;
                   bgReplacementColor := Some "#102030"%string |} in
  let data := [0; 0; 255; 255;  0; 0; 185; 255;  20; 10; 240; 7;  0; 255; 0; 255] in
  replaceRGB config = Some {| r := 16; g := 32; b := 48 |}
  /\ pixelAt data 1 = Some (0, 0, 185, 255)
  /\ bytePixel (0, 0, 185, 255)
  /\ 0 < 255
  /\ keyColour config = {| r := 0; g := 0; b := 255 |}
  /\ removeBgPass config data
     = [16; 32; 48; 255;  0; 0; 185; 255;  16; 32; 48; 255;  0; 255; 0; 255]
  /\ (let d := euclid {| r := 0; g := 0; b := 185 |} (keyColour config) in
      let out := pixelAt (removeBgPass config data) 1 in
      ((d < 60)%R -> out = Some (16, 32, 48, 255))
      /\ ((60 <= d)%R -> out = Some (0, 0, 185, 255))
      /\ (d = 70%R -> out = Some (0, 0, 185, 255))).
Proof.
  intros config data.
  split; [reflexivity|]. split; [reflexivity|].
  split; [unfold bytePixel, isByte; lia|]. split; [lia|].
  split; [reflexivity|].
  split; [vm_compute; reflexivity|].
  apply (removeBg_solid_mode config data 1 0 0 185 255
           {| r := 16; g := 32; b := 48 |}).
  - reflexivity.
  - reflexivity.
  - unfold bytePixel, isByte. lia.
  - lia.
Defined.

(** ** processFrameLocal *)

(** With a context, the function is the two passes in order, each under its
    mode test, followed by the read-back from the canvas. *)
Lemma processFrameLocal_with_context ctx imageData modes config :
  processFrameLocal (Some ctx) imageData modes config =
  Returned (readBack ctx
    {| data :=
         (if includes remove_bg modes then removeBgPass config else fun d => d)
           (match recolorPairs config with
            | Some (p :: ps) =>
                if includes recolor modes
                then recolorPass (p :: ps) (data imageData)
                else data imageData
            | _ => data imageData
            end);
       width := width imageData;
       height := height imageData |}).
Proof.
  unfold processFrameLocal. destruct (includes remove_bg modes); reflexivity.
Qed.

(** C8, as the code has it.  Without a rendering context [processFrameLocal]
    returns its input frame as the result, whatever the modes and the
    configuration, no pass being applied; and with or without a context it
    never ends in an error. *)
Theorem processFrameLocal_without_context
    (imageData : ImageData) (modes : list Mode) (config : ProcessingConfig) :
  processFrameLocal None imageData modes config = Returned imageData
  /\ forall ctx e, processFrameLocal ctx imageData modes config <> Thrown e.
Proof.
  split; [reflexivity|].
  intros [ctx|] e; [rewrite processFrameLocal_with_context|]; discriminate.
Qed.

(** C8, as the claim states it, fails: a green pixel that background removal
    would make transparent comes back untouched, and nothing is thrown. *)
Lemma processFrameLocal_without_context_counterexample :
  let imageData := {| data := [0; 255; 0; 255]; width := 1; height := 1 |} in
  let config := {| recolorPairs := None; removeBgColor := Some "#00FF00"%string;
                   bgReplacementColor := None |} in
  processFrameLocal None imageData [remove_bg] config = Returned imageData
  /\ processFrameLocal None imageData [remove_bg] config
     <> Thrown RenderContextUnavailable
  /\ removeBgPass config (data imageData) = [0; 255; 0; 0].
Proof.
  intros imageData config.
  split; [reflexivity|]. split; [discriminate|]. vm_compute. reflexivity.
Qed.

(** ** Frame down-sampling *)

Lemma succ_mod (i s : nat) :
  (0 < s)%nat ->
  (S i mod s = if (S (i mod s) =? s)%nat then 0 else S (i mod s))%nat.
Proof.
  intros Hs.
  pose proof (Nat.mod_upper_bound i s ltac:(lia)) as Hm.
  pose proof (Nat.div_mod_eq i s) as Hi.
  destruct (Nat.eqb_spec (S (i mod s)) s) as [Heq|Hne].
  - symmetry. apply (Nat.mod_unique _ _ (S (i / s))); [lia | nia].
  - symmetry. apply (Nat.mod_unique _ _ (i / s)); [lia | nia].
Qed.

(** The strided filter started at index [i]: its [j]-th element is the
    element [j * s] places after the first index divisible by [s]. *)
Lemma nth_error_filterIndex {A : Type} (s : nat) (l : list A) :
  (0 < s)%nat ->
  forall i j,
  nth_error (filterIndex (fun x => (x mod s =? 0)%nat) i l) j =
  nth_error l ((s - i mod s) mod s + j * s).
Proof.
  intros Hs. induction l as [|x rest IH]; intros i j.
  - cbn [filterIndex]. rewrite !nth_error_nil. reflexivity.
  - cbn [filterIndex].
    pose proof (Nat.mod_upper_bound i s ltac:(lia)) as Hm.
    pose proof (succ_mod i s Hs) as Hsucc.
    destruct (Nat.eqb_spec (i mod s) 0) as [Hz|Hnz].
    + rewrite Hz, Nat.sub_0_r, Nat.Div0.mod_same.
      destruct j as [|j]; [reflexivity|].
      replace (0 + S j * s)%nat with (S (s - 1 + j * s)) by lia.
      cbn [nth_error]. rewrite IH. f_equal. f_equal.
      rewrite Hsucc, Hz.
      destruct (Nat.eqb_spec 1 s) as [<-|Hs1].
      * reflexivity.
      * apply Nat.mod_small. lia.
    + rewrite IH, Hsucc.
      rewrite (Nat.mod_small (s - i mod s) s) by lia.
      destruct (Nat.eqb_spec (S (i mod s)) s) as [Heq|Hne].
      * rewrite Nat.sub_0_r, Nat.Div0.mod_same.
        replace (s - i mod s + j * s)%nat with (S (0 + j * s)) by lia.
        reflexivity.
      * rewrite (Nat.mod_small (s - S (i mod s)) s) by lia.
        replace (s - i mod s + j * s)%nat with (S (s - S (i mod s) + j * s)) by lia.
        reflexivity.
Qed.

Lemma ceilDiv_bounds (n : nat) :
  (50 * (ceilDiv n MAX_FRAMES - 1) < n \/ n = 0)%nat
  /\ (n <= 50 * ceilDiv n MAX_FRAMES)%nat.
Proof.
  unfold ceilDiv, MAX_FRAMES.
  pose proof (Nat.div_mod_eq (n + (50 - 1)) 50) as Hd.
  pose proof (Nat.mod_upper_bound (n + (50 - 1)) 50 ltac:(lia)) as Hm.
  lia.
Qed.

(** The stride as binary64 computes it, [Math.ceil(length / MAX_FRAMES)], is
    the exact one for every length up to 10000. *)
Lemma stride_binary64 (n : nat) :
  Z.of_nat n <= 10000 ->
  (Math_ceil (Z2F (Z.of_nat n) / 50) =? Z2F (Z.of_nat (ceilDiv n MAX_FRAMES)))%float
  = true.
Proof.
  intros Hn.
  replace (Z.of_nat (ceilDiv n MAX_FRAMES)) with ((Z.of_nat n + 49) / 50).
  - apply (holdsOn_spec
             (fun z => (Math_ceil (Z2F z / 50) =? Z2F ((z + 49) / 50))%float)
             0 10000); [|lia].
    vm_compute. reflexivity.
  - unfold ceilDiv, MAX_FRAMES. rewrite Nat2Z.inj_div, Nat2Z.inj_add. reflexivity.
Qed.

(** C9.  A frame list of at most 50 frames is passed through.  A longer one,
    with [stride = ceil(n / 50)], is reduced to the frames at the indices
    0, stride, 2 * stride, ... in order, each with its delay multiplied by
    [stride], and the result has at most 50 frames. *)
Theorem downsample_stride (parsedFrames : list GifFrame) :
  let n := List.length parsedFrames in
  let stride := ceilDiv n MAX_FRAMES in
  ((n <= 50)%nat -> downsample parsedFrames = parsedFrames)
  /\ ((50 < n)%nat ->
      (50 * (stride - 1) < n <= 50 * stride)%nat
      /\ (forall j,
            nth_error (downsample parsedFrames) j =
            option_map (fun f => {| imageData := imageData f;
                                    delay := delay f * Z.of_nat stride |})
                       (nth_error parsedFrames (j * stride)))
      /\ (forall i f,
            nth_error parsedFrames i = Some f ->
            (i mod stride = 0)%nat <->
            nth_error (downsample parsedFrames) (i / stride)
            = Some {| imageData := imageData f;
                      delay := delay f * Z.of_nat stride |}
            /\ (i = (i / stride) * stride)%nat)
      /\ (List.length (downsample parsedFrames) <= 50)%nat).
Proof.
  intros n stride. unfold downsample. fold n. fold stride.
  split.
  - intros Hn. destruct (Nat.ltb_spec MAX_FRAMES n) as [Hlt|_]; [|reflexivity].
    unfold MAX_FRAMES in Hlt. lia.
  - intros Hn. destruct (Nat.ltb_spec MAX_FRAMES n) as [_|Hge];
      [|unfold MAX_FRAMES in Hge; lia].
    pose proof (ceilDiv_bounds n) as [Hlo Hhi]. fold stride in Hlo, Hhi.
    assert (0 < stride)%nat as Hs by lia.
    assert (forall j,
              nth_error (map (scaleDelay stride)
                             (filterIndex (fun i => (i mod stride =? 0)%nat) 0
                                          parsedFrames)) j
              = option_map (scaleDelay stride) (nth_error parsedFrames (j * stride)))
      as Hnth.
    { intros j. rewrite nth_error_map, (nth_error_filterIndex stride _ Hs).
      rewrite Nat.Div0.mod_0_l, Nat.sub_0_r, Nat.Div0.mod_same. reflexivity. }
    split; [lia|]. split; [exact Hnth|]. split.
    + intros i f Hi. split.
      * intros Hmod.
        assert (i = i / stride * stride)%nat as Hmul.
        { pose proof (Nat.div_mod_eq i stride). lia. }
        split; [|exact Hmul].
        rewrite Hnth, <- Hmul, Hi. reflexivity.
      * intros [_ Hmul]. rewrite Hmul. apply Nat.Div0.mod_mul.
    + apply nth_error_None. rewrite Hnth.
      replace (nth_error parsedFrames (50 * stride)) with (@None GifFrame);
        [reflexivity|].
      symmetry. apply nth_error_None. fold n. lia.
Qed.

(** ** The quota classification *)

Lemma prefix_app needle haystack :
  String.prefix needle haystack = true <->
  exists post, haystack = (needle ++ post)%string.
Proof.
  revert haystack. induction needle as [|c needle IH]; intros haystack.
  - split; [intros _; exists haystack; reflexivity|].
    intros _. destruct haystack; reflexivity.
  - destruct haystack as [|d haystack]; cbn.
    + split; [discriminate | intros (post & H); discriminate].
    + destruct (Ascii.ascii_dec c d) as [->|Hne].
      * rewrite IH. split; intros (post & H); exists post; congruence.
      * split; [discriminate|]. intros (post & H). congruence.
Qed.

(** [str_includes] is the substring test. *)
Lemma str_includes_spec needle haystack :
  str_includes needle haystack = true <->
  exists pre post, haystack = (pre ++ needle ++ post)%string.
Proof.
  induction haystack as [|d haystack IH]; cbn [str_includes].
  - rewrite orb_false_r, prefix_app. split.
    + intros (post & H). exists EmptyString, post. exact H.
    + intros (pre & post & H). destruct pre; [exists post; exact H | discriminate].
  - rewrite orb_true_iff, prefix_app, IH. split.
    + intros [(post & H)|(pre & post & H)].
      * exists EmptyString, post. exact H.
      * exists (String d pre), post. cbn. congruence.
    + intros (pre & post & H). destruct pre as [|c pre]; cbn in H.
      * left. exists post. exact H.
      * right. exists pre, post. congruence.
Qed.

(** What [generateWithRetry] treats as a quota failure: status 429, or a
    message containing "429", "quota" or "exhausted". *)
Lemma isQuotaError_spec error :
  isQuotaError error = true <->
  status error = Some 429
  \/ exists m, message error = Some m
               /\ (str_includes "429" m = true \/ str_includes "quota" m = true
                   \/ str_includes "exhausted" m = true).
Proof.
  unfold isQuotaError, messageIncludes.
  rewrite !orb_true_iff. split.
  - intros [[[H|H]|H]|H].
    + left. destruct (status error) as [[|[p|p|]|]|]; try discriminate.
      revert H. repeat (destruct p as [p|p|]; try discriminate). reflexivity.
    + right. destruct (message error) as [m|]; [|discriminate]. eauto.
    + right. destruct (message error) as [m|]; [|discriminate]. eauto.
    + right. destruct (message error) as [m|]; [|discriminate]. eauto 6.
  - intros [H|(m & Hm & [H|[H|H]])]; rewrite ?H, ?Hm; auto.
Qed.

(** The editor's classification is the narrower one. *)
Lemma isQuota_isQuotaError err : isQuota err = true -> isQuotaError err = true.
Proof.
  unfold isQuota, isQuotaError. rewrite !orb_true_iff. intuition auto.
Qed.

(** ** Rounding in binary64

    What the retry loop needs of the arithmetic: the product and the sum of
    two positive numbers are rounded to nearest, as [SpecFloat] defines it.
    A value [m * 2^e] is measured in [units], so that the order of values is
    an order of integers. *)

Lemma digits2_pos_bounds m :
  2 ^ (Z.pos (digits2_pos m) - 1) <= Z.pos m < 2 ^ Z.pos (digits2_pos m).
Proof.
  induction m as [m IH|m IH|]; cbn [digits2_pos].
  - rewrite Pos2Z.inj_succ. change (Z.pos m~1) with (2 * Z.pos m + 1).
    replace (Z.succ (Z.pos (digits2_pos m)) - 1) with (Z.succ (Z.pos (digits2_pos m) - 1)) by lia.
    rewrite !Z.pow_succ_r by lia.
    revert IH. generalize (2 ^ (Z.pos (digits2_pos m) - 1)) (2 ^ Z.pos (digits2_pos m)). lia.
  - rewrite Pos2Z.inj_succ. change (Z.pos m~0) with (2 * Z.pos m).
    replace (Z.succ (Z.pos (digits2_pos m)) - 1) with (Z.succ (Z.pos (digits2_pos m) - 1)) by lia.
    rewrite !Z.pow_succ_r by lia.
    revert IH. generalize (2 ^ (Z.pos (digits2_pos m) - 1)) (2 ^ Z.pos (digits2_pos m)). lia.
  - cbn. lia.
Qed.

Lemma shr_1_spec m r s :
  0 <= m -> shr_1 {| shr_m := m; shr_r := r; shr_s := s |}
            = {| shr_m := Z.shiftr m 1; shr_r := Z.testbit m 0; shr_s := r || s |}.
Proof.
  intros Hm. destruct m as [|[p|p|]|p]; try reflexivity. lia.
Qed.

Lemma iter_shr_1 p mrs :
  0 <= shr_m mrs ->
  shr_m (SpecFloat.iter_pos shr_1 p mrs) = Z.shiftr (shr_m mrs) (Z.pos p)
  /\ shr_r (SpecFloat.iter_pos shr_1 p mrs) = Z.testbit (shr_m mrs) (Z.pos p - 1).
Proof.
  revert mrs. induction p as [p IH|p IH|]; intros [m r s] Hm; cbn [SpecFloat.iter_pos shr_m] in *.
  - rewrite shr_1_spec by exact Hm.
    set (x1 := {| shr_m := Z.shiftr m 1; shr_r := _; shr_s := _ |}).
    assert (0 <= shr_m x1) as H1 by (apply Z.shiftr_nonneg; exact Hm).
    destruct (IH x1 H1) as [Ha Hb].
    assert (0 <= shr_m (SpecFloat.iter_pos shr_1 p x1)) as H2
      by (rewrite Ha; apply Z.shiftr_nonneg; exact H1).
    destruct (IH _ H2) as [Hc Hd].
    rewrite Hc, Hd, Ha. subst x1. cbn [shr_m].
    rewrite !Z.shiftr_shiftr by lia. rewrite !Z.shiftr_spec by lia.
    split; f_equal; lia.
  - assert (0 <= shr_m {| shr_m := m; shr_r := r; shr_s := s |}) as H1 by exact Hm.
    destruct (IH _ H1) as [Ha Hb].
    assert (0 <= shr_m (SpecFloat.iter_pos shr_1 p {| shr_m := m; shr_r := r; shr_s := s |})) as H2
      by (rewrite Ha; apply Z.shiftr_nonneg; exact H1).
    destruct (IH _ H2) as [Hc Hd].
    rewrite Hc, Hd, Ha. cbn [shr_m].
    rewrite !Z.shiftr_shiftr by lia. rewrite !Z.shiftr_spec by lia.
    split; f_equal; lia.
  - rewrite shr_1_spec by exact Hm. cbn [shr_m shr_r]. split; reflexivity.
Qed.

Lemma shr_m_of_loc m l : shr_m (shr_record_of_loc m l) = m.
Proof. destruct l as [|[ | | ]]; reflexivity. Qed.

(** [shr_fexp] shifts right by the number of bits the format cannot hold. *)
Lemma shr_fexp_spec m e l :
  0 <= m ->
  let s := Z.max 0 (fexp prec emax (Zdigits2 m + e) - e) in
  exists mrs,
    shr_fexp prec emax m e l = (mrs, e + s)
    /\ shr_m mrs = Z.shiftr m s
    /\ (0 < s -> shr_r mrs = Z.testbit m (s - 1))
    /\ (s = 0 -> mrs = shr_record_of_loc m l).
Proof.
  intros Hm s. unfold shr_fexp, shr. subst s.
  destruct (fexp prec emax (Zdigits2 m + e) - e) as [|p|p] eqn:E.
  - exists (shr_record_of_loc m l). rewrite Z.add_0_r, shr_m_of_loc.
    split; [reflexivity|]. split; [reflexivity|]. split; [lia | reflexivity].
  - exists (SpecFloat.iter_pos shr_1 p (shr_record_of_loc m l)).
    replace (Z.max 0 (Z.pos p)) with (Z.pos p) by lia.
    destruct (iter_shr_1 p (shr_record_of_loc m l)) as [Ha Hb].
    { rewrite shr_m_of_loc. exact Hm. }
    rewrite shr_m_of_loc in Ha, Hb.
    split; [reflexivity|]. split; [exact Ha|]. split; [intros _; exact Hb | lia].
  - exists (shr_record_of_loc m l).
    replace (Z.max 0 (Z.neg p)) with 0 by lia. rewrite Z.add_0_r, shr_m_of_loc.
    split; [reflexivity|]. split; [reflexivity|]. split; [lia | reflexivity].
Qed.

Lemma round_nearest_even_bounds mrs :
  let m1 := round_nearest_even (shr_m mrs) (loc_of_shr_record mrs) in
  shr_m mrs <= m1 <= shr_m mrs + (if shr_r mrs then 1 else 0).
Proof.
  destruct mrs as [m [|] [|]]; cbn; try destruct (Z.even m); lia.
Qed.

Lemma shiftr_bounds m s :
  0 <= s -> Z.shiftr m s * 2 ^ s <= m < (Z.shiftr m s + 1) * 2 ^ s.
Proof.
  intros Hs. rewrite Z.shiftr_div_pow2 by exact Hs.
  assert (0 < 2 ^ s) as Hp by (apply Z.pow_pos_nonneg; lia).
  pose proof (Z.div_mod m (2 ^ s)) as Hd.
  pose proof (Z.mod_pos_bound m (2 ^ s) Hp). lia.
Qed.

Lemma testbit_half m s :
  0 < s -> Z.testbit m (s - 1) = true ->
  Z.shiftr m s * 2 ^ s + 2 ^ (s - 1) <= m.
Proof.
  intros Hs Hb.
  apply Z.testbit_true in Hb; [|lia].
  assert (2 ^ s = 2 ^ (s - 1) * 2) as Hpow.
  { replace s with (Z.succ (s - 1)) at 1 by lia. rewrite Z.pow_succ_r; lia. }
  rewrite Z.shiftr_div_pow2 by lia. rewrite Hpow.
  set (a := 2 ^ (s - 1)) in *.
  assert (0 < a) as Hp by (apply Z.pow_pos_nonneg; lia).
  rewrite <- Z.div_div by lia.
  pose proof (Z.div_mod m a) as H1.
  pose proof (Z.mod_pos_bound m a Hp) as H2.
  pose proof (Z.div_mod (m / a) 2) as H3.
  rewrite Hb in H3.
  set (q1 := m / a) in *. set (q2 := q1 / 2) in *.
  assert (q1 = 2 * q2 + 1) as Hq by lia.
  assert (m = a * q1 + m mod a) as Hm by lia.
  rewrite Hq in Hm. nia.
Qed.

Lemma fexp_eq x : fexp prec emax x = Z.max (x - 53) (-1074).
Proof. reflexivity. Qed.

(** The result of rounding [M * 2^E], [M] positive: the mantissa is shifted
    to the exponent of the format and rounded to [m1], and [m1] is shifted
    once more if the rounding made it too long. *)
Lemma binary_round_aux_spec M E :
  0 < M ->
  let s := Z.max 0 (fexp prec emax (Zdigits2 M + E) - E) in
  exists m1,
    Z.shiftr M s <= m1
    /\ 2 * m1 * 2 ^ s <= 2 * M + (if s =? 0 then 0 else 2 ^ s)
    /\ let e1 := E + s in
       let t := Z.max 0 (fexp prec emax (Zdigits2 m1 + e1) - e1) in
       binary_round_aux prec emax false M E loc_Exact
       = match Z.shiftr m1 t with
         | 0 => S754_zero false
         | Z.pos m => if e1 + t <=? emax - prec then S754_finite false m (e1 + t)
                      else S754_infinity false
         | Z.neg _ => S754_nan
         end.
Proof.
  intros HM s.
  destruct (shr_fexp_spec M E loc_Exact) as (mrs & Hshr & Hm & Hr & Hs0); [lia|].
  fold s in Hshr, Hm, Hr, Hs0.
  set (m1 := round_nearest_even (shr_m mrs) (loc_of_shr_record mrs)).
  pose proof (round_nearest_even_bounds mrs) as Hb. cbv zeta in Hb. fold m1 in Hb.
  assert (0 <= s) as Hs by (subst s; lia).
  pose proof (shiftr_bounds M s Hs) as Hq.
  assert (0 < 2 ^ s) as Hp by (apply Z.pow_pos_nonneg; lia).
  exists m1. split; [rewrite <- Hm; lia|]. split.
  { destruct (Z.eqb_spec s 0) as [H0|H0].
    - subst m1. rewrite (Hs0 H0), H0. cbn. lia.
    - assert (0 < s) as Hpos by lia.
      specialize (Hr Hpos).
      destruct (shr_r mrs) eqn:R.
      + pose proof (testbit_half M s Hpos (eq_sym Hr)) as Hh.
        assert (2 ^ s = 2 * 2 ^ (s - 1)) as Hpow.
        { replace s with (Z.succ (s - 1)) at 1 by lia. rewrite Z.pow_succ_r; lia. }
        rewrite Hm in Hb. nia.
      + rewrite Hm in Hb. nia. }
  intros e1 t.
  assert (0 <= m1) as Hm1.
  { rewrite Hm in Hb. pose proof (Z.shiftr_nonneg M s). lia. }
  destruct (shr_fexp_spec m1 e1 loc_Exact Hm1) as (mrs2 & Hshr2 & Hm2 & _).
  fold t in Hshr2, Hm2.
  unfold binary_round_aux. rewrite Hshr. fold m1. fold e1. rewrite Hshr2, Hm2.
  reflexivity.
Qed.

Lemma canonical_facts m e :
  canonical_mantissa prec emax m e = true ->
  -1074 <= e /\ Z.pos (digits2_pos m) <= 53
  /\ (-1074 < e -> Z.pos (digits2_pos m) = 53).
Proof.
  unfold canonical_mantissa. rewrite fexp_eq. intros H. apply Z.eqb_eq in H. lia.
Qed.

Lemma pow2_pos n : 0 <= n -> 0 < 2 ^ n.
Proof. intros H. apply Z.pow_pos_nonneg; lia. Qed.

Lemma pow2_le a b : 0 <= a <= b -> 2 ^ a <= 2 ^ b.
Proof. intros H. apply Z.pow_le_mono_r; lia. Qed.

Lemma units_shift m e s :
  -1200 <= e -> 0 <= s -> units m (e + s) = m * 2 ^ s * 2 ^ (e + 1200).
Proof.
  intros He Hs. unfold units.
  replace (e + s + 1200) with (s + (e + 1200)) by lia.
  rewrite Z.pow_add_r by lia. ring.
Qed.

(** A canonical number is below [2^(digits + exponent)], and a number whose
    digits and exponent add up to more is above it. *)
Lemma canonical_below mt et :
  canonical_mantissa prec emax mt et = true ->
  units (Z.pos mt) et < 2 ^ (Z.pos (digits2_pos mt) + et + 1200).
Proof.
  intros Hc. destruct (canonical_facts _ _ Hc) as (He & Hd & _).
  pose proof (digits2_pos_bounds mt) as [_ Hb]. unfold units.
  replace (Z.pos (digits2_pos mt) + et + 1200)
    with (Z.pos (digits2_pos mt) + (et + 1200)) by lia.
  rewrite (Z.pow_add_r 2 (Z.pos (digits2_pos mt)) (et + 1200)) by lia.
  pose proof (pow2_pos (et + 1200)). nia.
Qed.

Lemma floor_ge m e mt et :
  0 < m -> -1200 <= e -> canonical_mantissa prec emax mt et = true ->
  units (Z.pos mt) et <= units m e ->
  let s := Z.max 0 (fexp prec emax (Zdigits2 m + e) - e) in
  units (Z.pos mt) et <= units (Z.shiftr m s) (e + s).
Proof.
  intros Hm He Hc Hle s.
  assert (0 <= s) as Hs by (subst s; lia).
  destruct (Z.eq_dec s 0) as [H0|H0].
  { rewrite H0, Z.shiftr_0_r, Z.add_0_r. exact Hle. }
  destruct m as [|p|p]; try lia.
  assert (s = Z.max 0 (Z.max (Z.pos (digits2_pos p) + e - 53) (-1074) - e)) as Hsdef
    by reflexivity.
  clearbody s.
  destruct (canonical_facts _ _ Hc) as (Het & Hdt & _).
  pose proof (pow2_pos (e + 1200) ltac:(lia)) as HP0.
  pose proof (pow2_pos s Hs) as HPs.
  rewrite units_shift by lia.
  destruct (Z_le_gt_dec (e + s) et) as [Hgrid|Hgrid].
  - (* the target is on the grid of the result *)
    assert (units (Z.pos mt) et
            = Z.pos mt * 2 ^ (et - (e + s)) * 2 ^ s * 2 ^ (e + 1200)) as HT.
    { unfold units. rewrite <- !Z.mul_assoc, <- !Z.pow_add_r by lia.
      f_equal. f_equal. lia. }
    rewrite HT in Hle |- *. unfold units in Hle.
    assert (Z.pos mt * 2 ^ (et - (e + s)) <= Z.shiftr (Z.pos p) s) as Hq.
    { rewrite Z.shiftr_div_pow2 by lia.
      apply Z.div_le_lower_bound; [exact HPs|]. nia. }
    nia.
  - (* the target is below the first number of the result's binade *)
    assert (e + s = Z.pos (digits2_pos p) + e - 53) as Hs' by lia.
    pose proof (canonical_below _ _ Hc) as HT.
    pose proof (digits2_pos_bounds p) as [Hlo _].
    assert (2 ^ 52 <= Z.shiftr (Z.pos p) s) as Hq.
    { rewrite Z.shiftr_div_pow2 by lia.
      apply Z.div_le_lower_bound; [exact HPs|].
      rewrite <- Z.pow_add_r by lia.
      replace (s + 52) with (Z.pos (digits2_pos p) - 1) by lia. exact Hlo. }
    assert (2 ^ (Z.pos (digits2_pos mt) + et + 1200)
            <= 2 ^ 52 * 2 ^ s * 2 ^ (e + 1200)) as Hpow.
    { rewrite <- !Z.pow_add_r by lia. apply pow2_le. lia. }
    nia.
Qed.

Lemma nearest_le M E m1 mt et :
  0 < M -> -1200 <= E -> canonical_mantissa prec emax mt et = true ->
  let s := Z.max 0 (fexp prec emax (Zdigits2 M + E) - E) in
  2 * m1 * 2 ^ s <= 2 * M + (if s =? 0 then 0 else 2 ^ s) ->
  (units M E <= units (Z.pos mt) et -> units m1 (E + s) <= units (Z.pos mt) et)
  /\ (2 * units M E + 2 ^ (et + 1200) < 2 * units (Z.pos mt) et ->
      units m1 (E + s) < units (Z.pos mt) et).
Proof.
  intros HM HE Hc s Hm1.
  assert (0 <= s) as Hs by (subst s; lia).
  destruct (canonical_facts _ _ Hc) as (Het & Hdt & _).
  pose proof (pow2_pos (E + 1200) ltac:(lia)) as HP0.
  pose proof (pow2_pos (et + 1200) ltac:(lia)) as HPt.
  pose proof (pow2_pos s Hs) as HPs.
  rewrite units_shift by lia.
  destruct (Z.eqb_spec s 0) as [H0|H0].
  { rewrite H0 in *. change (2 ^ 0) with 1 in *. unfold units. split; intros H; nia. }
  destruct M as [|p|p]; try lia.
  assert (s = Z.max 0 (Z.max (Z.pos (digits2_pos p) + E - 53) (-1074) - E)) as Hsdef
    by reflexivity.
  clearbody s.
  destruct (Z_le_gt_dec (E + s) et) as [Hgrid|Hgrid].
  - assert (units (Z.pos mt) et
            = Z.pos mt * 2 ^ (et - (E + s)) * (2 ^ s * 2 ^ (E + 1200))) as HT.
    { unfold units. rewrite <- !Z.mul_assoc, <- !Z.pow_add_r by lia.
      f_equal. f_equal. lia. }
    assert (2 ^ s * 2 ^ (E + 1200) <= 2 ^ (et + 1200)) as Hulp.
    { rewrite <- Z.pow_add_r by lia. apply pow2_le. lia. }
    rewrite HT. unfold units.
    set (Tg := Z.pos mt * 2 ^ (et - (E + s))) in *.
    set (P0 := 2 ^ (E + 1200)) in *. set (Ps := 2 ^ s) in *.
    split; intros H.
    + assert (m1 <= Tg) by nia. nia.
    + assert (m1 < Tg) by nia. nia.
  - assert (E + s = Z.pos (digits2_pos p) + E - 53) as Hs' by lia.
    pose proof (canonical_below _ _ Hc) as HT.
    pose proof (digits2_pos_bounds p) as [Hlo _].
    assert (2 ^ (Z.pos (digits2_pos mt) + et + 1200)
            <= 2 ^ (Z.pos (digits2_pos p) - 1) * 2 ^ (E + 1200)) as Hpow.
    { rewrite <- !Z.pow_add_r by lia. apply pow2_le. lia. }
    change (units (Z.pos p) E) with (Z.pos p * 2 ^ (E + 1200)).
    split; intros H; exfalso; nia.
Qed.

(** Rounding to nearest is monotone with respect to the numbers of the
    format, and a number more than half a unit in the last place below a
    number of the format is rounded below it. *)
Lemma round_aux_bounds M E :
  0 < M -> -1200 <= E ->
  exists m2 e2,
    0 <= m2 /\ -1200 <= e2
    /\ binary_round_aux prec emax false M E loc_Exact
       = match m2 with
         | 0 => S754_zero false
         | Z.pos m => if e2 <=? emax - prec then S754_finite false m e2
                      else S754_infinity false
         | Z.neg _ => S754_nan
         end
    /\ (forall mt et, canonical_mantissa prec emax mt et = true ->
          units (Z.pos mt) et <= units M E -> units (Z.pos mt) et <= units m2 e2)
    /\ (forall mt et, canonical_mantissa prec emax mt et = true ->
          units M E <= units (Z.pos mt) et -> units m2 e2 <= units (Z.pos mt) et)
    /\ (forall mt et, canonical_mantissa prec emax mt et = true ->
          2 * units M E + 2 ^ (et + 1200) < 2 * units (Z.pos mt) et ->
          units m2 e2 < units (Z.pos mt) et).
Proof.
  intros HM HE.
  destruct (binary_round_aux_spec M E HM) as (m1 & Hq & Hnear & Hres).
  cbv zeta in Hres.
  set (s := Z.max 0 (fexp prec emax (Zdigits2 M + E) - E)) in *.
  set (e1 := E + s) in *.
  set (t := Z.max 0 (fexp prec emax (Zdigits2 m1 + e1) - e1)) in *.
  assert (0 <= s) as Hs by (subst s; lia).
  assert (0 <= t) as Ht by (subst t; lia).
  assert (0 <= m1) as Hm1 by (pose proof (Z.shiftr_nonneg M s); lia).
  pose proof (shiftr_bounds m1 t Ht) as Hfl.
  pose proof (pow2_pos (e1 + 1200) ltac:(lia)) as HP1.
  pose proof (pow2_pos t Ht) as HPt.
  assert (units (Z.shiftr m1 t) (e1 + t) <= units m1 e1) as Hdown.
  { rewrite units_shift by lia. unfold units. nia. }
  exists (Z.shiftr m1 t), (e1 + t).
  split; [apply Z.shiftr_nonneg; exact Hm1|]. split; [lia|].
  split; [exact Hres|]. split; [|split].
  - intros mt et Hc Hle.
    pose proof (floor_ge M E mt et HM HE Hc Hle) as H1. cbv zeta in H1.
    fold s in H1. fold e1 in H1.
    assert (units (Z.shiftr M s) e1 <= units m1 e1) as H2 by (unfold units; nia).
    assert (0 < units (Z.pos mt) et) as HT.
    { destruct (canonical_facts _ _ Hc) as (Het & _).
      pose proof (pow2_pos (et + 1200) ltac:(lia)). unfold units. nia. }
    assert (0 < m1) as Hm1' by (unfold units in *; nia).
    apply (floor_ge m1 e1 mt et Hm1'); [lia | exact Hc | lia].
  - intros mt et Hc Hle.
    destruct (nearest_le M E m1 mt et HM HE Hc Hnear) as [H1 _].
    specialize (H1 Hle). fold s in H1. fold e1 in H1. lia.
  - intros mt et Hc Hlt.
    destruct (nearest_le M E m1 mt et HM HE Hc Hnear) as [_ H1].
    specialize (H1 Hlt). fold s in H1. fold e1 in H1. lia.
Qed.

(** The order of two positive numbers of the format is that of their
    values. *)
Lemma SFcompare_units m1 e1 m2 e2 :
  canonical_mantissa prec emax m1 e1 = true ->
  canonical_mantissa prec emax m2 e2 = true ->
  SFcompare (S754_finite false m1 e1) (S754_finite false m2 e2)
  = Some (Z.compare (units (Z.pos m1) e1) (units (Z.pos m2) e2)).
Proof.
  intros H1 H2.
  destruct (canonical_facts _ _ H1) as (He1 & Hd1 & Hn1).
  destruct (canonical_facts _ _ H2) as (He2 & Hd2 & Hn2).
  pose proof (digits2_pos_bounds m1) as [Hlo1 Hhi1].
  pose proof (digits2_pos_bounds m2) as [Hlo2 Hhi2].
  pose proof (pow2_pos (e1 + 1200) ltac:(lia)) as HP1.
  pose proof (pow2_pos (e2 + 1200) ltac:(lia)) as HP2.
  assert (forall m, Z.pos (digits2_pos m) <= 53 -> 2 ^ Z.pos (digits2_pos m) <= 2 ^ 53)
    as Hcap by (intros m Hm; apply pow2_le; lia).
  unfold SFcompare, units. f_equal.
  destruct (Z.compare_spec e1 e2) as [Heq|Hlt|Hgt].
  - subst e2. change (Pos.compare_cont Eq m1 m2) with (Z.pos m1 ?= Z.pos m2).
    destruct (Z.compare_spec (Z.pos m1) (Z.pos m2)) as [H|H|H]; symmetry.
    + apply Z.compare_eq_iff. rewrite H. reflexivity.
    + apply Z.compare_lt_iff. nia.
    + apply Z.compare_gt_iff. nia.
  - symmetry. apply Z.compare_lt_iff.
    rewrite (Hn2 ltac:(lia)) in Hlo2. specialize (Hcap m1 Hd1).
    assert (2 * 2 ^ (e1 + 1200) <= 2 ^ (e2 + 1200)) as Hp.
    { rewrite <- Z.pow_succ_r by lia. apply pow2_le. lia. }
    change (2 ^ (53 - 1)) with (2 ^ 52) in Hlo2.
    assert (2 ^ 53 = 2 * 2 ^ 52) as H53 by reflexivity. nia.
  - symmetry. apply Z.compare_gt_iff.
    rewrite (Hn1 ltac:(lia)) in Hlo1. specialize (Hcap m2 Hd2).
    assert (2 * 2 ^ (e2 + 1200) <= 2 ^ (e1 + 1200)) as Hp.
    { rewrite <- Z.pow_succ_r by lia. apply pow2_le. lia. }
    change (2 ^ (53 - 1)) with (2 ^ 52) in Hlo1.
    assert (2 ^ 53 = 2 * 2 ^ 52) as H53 by reflexivity. nia.
Qed.

Lemma iter_xO m d : Z.pos (Pos.iter xO m d) = Z.pos m * 2 ^ Z.pos d.
Proof.
  induction d as [|d IH] using Pos.peano_ind.
  - cbn [Pos.iter]. change (Z.pos m~0) with (2 * Z.pos m). change (2 ^ 1) with 2. lia.
  - rewrite Pos.iter_succ, Pos2Z.inj_succ, Z.pow_succ_r by lia.
    change (Z.pos (Pos.iter xO m d)~0) with (2 * Z.pos (Pos.iter xO m d)).
    rewrite IH. ring.
Qed.

Lemma shl_align_spec mx ex ex' :
  -1200 <= ex -> -1200 <= ex' ->
  snd (shl_align mx ex ex') = Z.min ex ex'
  /\ units (Z.pos (fst (shl_align mx ex ex'))) (snd (shl_align mx ex ex'))
     = units (Z.pos mx) ex.
Proof.
  intros H1 H2. unfold shl_align.
  destruct (ex' - ex) as [|d|d] eqn:E; cbn [fst snd].
  - split; [lia | reflexivity].
  - split; [lia | reflexivity].
  - split; [lia|]. rewrite iter_xO. unfold units.
    rewrite <- Z.mul_assoc, <- Z.pow_add_r by lia. f_equal. f_equal. lia.
Qed.

Lemma valid_finite s m e :
  SpecFloat.valid_binary prec emax (S754_finite s m e) = true ->
  canonical_mantissa prec emax m e = true /\ e <= 971.
Proof.
  cbn [SpecFloat.valid_binary]. unfold bounded. intros H.
  apply andb_true_iff in H as [Hc He]. apply Z.leb_le in He.
  split; [exact Hc | exact He].
Qed.

(** [Math.random() * 1000] lies in [0, 1000) for every number
    [Math.random()] can return. *)
Lemma jitter_range (r : float) :
  (0 <=? r)%float = true -> (r <? 1)%float = true ->
  (0 <=? r * 1000)%float = true /\ (r * 1000 <? 1000)%float = true.
Proof.
  rewrite !FloatAxioms.leb_spec, !FloatAxioms.ltb_spec.
  pose proof (FloatAxioms.Prim2SF_valid (r * 1000)) as Hvalid.
  rewrite FloatAxioms.mul_spec in *.
  pose proof (FloatAxioms.Prim2SF_valid r) as Hr.
  change (Prim2SF 0) with (S754_zero false).
  change (Prim2SF 1) with (S754_finite false 4503599627370496 (-52)).
  change (Prim2SF 1000) with (S754_finite false 8796093022208000 (-43)) in *.
  destruct (Prim2SF r) as [s|s| |s m e]; try discriminate.
  - intros _ _. split; reflexivity.
  - destruct s; discriminate.
  - destruct s; [discriminate|]. intros _ Hlt.
    apply valid_finite in Hr as [Hc He].
    assert (canonical_mantissa prec emax 4503599627370496 (-52) = true) as Hc1
      by reflexivity.
    assert (canonical_mantissa prec emax 8796093022208000 (-43) = true) as Hc1000
      by reflexivity.
    unfold SFltb in Hlt. rewrite (SFcompare_units _ _ _ _ Hc Hc1) in Hlt.
    destruct (Z.compare_spec (units (Z.pos m) e) (units 4503599627370496 (-52)))
      as [|Hlt'|]; try discriminate. clear Hlt.
    destruct (canonical_facts _ _ Hc) as (Hemin & Hd & Hn).
    pose proof (digits2_pos_bounds m) as [Hlo Hhi].
    (* the largest number below 1 is 1 - 2^-53 *)
    assert (units (Z.pos m) e <= 2 ^ 1200 - 2 ^ 1147) as Hpred.
    { unfold units in *.
      change (4503599627370496 * 2 ^ (-52 + 1200)) with (2 ^ 1200) in Hlt'.
      destruct (Z_lt_le_dec e (-53)) as [Hsmall|Hbig].
      - assert (2 ^ Z.pos (digits2_pos m) * 2 ^ (e + 1200) <= 2 ^ 1199).
        { rewrite <- Z.pow_add_r by lia. apply pow2_le. lia. }
        pose proof (pow2_pos (e + 1200) ltac:(lia)).
        assert (2 ^ 1199 <= 2 ^ 1200 - 2 ^ 1147) by (vm_compute; discriminate).
        nia.
      - rewrite (Hn ltac:(lia)) in Hlo.
        destruct (Z.eq_dec e (-53)) as [->|Hne].
        + change (-53 + 1200) with 1147 in *.
          change (2 ^ 1200) with (2 ^ 53 * 2 ^ 1147) in *.
          pose proof (pow2_pos 1147 ltac:(lia)). nia.
        + exfalso.
          assert (2 ^ 1200 <= 2 ^ (53 - 1) * 2 ^ (e + 1200)).
          { rewrite <- Z.pow_add_r by lia. apply pow2_le. lia. }
          pose proof (pow2_pos (e + 1200) ltac:(lia)). nia. }
    unfold SF64mul, SFmul in *. cbn [xorb] in *.
    destruct (round_aux_bounds (Z.pos (m * 8796093022208000)) (e + -43))
      as (m2 & e2 & Hm2 & He2 & Hres & _ & _ & Hupper); [lia | lia|].
    rewrite Hres in *.
    specialize (Hupper _ _ Hc1000).
    assert (units m2 e2 < units 8796093022208000 (-43)) as Hbelow.
    { apply Hupper.
      assert (units (Z.pos (m * 8796093022208000)) (e + -43)
              = 1000 * units (Z.pos m) e) as ->.
      { unfold units. rewrite Pos2Z.inj_mul.
        change (Z.pos 8796093022208000) with (1000 * 2 ^ 43).
        replace (e + 1200) with (43 + (e + -43 + 1200)) by lia.
        rewrite (Z.pow_add_r 2 43) by lia. ring. }
      change (units 8796093022208000 (-43)) with (1000 * 2 ^ 1200).
      change (2 ^ (-43 + 1200)) with (2 ^ 1157).
      assert (2 * (1000 * (2 ^ 1200 - 2 ^ 1147)) + 2 ^ 1157 < 2 * (1000 * 2 ^ 1200))
        by (vm_compute; reflexivity).
      lia. }
    destruct m2 as [|m2|m2]; try lia.
    + split; reflexivity.
    + assert (e2 <= 971) as He2'.
      { destruct (Z_le_gt_dec e2 971) as [H|H]; [exact H|]. exfalso.
        change (units 8796093022208000 (-43)) with (1000 * 2 ^ 1200) in Hbelow.
        unfold units in Hbelow.
        assert (2 ^ 1210 <= 2 ^ (e2 + 1200)) by (apply pow2_le; lia).
        assert (1000 * 2 ^ 1200 < 2 ^ 1210) by (vm_compute; reflexivity).
        nia. }
      replace (e2 <=? emax - prec) with true in *
        by (symmetry; apply Z.leb_le; exact He2').
      apply valid_finite in Hvalid as [Hc2 _].
      split; [reflexivity|].
      unfold SFltb. rewrite (SFcompare_units _ _ _ _ Hc2 Hc1000).
      apply Z.compare_lt_iff in Hbelow. rewrite Hbelow. reflexivity.
Qed.

Lemma nonneg_below (j : float) (c : float) mc ec :
  Prim2SF c = S754_finite false mc ec ->
  (0 <=? j)%float = true -> (j <? c)%float = true ->
  (exists s, Prim2SF j = S754_zero s)
  \/ exists m e, Prim2SF j = S754_finite false m e
                 /\ canonical_mantissa prec emax m e = true
                 /\ units (Z.pos m) e < units (Z.pos mc) ec.
Proof.
  intros Hc. rewrite FloatAxioms.leb_spec, FloatAxioms.ltb_spec.
  pose proof (FloatAxioms.Prim2SF_valid c) as Hvc. rewrite Hc in *.
  apply valid_finite in Hvc as [Hcc _].
  pose proof (FloatAxioms.Prim2SF_valid j) as Hj.
  change (Prim2SF 0) with (S754_zero false).
  destruct (Prim2SF j) as [s|s| |s m e]; try discriminate.
  - intros _ _. left. exists s. reflexivity.
  - destruct s; discriminate.
  - destruct s; [discriminate|]. intros _ Hlt. right.
    apply valid_finite in Hj as [Hcj _].
    unfold SFltb in Hlt. rewrite (SFcompare_units _ _ _ _ Hcj Hcc) in Hlt.
    destruct (Z.compare_spec (units (Z.pos m) e) (units (Z.pos mc) ec));
      try discriminate.
    exists m, e. split; [reflexivity|]. split; assumption.
Qed.

(** Adding a number of [0, 1000) to [b] gives a number between [b] and
    [b + 1000], the two included. *)
Lemma add_range (b h j : float) mB eB mH eH :
  Prim2SF b = S754_finite false mB eB ->
  Prim2SF h = S754_finite false mH eH ->
  eH <= 900 ->
  units (Z.pos mB) eB + 1000 * 2 ^ 1200 <= units (Z.pos mH) eH ->
  (0 <=? j)%float = true -> (j <? 1000)%float = true ->
  exists m e,
    Prim2SF (b + j) = S754_finite false m e /\ -1074 <= e
    /\ units (Z.pos mB) eB <= units (Z.pos m) e <= units (Z.pos mH) eH
    /\ (b <=? b + j)%float = true /\ (b + j <=? h)%float = true.
Proof.
  intros Hb Hh HeH Hsum H0 H1.
  pose proof (FloatAxioms.Prim2SF_valid b) as Hvb. rewrite Hb in Hvb.
  apply valid_finite in Hvb as [HcB _].
  pose proof (FloatAxioms.Prim2SF_valid h) as Hvh. rewrite Hh in Hvh.
  apply valid_finite in Hvh as [HcH _].
  pose proof (FloatAxioms.Prim2SF_valid (b + j)) as Hv.
  rewrite FloatAxioms.add_spec in Hv.
  rewrite !FloatAxioms.leb_spec, FloatAxioms.add_spec.
  rewrite Hb in Hv |- *. rewrite Hh.
  destruct (canonical_facts _ _ HcB) as (HeB & _).
  destruct (canonical_facts _ _ HcH) as (HeH' & HdH & _).
  pose proof (pow2_pos (eB + 1200) ltac:(lia)) as HPB.
  assert (0 < units (Z.pos mB) eB) as HBpos by (unfold units; nia).
  assert (forall m e,
            SpecFloat.valid_binary prec emax (S754_finite false m e) = true ->
            units (Z.pos mB) eB <= units (Z.pos m) e <= units (Z.pos mH) eH ->
            SFleb (S754_finite false mB eB) (S754_finite false m e) = true
            /\ SFleb (S754_finite false m e) (S754_finite false mH eH) = true)
    as Hcmp.
  { intros m e Hval [Hlo Hhi]. apply valid_finite in Hval as [Hc _].
    unfold SFleb.
    rewrite (SFcompare_units _ _ _ _ HcB Hc), (SFcompare_units _ _ _ _ Hc HcH).
    split.
    - destruct (Z.compare_spec (units (Z.pos mB) eB) (units (Z.pos m) e));
        try reflexivity; lia.
    - destruct (Z.compare_spec (units (Z.pos m) e) (units (Z.pos mH) eH));
        try reflexivity; lia. }
  destruct (nonneg_below j 1000 8796093022208000 (-43) eq_refl H0 H1)
    as [(s & Hj)|(mj & ej & Hj & Hcj & Hlt)]; rewrite Hj in *.
  - exists mB, eB. cbn [SF64add SFadd] in *. split; [reflexivity|].
    split; [exact HeB|].
    assert (units (Z.pos mB) eB <= units (Z.pos mB) eB <= units (Z.pos mH) eH) as Hr
      by lia.
    split; [exact Hr|]. apply Hcmp; [exact Hv | exact Hr].
  - change (units 8796093022208000 (-43)) with (1000 * 2 ^ 1200) in Hlt.
    destruct (canonical_facts _ _ Hcj) as (Hej & _).
    unfold SF64add, SFadd in *. cbv zeta in *. cbn [cond_Zopp] in *.
    set (ez := Z.min eB ej) in *.
    destruct (shl_align_spec mB eB ez) as [Ha1 Ha2]; [lia | lia|].
    destruct (shl_align_spec mj ej ez) as [Hc1 Hc2]; [lia | lia|].
    replace (Z.min eB ez) with ez in Ha1 by lia.
    replace (Z.min ej ez) with ez in Hc1 by lia.
    rewrite Ha1 in Ha2. rewrite Hc1 in Hc2.
    set (a := fst (shl_align mB eB ez)) in *.
    set (c := fst (shl_align mj ej ez)) in *.
    change (Z.pos a + Z.pos c) with (Z.pos (a + c)) in *.
    unfold binary_normalize, binary_round in *.
    set (ef := fexp prec emax (Z.pos (digits2_pos (a + c)) + ez)) in *.
    assert (-1074 <= ef) as Hef by (subst ef; rewrite fexp_eq; lia).
    destruct (shl_align_spec (a + c) ez ef) as [Hz1 Hz2]; [lia | lia|].
    destruct (shl_align (a + c) ez ef) as [mz ez2]. cbn [fst snd] in Hz1, Hz2.
    assert (units (Z.pos mz) ez2 = units (Z.pos mB) eB + units (Z.pos mj) ej) as Hx.
    { rewrite Hz2, <- Ha2, <- Hc2. unfold units. rewrite Pos2Z.inj_add. ring. }
    destruct (round_aux_bounds (Z.pos mz) ez2)
      as (m2 & e2 & Hm2 & He2 & Hres & Hlower & Hupper & _); [lia | lia|].
    rewrite Hres in *.
    assert (0 <= units (Z.pos mj) ej) as Hjpos.
    { pose proof (pow2_pos (ej + 1200) ltac:(lia)). unfold units. nia. }
    specialize (Hlower _ _ HcB ltac:(lia)).
    specialize (Hupper _ _ HcH ltac:(lia)).
    pose proof (pow2_pos (e2 + 1200) ltac:(lia)) as HP2.
    destruct m2 as [|m2|m2]; try (unfold units in Hlower; nia).
    assert (e2 <= 971) as He2'.
    { destruct (Z_le_gt_dec e2 971) as [H|H]; [exact H|]. exfalso.
      pose proof (canonical_below _ _ HcH) as HT.
      assert (2 ^ (Z.pos (digits2_pos mH) + eH + 1200) <= 2 ^ (e2 + 1200))
        by (apply pow2_le; lia).
      unfold units in Hupper, HT. nia. }
    replace (e2 <=? emax - prec) with true in *
      by (symmetry; apply Z.leb_le; exact He2').
    exists m2, e2. split; [reflexivity|].
    split; [pose proof (valid_finite _ _ _ Hv) as [Hcr _];
            apply (canonical_facts _ _ Hcr)|].
    split; [lia|].
    apply Hcmp; [exact Hv | lia].
Qed.

(** The value of a positive number, from its value in units of 2^-1200. *)
Lemma F2Q_units (x : float) m e :
  Prim2SF x = S754_finite false m e -> -1200 <= e ->
  (F2Q x == units (Z.pos m) e # 2 ^ 1200)%Q.
Proof.
  intros Hx He. unfold F2Q, units. rewrite Hx. cbv zeta.
  unfold Qeq. destruct (Z.leb_spec 0 e) as [Hpos|Hneg]; cbn [Qnum Qden inject_Z].
  - rewrite Pos2Z.inj_pow, Z.pow_add_r by lia. ring.
  - rewrite !Pos2Z.inj_pow, Z2Pos.id by lia.
    rewrite <- !Z.mul_assoc, <- Z.pow_add_r by lia.
    f_equal. f_equal. lia.
Qed.

Lemma F2Q_between (x : float) m e lo hi :
  Prim2SF x = S754_finite false m e -> -1200 <= e ->
  lo * 2 ^ 1200 <= units (Z.pos m) e <= hi * 2 ^ 1200 ->
  (inject_Z lo <= F2Q x <= inject_Z hi)%Q.
Proof.
  intros Hx He [Hlo Hhi]. rewrite (F2Q_units x m e Hx He).
  unfold Qle. cbn [Qnum Qden inject_Z]. rewrite Pos2Z.inj_pow.
  change (Z.pos 2 ^ Z.pos 1200) with (2 ^ 1200). lia.
Qed.

(** The delay that follows a base delay of 2000, 4000 or 8000 ms. *)
Lemma delay_range (B : Z) (j : float) :
  B = 2000 \/ B = 4000 \/ B = 8000 ->
  (0 <=? j)%float = true -> (j <? 1000)%float = true ->
  (Z2F B <=? Z2F B + j)%float = true
  /\ (Z2F B + j <=? Z2F (B + 1000))%float = true
  /\ (inject_Z B <= F2Q (Z2F B + j) <= inject_Z (B + 1000))%Q.
Proof.
  intros [-> | [-> | ->]] H0 H1.
  - edestruct (add_range (Z2F 2000) (Z2F (2000 + 1000)) j)
      as (m & e & Hm & He & Hu & Hlo & Hhi);
      [vm_compute; reflexivity | vm_compute; reflexivity | lia
       | apply Z.leb_le; vm_compute; reflexivity | exact H0 | exact H1 |].
    split; [exact Hlo|]. split; [exact Hhi|].
    apply (F2Q_between _ m e); [exact Hm | lia|].
    change (units 8796093022208000 (-42)) with (2000 * 2 ^ 1200) in Hu.
    change (units 6597069766656000 (-41)) with ((2000 + 1000) * 2 ^ 1200) in Hu.
    exact Hu.
  - edestruct (add_range (Z2F 4000) (Z2F (4000 + 1000)) j)
      as (m & e & Hm & He & Hu & Hlo & Hhi);
      [vm_compute; reflexivity | vm_compute; reflexivity | lia
       | apply Z.leb_le; vm_compute; reflexivity | exact H0 | exact H1 |].
    split; [exact Hlo|]. split; [exact Hhi|].
    apply (F2Q_between _ m e); [exact Hm | lia|].
    change (units 8796093022208000 (-41)) with (4000 * 2 ^ 1200) in Hu.
    change (units 5497558138880000 (-40)) with ((4000 + 1000) * 2 ^ 1200) in Hu.
    exact Hu.
  - edestruct (add_range (Z2F 8000) (Z2F (8000 + 1000)) j)
      as (m & e & Hm & He & Hu & Hlo & Hhi);
      [vm_compute; reflexivity | vm_compute; reflexivity | lia
       | apply Z.leb_le; vm_compute; reflexivity | exact H0 | exact H1 |].
    split; [exact Hlo|]. split; [exact Hhi|].
    apply (F2Q_between _ m e); [exact Hm | lia|].
    change (units 8796093022208000 (-40)) with (8000 * 2 ^ 1200) in Hu.
    change (units 4947802324992000 (-39)) with ((8000 + 1000) * 2 ^ 1200) in Hu.
    exact Hu.
Qed.

(** ** The retry loop of the remote call *)

(** The jitter of retry [k] lies in [0, 1000), and its delay, the binary64
    sum of [2000 * 2^k] and the jitter, between [2000 * 2^k] and
    [2000 * 2^k + 1000].  The sum rounds, and the upper bound is reached. *)
Lemma retryDelay_bounds (random : nat -> float) (k : nat) :
  (k < 3)%nat ->
  (0 <=? random k)%float = true -> (random k <? 1)%float = true ->
  (0 <=? jitter random k)%float = true
  /\ (jitter random k <? 1000)%float = true
  /\ (Z2F (2000 * 2 ^ Z.of_nat k) <=? retryDelay random k)%float = true
  /\ (retryDelay random k <=? Z2F (2000 * 2 ^ Z.of_nat k + 1000))%float = true
  /\ (inject_Z (2000 * 2 ^ Z.of_nat k) <= F2Q (retryDelay random k)
      <= inject_Z (2000 * 2 ^ Z.of_nat k + 1000))%Q.
Proof.
  intros Hk H0 H1. destruct (jitter_range (random k) H0 H1) as [Hj0 Hj1].
  fold (jitter random k) in Hj0, Hj1.
  split; [exact Hj0|]. split; [exact Hj1|].
  unfold retryDelay. apply delay_range; [|exact Hj0 | exact Hj1].
  destruct k as [|[|[|k]]]; [left | right; left | right; right | lia]; reflexivity.
Qed.

Lemma retryDelay_reaches_bound :
  let random := fun _ : nat => 0x1.fffffffffffffp-1%float in
  (random 0%nat <? 1)%float = true
  /\ (jitter random 0 <? 1000)%float = true
  /\ retryDelay random 0 = 3000%float
  /\ retryDelay random 1 = 5000%float
  /\ retryDelay random 2 = 9000%float.
Proof. vm_compute. repeat split. Qed.

(** What a call does, for any arguments and any environment: it retries some
    [n <= retries] times, each time after a quota failure, and settles as its
    last invocation does. *)
Lemma generateWithRetry_general {A : Type} (fn : nat -> Settled A)
    (random : nat -> float) (baseDelay : float) (retries : nat) :
  forall w,
  exists n : nat,
    (n <= retries)%nat
    /\ calls (snd (generateWithRetry fn random retries baseDelay w)) = S (calls w + n)
    /\ effects (snd (generateWithRetry fn random retries baseDelay w))
       = effects w ++ effectsFrom random baseDelay retries (draws w) n
    /\ (forall k, (k < n)%nat ->
          exists e, fn (calls w + k)%nat = Rejected e /\ isQuotaError e = true)
    /\ fst (generateWithRetry fn random retries baseDelay w) = fn (calls w + n)%nat
    /\ (forall e, fn (calls w + n)%nat = Rejected e ->
          isQuotaError e = false \/ n = retries).
Proof.
  induction retries as [|retries IH]; intros w.
  - exists 0%nat. cbn [generateWithRetry]. rewrite Nat.add_0_r.
    split; [lia|].
    destruct (fn (calls w)) as [a|e]; cbn [fst snd calls effects effectsFrom];
      (split; [reflexivity|]); (split; [reflexivity|]);
      (split; [intros k Hk; lia|]); (split; [reflexivity|]);
      intros e' _; right; reflexivity.
  - cbn [generateWithRetry].
    destruct (fn (calls w)) as [a|e] eqn:F; [|destruct (isQuotaError e) eqn:Q].
    + exists 0%nat. rewrite Nat.add_0_r, F.
      cbn [fst snd calls effects effectsFrom].
      split; [lia|]. split; [reflexivity|]. split; [reflexivity|].
      split; [intros k Hk; lia|]. split; [reflexivity|].
      intros e' He'. discriminate.
    + cbn [calls draws effects].
      set (w2 := {| calls := S (calls w); draws := S (draws w);
                    effects := (effects w ++ [Invoke])
                               ++ [Wait (backoffDelay baseDelay (S retries)
                                                      (random (draws w)))] |}).
      destruct (IH w2) as (n & Hn & Hcalls & Heff & Hquota & Hres & Hend).
      exists (S n). subst w2. cbn [calls draws effects] in *.
      split; [lia|].
      split; [rewrite Hcalls; f_equal; lia|].
      split.
      { rewrite Heff. cbn [effectsFrom Nat.pred].
        rewrite <- !app_assoc. reflexivity. }
      split.
      { intros [|k] Hk.
        - rewrite Nat.add_0_r. exists e. split; assumption.
        - replace (calls w + S k)%nat with (S (calls w) + k)%nat by lia.
          apply Hquota. lia. }
      replace (calls w + S n)%nat with (S (calls w) + n)%nat by lia.
      split; [exact Hres|].
      intros e' He'. destruct (Hend e' He') as [Hn'|Hn']; [left; exact Hn'|].
      right. f_equal. exact Hn'.
    + exists 0%nat. rewrite Nat.add_0_r, F.
      cbn [fst snd calls effects effectsFrom].
      split; [lia|]. split; [reflexivity|]. split; [reflexivity|].
      split; [intros k Hk; lia|]. split; [reflexivity|].
      intros e' He'. left. congruence.
Qed.

Lemma effectsFrom_default (random : nat -> float) (n : nat) :
  (n <= 3)%nat -> effectsFrom random 2000 3 0 n = retryEffects random n.
Proof.
  intros Hn. destruct n as [|[|[|[|n]]]]; try lia; reflexivity.
Qed.

(** C6.  With the default arguments (3 retries, base delay 2000 ms) the
    remote call is invoked at most 4 times, that is retried at most 3 times.
    Retry number k (k = 0, 1, 2) comes after a wait of 2000 * 2^k ms plus a
    jitter [Math.random() * 1000] that lies in [0, 1000), and only after a
    failure classified as a quota error.  The wait is the binary64 sum of the
    two, a number from 2000 * 2^k to 2000 * 2^k + 1000.  The result is that
    of the last invocation; a failure that is not a quota error ends the call
    at once with that failure. *)
Theorem generateWithRetry_backoff {A : Type} (fn : nat -> Settled A)
    (random : nat -> float) :
  (forall k, (0 <=? random k)%float = true /\ (random k <? 1)%float = true) ->
  let result := fst (generateWithRetry fn random 3 2000 world0) in
  let w := snd (generateWithRetry fn random 3 2000 world0) in
  exists retried : nat,
    (retried <= 3)%nat
    /\ calls w = S retried
    /\ effects w = retryEffects random retried
    /\ (forall k, (k < retried)%nat ->
          (exists error, fn k = Rejected error /\ isQuotaError error = true)
          /\ retryDelay random k
             = (Z2F (2000 * 2 ^ Z.of_nat k) + random k * 1000)%float
          /\ (0 <=? random k * 1000)%float = true
          /\ (random k * 1000 <? 1000)%float = true
          /\ (Z2F (2000 * 2 ^ Z.of_nat k) <=? retryDelay random k)%float = true
          /\ (retryDelay random k <=? Z2F (2000 * 2 ^ Z.of_nat k + 1000))%float
             = true)
    /\ result = fn retried
    /\ (forall j error,
          (j <= 3)%nat ->
          (forall k, (k < j)%nat ->
             exists e, fn k = Rejected e /\ isQuotaError e = true) ->
          fn j = Rejected error -> isQuotaError error = false ->
          result = Rejected error /\ calls w = S j /\ retried = j).
Proof.
  intros Hrand result w.
  destruct (generateWithRetry_general fn random 2000 3 world0)
    as (n & Hn & Hcalls & Heff & Hquota & Hres & Hend).
  fold w in Hcalls, Heff. fold result in Hres.
  cbn [world0 calls draws effects Nat.add app] in *.
  exists n.
  split; [exact Hn|]. split; [exact Hcalls|].
  split; [rewrite Heff; apply effectsFrom_default, Hn|].
  split.
  { intros k Hk. split; [apply Hquota, Hk|]. split; [reflexivity|].
    destruct (Hrand k) as [H0 H1].
    destruct (retryDelay_bounds random k ltac:(lia) H0 H1)
      as (Hj0 & Hj1 & Hlo & Hhi & _).
    split; [exact Hj0|]. split; [exact Hj1|]. split; [exact Hlo | exact Hhi]. }
  split; [exact Hres|].
  intros j error Hj Hjq Hfj Hnq.
  assert (n = j) as <-.
  { destruct (Nat.lt_trichotomy j n) as [Hlt|[Heq|Hgt]]; [|symmetry; exact Heq|].
    - destruct (Hquota j Hlt) as (e & He & Hqe). congruence.
    - destruct (Hjq n Hgt) as (e & He & Hqe).
      destruct (Hend e He) as [Hne|H3]; [congruence | lia]. }
  split; [congruence|]. split; [exact Hcalls | reflexivity].
Qed.

Lemma generateWithRetry_backoff_witness :
  let quotaError := {| status := Some 429; message := None |} in
  let fn := fun k : nat => if (k <? 2)%nat then Rejected quotaError else Fulfilled tt in
  let random := fun _ : nat => 0.5%float in
  (forall k, (0 <=? random k)%float = true /\ (random k <? 1)%float = true)
  /\ generateWithRetry fn random 3 2000 world0
     = (Fulfilled tt,
        {| calls := 3; draws := 2;
           effects := [Invoke; Wait 2500; Invoke; Wait 4500; Invoke] |})
  /\ exists retried : nat,
       (retried <= 3)%nat
       /\ calls (snd (generateWithRetry fn random 3 2000 world0)) = S retried
       /\ effects (snd (generateWithRetry fn random 3 2000 world0))
          = retryEffects random retried
       /\ (forall k, (k < retried)%nat ->
             (exists error, fn k = Rejected error /\ isQuotaError error = true)
             /\ retryDelay random k
                = (Z2F (2000 * 2 ^ Z.of_nat k) + random k * 1000)%float
             /\ (0 <=? random k * 1000)%float = true
             /\ (random k * 1000 <? 1000)%float = true
             /\ (Z2F (2000 * 2 ^ Z.of_nat k) <=? retryDelay random k)%float = true
             /\ (retryDelay random k <=? Z2F (2000 * 2 ^ Z.of_nat k + 1000))%float
                = true)
       /\ fst (generateWithRetry fn random 3 2000 world0) = fn retried
       /\ (forall j error,
             (j <= 3)%nat ->
             (forall k, (k < j)%nat ->
                exists e, fn k = Rejected e /\ isQuotaError e = true) ->
             fn j = Rejected error -> isQuotaError error = false ->
             fst (generateWithRetry fn random 3 2000 world0) = Rejected error
             /\ calls (snd (generateWithRetry fn random 3 2000 world0)) = S j
             /\ retried = j).
Proof.
  intros quotaError fn random.
  split; [intros k; split; reflexivity|].
  split; [vm_compute; reflexivity|].
  apply (generateWithRetry_backoff fn random).
  intros k. split; reflexivity.
Defined.

(** ** The run of a project *)

Lemma In_setWorker k w ws x :
  In x (setWorker k w ws) -> x = w \/ In x ws.
Proof.
  revert k. induction ws as [|y ws IH]; intros [|k] H; cbn in H;
    try contradiction.
  - destruct H as [<-|H]; [left; reflexivity | right; right; exact H].
  - destruct H as [<-|H]; [right; left; reflexivity|].
    destruct (IH k H) as [->|Hin]; [left; reflexivity | right; right; exact Hin].
Qed.

Lemma cleanStart_cons i e tr : cleanStart i tr -> cleanStart i (e :: tr).
Proof.
  intros (later & earlier & -> & Hclean).
  exists (e :: later), earlier. split; [reflexivity | exact Hclean].
Qed.

Lemma cleanStart_app i evs tr : cleanStart i tr -> cleanStart i (evs ++ tr).
Proof.
  intros H. induction evs as [|e evs IH]; [exact H|].
  cbn [app]. apply cleanStart_cons, IH.
Qed.

(** Where a [Started] event of [e :: tr] can be. *)
Lemma split_cons_started e tr later i earlier :
  e :: tr = later ++ Started i :: earlier ->
  (later = [] /\ e = Started i /\ earlier = tr)
  \/ (exists later0, later = e :: later0 /\ tr = later0 ++ Started i :: earlier).
Proof.
  destruct later as [|x later0]; cbn [app]; intros H; injection H as -> ->.
  - left. repeat split.
  - right. exists later0. split; reflexivity.
Qed.

Lemma lateStartsLocal_cons e tr :
  (forall i, e <> Started i) -> lateStartsLocal tr -> lateStartsLocal (e :: tr).
Proof.
  intros He Hl later i earlier j Hsplit Hflag.
  apply split_cons_started in Hsplit as [(_ & Heq & _)|(later0 & -> & Htr)].
  - exfalso. exact (He i Heq).
  - destruct (Hl later0 i earlier j Htr Hflag) as (later' & ->).
    exists (e :: later'). reflexivity.
Qed.

Lemma lateStartsLocal_clean_start i tr :
  (forall j, ~ In (QuotaFlagSet j) tr) ->
  lateStartsLocal tr -> lateStartsLocal (Started i :: tr).
Proof.
  intros Hclean Hl later i' earlier j Hsplit Hflag.
  apply split_cons_started in Hsplit as [(_ & _ & ->)|(later0 & -> & Htr)].
  - exfalso. exact (Hclean j Hflag).
  - destruct (Hl later0 i' earlier j Htr Hflag) as (later' & ->).
    exists (Started i :: later'). reflexivity.
Qed.

Lemma lateStartsLocal_local_start i tr :
  lateStartsLocal tr -> lateStartsLocal (ProcessedLocal i :: Started i :: tr).
Proof.
  intros Hl later i' earlier j Hsplit Hflag.
  apply split_cons_started in Hsplit as [(_ & Heq & _)|(later0 & -> & Htr)];
    [discriminate|].
  apply split_cons_started in Htr as [(-> & Heq & ->)|(later1 & -> & Htr)].
  - injection Heq as <-. exists []. reflexivity.
  - destruct (Hl later1 i' earlier j Htr Hflag) as (later' & ->).
    exists (ProcessedLocal i :: Started i :: later'). reflexivity.
Qed.

Lemma startedOf_app tr1 tr2 : startedOf (tr1 ++ tr2) = startedOf tr1 ++ startedOf tr2.
Proof. unfold startedOf. apply flat_map_app. Qed.

Lemma startedOf_plain evs tr :
  (forall e i, In e evs -> e <> Started i) -> startedOf (evs ++ tr) = startedOf tr.
Proof.
  intros H. induction evs as [|e evs IH]; [reflexivity|].
  cbn [app]. unfold startedOf in *. cbn [flat_map].
  rewrite IH by (intros e' i Hin; apply H; right; exact Hin).
  destruct e; try reflexivity.
  exfalso. eapply H; [left; reflexivity | reflexivity].
Qed.

(** A [Started i] occurs once in a trace whose started indices are distinct. *)
Lemma started_unique tr :
  NoDup (startedOf tr) ->
  forall i l1 e1 l2 e2,
    tr = l1 ++ Started i :: e1 -> tr = l2 ++ Started i :: e2 -> e1 = e2.
Proof.
  intros Hnd i l1. revert tr Hnd.
  induction l1 as [|x l1 IH]; intros tr Hnd e1 l2 e2 H1 H2.
  - destruct l2 as [|y l2]; cbn [app] in *.
    + congruence.
    + exfalso. subst tr. injection H2 as <- ->.
      unfold startedOf in Hnd. cbn [flat_map app] in Hnd.
      fold (startedOf (l2 ++ Started i :: e2)) in Hnd.
      apply NoDup_cons_iff in Hnd as [Hnotin _]. apply Hnotin.
      rewrite startedOf_app. apply in_or_app. right. left. reflexivity.
  - destruct l2 as [|y l2]; cbn [app] in *.
    + exfalso. subst tr. injection H2 as -> <-.
      unfold startedOf in Hnd. cbn [flat_map app] in Hnd.
      fold (startedOf (l1 ++ Started i :: e1)) in Hnd.
      apply NoDup_cons_iff in Hnd as [Hnotin _]. apply Hnotin.
      rewrite startedOf_app. apply in_or_app. right. left. reflexivity.
    + subst tr. injection H2 as <- H2.
      apply (IH (l1 ++ Started i :: e1)) with (l2 := l2); [|reflexivity|exact H2].
      unfold startedOf in Hnd. cbn [flat_map] in Hnd.
      apply NoDup_app_remove_l in Hnd. exact Hnd.
Qed.

Lemma startRun_invariant n : Invariant (startRun n).
Proof.
  constructor; cbn.
  - split; [discriminate | intros (j & [])].
  - rewrite app_nil_r. apply seq_NoDup.
  - intros i [].
  - intros w i Hw Hjob. apply repeat_spec in Hw. subst w. discriminate.
  - intros later i earlier j H. destruct later; discriminate.
Qed.

(** A step that pops no job and sets no flag: it may log remote calls of jobs
    that started clean, and move workers among such jobs. *)
Lemma invariant_plain_step s s' evs :
  Invariant s ->
  queue s' = queue s ->
  quotaLimitReached s' = quotaLimitReached s ->
  trace s' = evs ++ trace s ->
  (forall e, In e evs ->
     match e with
     | Started _ | QuotaFlagSet _ => False
     | RemoteCall i => cleanStart i (trace s)
     | _ => True
     end) ->
  (forall w i, In w (workers s') -> remoteJob w = Some i ->
     In w (workers s) \/ cleanStart i (trace s)) ->
  Invariant s'.
Proof.
  intros [Hflag Hnd Hcalls Hworkers Hlate] Hq Hfl Htr Hevs Hws.
  assert (forall e i, In e evs -> e <> Started i) as HnoStart.
  { intros e i Hin ->. exact (Hevs _ Hin). }
  assert (forall e j, In e evs -> e <> QuotaFlagSet j) as HnoFlag.
  { intros e j Hin ->. exact (Hevs _ Hin). }
  constructor.
  - rewrite Hfl, Htr, Hflag. split; intros (j & Hj); exists j.
    + apply in_or_app. right. exact Hj.
    + apply in_app_or in Hj as [Hj|Hj]; [|exact Hj].
      exfalso. exact (HnoFlag _ j Hj eq_refl).
  - rewrite Hq, Htr, startedOf_plain by exact HnoStart. exact Hnd.
  - intros i Hi. rewrite Htr in *. apply cleanStart_app.
    apply in_app_or in Hi as [Hi|Hi]; [exact (Hevs _ Hi) | apply Hcalls, Hi].
  - intros w i Hw Hjob. rewrite Htr. apply cleanStart_app.
    destruct (Hws w i Hw Hjob) as [Hold|Hclean]; [|exact Hclean].
    exact (Hworkers w i Hold Hjob).
  - rewrite Htr. clear Htr. induction evs as [|e evs IH]; [exact Hlate|].
    cbn [app]. apply lateStartsLocal_cons.
    + intros i. apply HnoStart. left. reflexivity.
    + apply IH; intros; try apply Hevs; try apply HnoStart; try apply HnoFlag;
        right; assumption.
Qed.

(** Setting the flag. *)
Lemma invariant_flag_step s s' index :
  Invariant s ->
  queue s' = queue s ->
  quotaLimitReached s' = true ->
  trace s' = QuotaFlagSet index :: trace s ->
  workers s' = workers s ->
  Invariant s'.
Proof.
  intros [Hflag Hnd Hcalls Hworkers Hlate] Hq Hfl Htr Hws.
  constructor.
  - rewrite Hfl, Htr. split; [|reflexivity].
    intros _. exists index. left. reflexivity.
  - rewrite Hq, Htr. exact Hnd.
  - intros i Hi. rewrite Htr in *. apply cleanStart_cons.
    destruct Hi as [Hi|Hi]; [discriminate | apply Hcalls, Hi].
  - intros w i Hw Hjob. rewrite Htr, Hws in *. apply cleanStart_cons.
    exact (Hworkers w i Hw Hjob).
  - rewrite Htr. apply lateStartsLocal_cons; [discriminate | exact Hlate].
Qed.

Lemma fallback_invariant k index s :
  Invariant s -> Invariant (fallback k index s).
Proof.
  intros Hinv.
  apply (invariant_plain_step s _ [ProcessedLocal index] Hinv); try reflexivity.
  - intros e [<-|[]]. exact I.
  - cbn [fallback workers]. intros w i Hw Hjob.
    apply In_setWorker in Hw as [->|Hw]; [discriminate | left; exact Hw].
Qed.

Lemma catchRemote_invariant k index err s :
  Invariant s -> Invariant (catchRemote k index err s).
Proof.
  intros Hinv. unfold catchRemote. apply fallback_invariant.
  destruct (isQuota err); [|exact Hinv].
  apply (invariant_flag_step s _ index Hinv); reflexivity.
Qed.

Lemma setWorkerOf_invariant k w evs s :
  Invariant s ->
  (forall e, In e evs ->
     match e with
     | Started _ | QuotaFlagSet _ => False
     | RemoteCall i => cleanStart i (trace s)
     | _ => True
     end) ->
  (forall i, remoteJob w = Some i -> cleanStart i (trace s)) ->
  Invariant (setWorkerOf k w evs s).
Proof.
  intros Hinv Hevs Hw.
  apply (invariant_plain_step s _ evs Hinv); try reflexivity; [exact Hevs|].
  cbn [setWorkerOf workers]. intros x i Hx Hjob.
  apply In_setWorker in Hx as [->|Hx]; [right; apply Hw, Hjob | left; exact Hx].
Qed.

Lemma resume_invariant activeUseAI k reply s :
  Invariant s -> Invariant (resume activeUseAI k reply s).
Proof.
  intros Hinv. unfold resume.
  destruct (nth_error (workers s) k) as [w|] eqn:Hk; [|exact Hinv].
  assert (forall i, remoteJob w = Some i -> cleanStart i (trace s)) as Hclean.
  { intros i Hjob. apply (inv_workers_clean s Hinv w i); [|exact Hjob].
    eapply nth_error_In, Hk. }
  destruct w as [|index|index retries|index retries|index|].
  - (* the loop head *)
    destruct (queue s) as [|index rest] eqn:Hq.
    { apply setWorkerOf_invariant; [exact Hinv | intros e [] | discriminate]. }
    destruct (abort s).
    { apply setWorkerOf_invariant; [exact Hinv | intros e [] | discriminate]. }
    destruct Hinv as [Hflag Hnd Hcalls Hworkers Hlate].
    assert (NoDup (rest ++ startedOf (Started index :: trace s))) as Hnd'.
    { rewrite Hq in Hnd. unfold startedOf in *. cbn [flat_map app] in *.
      eapply Permutation_NoDup; [apply Permutation_middle | exact Hnd]. }
    destruct (activeUseAI && negb (quotaLimitReached s)) eqn:Hremote.
    + (* the remote path is entered *)
      apply andb_prop in Hremote as [_ Hno]. apply negb_true_iff in Hno.
      assert (forall j, ~ In (QuotaFlagSet j) (trace s)) as Hnoflag.
      { intros j Hj. assert (quotaLimitReached s = true) as Ht
          by (apply Hflag; exists j; exact Hj). congruence. }
      constructor; cbn [setWorkerOf queue quotaLimitReached workers trace app].
      * rewrite Hflag. split; intros (j & Hj); exists j.
        -- right. exact Hj.
        -- destruct Hj as [Hj|Hj]; [discriminate | exact Hj].
      * exact Hnd'.
      * intros i [Hi|Hi]; [discriminate|]. apply cleanStart_cons, Hcalls, Hi.
      * intros w i Hw Hjob. apply In_setWorker in Hw as [->|Hw].
        -- injection Hjob as <-. exists [], (trace s). split; [reflexivity|].
           exact Hnoflag.
        -- apply cleanStart_cons. exact (Hworkers w i Hw Hjob).
      * apply lateStartsLocal_clean_start; assumption.
    + (* straight to local processing *)
      constructor; cbn [fallback queue quotaLimitReached workers trace].
      * rewrite Hflag. split; intros (j & Hj); exists j.
        -- right. right. exact Hj.
        -- destruct Hj as [Hj|[Hj|Hj]]; [discriminate | discriminate | exact Hj].
      * exact Hnd'.
      * intros i [Hi|[Hi|Hi]]; [discriminate | discriminate |].
        apply cleanStart_cons, cleanStart_cons, Hcalls, Hi.
      * intros w i Hw Hjob. apply In_setWorker in Hw as [->|Hw]; [discriminate|].
        apply cleanStart_cons, cleanStart_cons. exact (Hworkers w i Hw Hjob).
      * apply lateStartsLocal_local_start. exact Hlate.
  - (* the stagger timer has fired: the first call, or an exception *)
    destruct reply as [|err]; [|apply catchRemote_invariant, Hinv].
    apply setWorkerOf_invariant; [exact Hinv | | exact Hclean].
    intros e [<-|[]]. apply Hclean. reflexivity.
  - (* the remote call has settled *)
    destruct reply as [|err].
    + apply setWorkerOf_invariant; [exact Hinv | intros e [] | discriminate].
    + destruct retries as [|retries']; [apply catchRemote_invariant, Hinv|].
      destruct (isQuotaError err); [|apply catchRemote_invariant, Hinv].
      apply setWorkerOf_invariant; [exact Hinv | intros e [] | exact Hclean].
  - (* the back-off wait is over: the next call *)
    apply setWorkerOf_invariant; [exact Hinv | | exact Hclean].
    intros e [<-|[]]. apply Hclean. reflexivity.
  - (* the remote image is decoded *)
    destruct reply as [|err]; [|apply fallback_invariant, Hinv].
    apply (invariant_plain_step s _ [ProcessedRemote index] Hinv); try reflexivity.
    + intros e [<-|[]]. exact I.
    + cbn [workers]. intros w i Hw Hjob.
      apply In_setWorker in Hw as [->|Hw]; [discriminate | left; exact Hw].
  - exact Hinv.
Qed.

Lemma act_invariant activeUseAI s a :
  Invariant s -> Invariant (act activeUseAI s a).
Proof.
  intros Hinv. destruct a as [k reply|]; [apply resume_invariant, Hinv|].
  apply (invariant_plain_step s _ [] Hinv); try reflexivity.
  - intros e [].
  - cbn [act workers]. intros w i Hw _. left. exact Hw.
Qed.

Lemma runSchedule_invariant activeUseAI n schedule :
  Invariant (runSchedule activeUseAI n schedule).
Proof.
  unfold runSchedule. generalize (startRun_invariant n).
  generalize (startRun n). induction schedule as [|a schedule IH]; intros s Hinv.
  - exact Hinv.
  - cbn [fold_left]. apply IH, act_invariant, Hinv.
Qed.

(** C5.  In a run, whatever the schedule of the event loop and whatever the
    remote service answers: a job that starts after the quota flag has been
    set by some job goes to local processing at once and never calls the
    remote service. *)
Theorem no_remote_call_after_quota_flag
    (activeUseAI : bool) (n : nat) (schedule : list Action)
    (later earlier : list Event) (index setter : nat) :
  trace (runSchedule activeUseAI n schedule) = later ++ Started index :: earlier ->
  In (QuotaFlagSet setter) earlier ->
  ~ In (RemoteCall index) (trace (runSchedule activeUseAI n schedule))
  /\ exists later', later = later' ++ [ProcessedLocal index].
Proof.
  intros Hsplit Hflag.
  destruct (runSchedule_invariant activeUseAI n schedule)
    as [_ Hnd Hcalls _ Hlate].
  split.
  - intros Hcall. destruct (Hcalls index Hcall) as (l & e & Hsplit' & Hclean).
    apply NoDup_app_remove_l in Hnd.
    pose proof (started_unique _ Hnd index _ _ _ _ Hsplit Hsplit') as ->.
    exact (Hclean setter Hflag).
  - exact (Hlate later index earlier setter Hsplit Hflag).
Qed.

Lemma no_remote_call_after_quota_flag_witness :
  let quotaError :=
    {| status := Some 429;
       message := Some "Resource has been exhausted (e.g. check quota)."%string |} in
  let schedule :=
    [Resume 0 Ok; Resume 1 Ok; Resume 0 Ok;
     Resume 0 (Failed quotaError); Resume 0 Ok;
     Resume 0 (Failed quotaError); Resume 0 Ok;
     Resume 0 (Failed quotaError); Resume 0 Ok;
     Resume 0 (Failed quotaError);
     Resume 1 Ok; Resume 0 Ok; Resume 1 Ok; Resume 1 Ok] in
  let later := [ProcessedRemote 1; ProcessedLocal 2] in
  let earlier := [RemoteCall 1; ProcessedLocal 0; QuotaFlagSet 0; RemoteCall 0;
                  RemoteCall 0; RemoteCall 0; RemoteCall 0; Started 1; Started 0] in
  trace (runSchedule true 3 schedule) = later ++ Started 2 :: earlier
  /\ In (QuotaFlagSet 0) earlier
  /\ ~ In (RemoteCall 2) (trace (runSchedule true 3 schedule))
  /\ exists later', later = later' ++ [ProcessedLocal 2].
Proof.
  intros quotaError schedule later earlier.
  split; [vm_compute; reflexivity|].
  split; [right; right; left; reflexivity|].
  apply (no_remote_call_after_quota_flag true 3 schedule later earlier 2 0).
  - vm_compute. reflexivity.
  - right. right. left. reflexivity.
Defined.

(** C7.  The key handed to the encoder is 0x00FF00 exactly when remove-bg is
    active, the requested replacement is 'transparent', the remote path is in
    use and the quota flag was never set during the run; in every other case,
    and so whenever the remote path is disabled, it is null. *)
Theorem transparentKey_iff
    (activeModes : list Mode) (bgReplaceColor : string)
    (activeUseAI : bool) (n : nat) (schedule : list Action) :
  let s := runSchedule activeUseAI n schedule in
  let key := transparentKey activeModes bgReplaceColor activeUseAI
                            (quotaLimitReached s) in
  (key = Some 0x00FF00 <->
     includes remove_bg activeModes = true
     /\ bgReplaceColor = "transparent"%string
     /\ activeUseAI = true
     /\ forall j, ~ In (QuotaFlagSet j) (trace s))
  /\ (key = Some 0x00FF00 \/ key = None)
  /\ (activeUseAI = false -> key = None)
  /\ transparentKey [remove_bg] "transparent" false (quotaLimitReached s) = None.
Proof.
  intros s key.
  destruct (runSchedule_invariant activeUseAI n schedule) as [Hflag _ _ _ _].
  fold s in Hflag.
  assert (quotaLimitReached s = false <-> forall j, ~ In (QuotaFlagSet j) (trace s))
    as Hnever.
  { split.
    - intros Hf j Hj. assert (quotaLimitReached s = true) as Ht
        by (apply Hflag; exists j; exact Hj). congruence.
    - intros Hno. destruct (quotaLimitReached s); [|reflexivity].
      exfalso. destruct (proj1 Hflag eq_refl) as (j & Hj). exact (Hno j Hj). }
  assert (key = if includes remove_bg activeModes
                   && (bgReplaceColor =? "transparent")%string
                   && activeUseAI && negb (quotaLimitReached s)
                then Some 0x00FF00 else None) as Hkey.
  { subst key. unfold transparentKey.
    destruct (includes remove_bg activeModes),
             (bgReplaceColor =? "transparent")%string, activeUseAI,
             (quotaLimitReached s); reflexivity. }
  split; [|split; [|split]].
  - rewrite Hkey, <- Hnever, <- String.eqb_eq.
    destruct (includes remove_bg activeModes),
             (bgReplaceColor =? "transparent")%string, activeUseAI,
             (quotaLimitReached s); cbn [andb negb];
      split; try discriminate; try tauto; intuition discriminate.
  - rewrite Hkey. destruct (_ && _); [left | right]; reflexivity.
  - intros ->. rewrite Hkey, andb_false_r. reflexivity.
  - reflexivity.
Qed.

(* ================================================================== *)
(** * Further properties *)

(** ** The local frame processor *)

Lemma mapPixels_twice_upto (f : Pixel -> Pixel) :
  (forall px, f (f px) = f px) ->
  forall k data, (List.length data <= k)%nat ->
  mapPixels f (mapPixels f data) = mapPixels f data.
Proof.
  intros Hf.
  induction k as [|k IH]; intros [|pr [|pg [|pb [|pa rest]]]] Hk; try reflexivity.
  - simpl in Hk. lia.
  - cbn [mapPixels].
    destruct (f (pr, pg, pb, pa)) as [[[pr' pg'] pb'] pa'] eqn:E.
    cbn [mapPixels]. rewrite <- E, Hf, E.
    cbn [List.length] in Hk. rewrite IH by lia. reflexivity.
Qed.

Lemma removeBgPixel_solid_cases bg c px :
  removeBgPixel bg (Some c) px = px
  \/ (alphaOf px <> 0
      /\ removeBgPixel bg (Some c) px
         = (ToUint8Clamp (Z2F (r c)), ToUint8Clamp (Z2F (g c)),
            ToUint8Clamp (Z2F (b c)), 255)).
Proof.
  destruct px as [[[pr pg] pb] pa]. unfold removeBgPixel, alphaOf. cbn [snd].
  destruct (Z.eqb_spec pa 0) as [Ea|Ea]; [left; reflexivity|].
  destruct (_ <? tolerance)%float.
  - right. split; [exact Ea | reflexivity].
  - left. rewrite andb_false_r. reflexivity.
Qed.

Lemma removeBgPixel_solid_twice bg c px :
  removeBgPixel bg (Some c) (removeBgPixel bg (Some c) px)
  = removeBgPixel bg (Some c) px.
Proof.
  destruct (removeBgPixel_solid_cases bg c px) as [H|[_ H]];
    [rewrite H; exact H | rewrite H; clear H].
  destruct (removeBgPixel_solid_cases bg c
              (ToUint8Clamp (Z2F (r c)), ToUint8Clamp (Z2F (g c)),
               ToUint8Clamp (Z2F (b c)), 255)) as [H|[_ H]]; exact H.
Qed.

(** X1.  In solid-replacement mode (the pass has a replacement colour) the
    background-removal pass is idempotent: applied to its own output it
    changes nothing.  A replaced pixel stays as it is whether or not the
    replacement colour is itself within 60 of the key colour, and there is no
    feathering band that a second pass could thin further. *)
Theorem removeBg_solid_idempotent (config : ProcessingConfig) (data : list Z) (c : RGB) :
  replaceRGB config = Some c ->
  removeBgPass config (removeBgPass config data) = removeBgPass config data.
Proof.
  intros Hc. unfold removeBgPass. rewrite Hc.
  apply (mapPixels_twice_upto _ (removeBgPixel_solid_twice _ c)
           (List.length data)).
  lia.
Qed.

Lemma removeBg_solid_idempotent_witness :
  let config := {| recolorPairs := None; removeBgColor := Some "#00FF00"%string;
                   bgReplacementColor := Some "#10F020"%string |} in
  let data := [0; 255; 0; 255;  0; 185; 0; 255;  10; 240; 20; 0] in
  replaceRGB config = Some {| r := 16; g := 240; b := 32 |}
  /\ removeBgPass config data = [16; 240; 32; 255;  0; 185; 0; 255;  10; 240; 20; 0]
  /\ removeBgPass config (removeBgPass config data) = removeBgPass config data.
Proof.
  intros config data.
  split; [reflexivity|]. split; [vm_compute; reflexivity|].
  apply (removeBg_solid_idempotent config data {| r := 16; g := 240; b := 32 |}).
  reflexivity.
Defined.

(** X2.  The recolor pass changes neither the length of the buffer nor the
    alpha of any pixel: at every pixel position the alpha after the pass is
    the alpha before it, whatever the rules. *)
Theorem recolorPass_keeps_alpha (rules : list RecolorPair) (data : list Z) (k : nat) :
  List.length (recolorPass rules data) = List.length data
  /\ option_map alphaOf (pixelAt (recolorPass rules data) k)
     = option_map alphaOf (pixelAt data k).
Proof.
  unfold recolorPass. split; [apply length_mapPixels|].
  rewrite pixelAt_mapPixels.
  destruct (pixelAt data k) as [[[[pr pg] pb] pa]|]; [|reflexivity].
  cbn [option_map recolorPixel]. f_equal.
  destruct (pa <? 10); [reflexivity|].
  destruct (bestMatch _ _) as [best|]; [|reflexivity].
  destruct (recolorTo best pr pg pb) as [[nr ng] nb]. reflexivity.
Qed.

Lemma featherAlpha_le a n :
  1 <= a <= 255 -> 3600 <= n <= 6399 -> 0 <= featherAlpha a n <= a.
Proof.
  intros Ha Hn.
  destruct (featherAlpha_checked a n Ha Hn) as [Hnear Hbyte].
  unfold isByte in Hbyte. split; [lia|].
  set (k := featherAlpha a n) in *.
  unfold nearestScaled in Hnear. cbv zeta in Hnear.
  apply andb_prop in Hnear as [Hnear _]. apply andb_prop in Hnear as [Hlo _].
  apply orb_prop in Hlo as [Hlo|Hlo]; apply Z.leb_le in Hlo; [lia|].
  destruct (Z_le_gt_dec k a) as [Hle|Hgt]; [exact Hle|exfalso].
  assert (160 * a + 20 <= 40 * k - 20 + 120 * a) as H1 by lia.
  assert (4 * a * a * n <= 4 * a * a * 6399) as H2 by nia.
  assert ((160 * a + 20) * (160 * a + 20) <= (40 * k - 20 + 120 * a) * (40 * k - 20 + 120 * a))
    as H3 by nia.
  nia.
Qed.

(** X3.  In transparent mode (the pass has no replacement colour)
    background removal leaves the three colour channels of every byte pixel
    as they are and never raises its alpha: the new alpha lies between 0 and
    the old one. *)
Theorem removeBg_transparent_only_lowers_alpha
    (config : ProcessingConfig) (data : list Z) (k : nat) (pr pg pb pa : Z) :
  replaceRGB config = None ->
  pixelAt data k = Some (pr, pg, pb, pa) ->
  bytePixel (pr, pg, pb, pa) ->
  exists pa',
    pixelAt (removeBgPass config data) k = Some (pr, pg, pb, pa')
    /\ 0 <= pa' <= pa.
Proof.
  intros Hnone Hpx Hbytes.
  unfold removeBgPass. rewrite pixelAt_mapPixels, Hpx, Hnone. cbn [option_map].
  pose proof Hbytes as (_ & _ & _ & Ha). unfold isByte in Ha.
  destruct (Z.eq_dec pa 0) as [->|Hpos].
  { exists 0. split; [reflexivity | lia]. }
  rewrite (removeBgPixel_cases _ None pr pg pb pa (bgRGB_bytes config) Hbytes)
    by lia.
  cbv zeta.
  set (n := sqDist {| r := pr; g := pg; b := pb |} (bgRGB config)).
  destruct (Z.ltb_spec n 3600) as [Hlt|Hge].
  { exists 0. split; [reflexivity | lia]. }
  destruct (Z.ltb_spec n 6400) as [Hlt'|Hge']; cbn [andb].
  - exists (featherAlpha pa n). split; [reflexivity|].
    apply featherAlpha_le; lia.
  - exists pa. split; [reflexivity | lia].
Qed.

Lemma removeBg_transparent_only_lowers_alpha_witness :
  let config := {| recolorPairs := None; removeBgColor := None;
                   bgReplacementColor := Some ""%string |} in
  let data := [0; 255; 0; 255;  0; 190; 0; 200;  0; 170; 0; 40] in
  replaceRGB config = None
  /\ pixelAt data 1 = Some (0, 190, 0, 200)
  /\ bytePixel (0, 190, 0, 200)
  /\ removeBgPass config data = [0; 255; 0; 0;  0; 190; 0; 50;  0; 170; 0; 40]
  /\ exists pa',
       pixelAt (removeBgPass config data) 1 = Some (0, 190, 0, pa')
       /\ 0 <= pa' <= 200.
Proof.
  intros config data.
  split; [reflexivity|]. split; [reflexivity|].
  split; [unfold bytePixel, isByte; lia|].
  split; [vm_compute; reflexivity|].
  apply (removeBg_transparent_only_lowers_alpha config data 1 0 190 0 200).
  - reflexivity.
  - reflexivity.
  - unfold bytePixel, isByte. lia.
Defined.

(** X4.  [processFrameLocal] never touches a fully transparent pixel: a
    pixel of alpha 0 is handed to the canvas as it was, whatever the modes
    and the configuration.  The recolor loop skips it (alpha below 10) and
    the background loop skips it (alpha 0), so solid replacement does not
    fill it either. *)
Theorem processFrameLocal_keeps_transparent_pixels
    (ctx : Canvas2D) (imageData : ImageData) (modes : list Mode)
    (config : ProcessingConfig) (k : nat) (pr pg pb : Z) :
  pixelAt (data imageData) k = Some (pr, pg, pb, 0) ->
  exists data',
    processFrameLocal (Some ctx) imageData modes config
    = Returned (readBack ctx {| data := data'; width := width imageData;
                                height := height imageData |})
    /\ pixelAt data' k = Some (pr, pg, pb, 0).
Proof.
  intros Hpx. rewrite processFrameLocal_with_context.
  eexists. split; [reflexivity|].
  assert (forall rules, pixelAt (recolorPass rules (data imageData)) k
                        = Some (pr, pg, pb, 0)) as Hrec.
  { intros rules. unfold recolorPass. rewrite pixelAt_mapPixels, Hpx. reflexivity. }
  assert (forall d, pixelAt d k = Some (pr, pg, pb, 0) ->
                    pixelAt (removeBgPass config d) k = Some (pr, pg, pb, 0)) as Hbg.
  { intros d Hd. unfold removeBgPass. rewrite pixelAt_mapPixels, Hd. reflexivity. }
  destruct (includes remove_bg modes); [apply Hbg|];
    destruct (recolorPairs config) as [[|p ps]|]; try exact Hpx;
    destruct (includes recolor modes); try exact Hpx; apply Hrec.
Qed.

Lemma processFrameLocal_keeps_transparent_pixels_witness :
  let ctx := {| readBack := fun img => img |} in
  let imageData := {| data := [0; 255; 0; 0;  255; 0; 0; 255]; width := 2; height := 1 |} in
  let config := {| recolorPairs := Some [{| original := "#00FF00"; target := "#0000FF" |}]%string;
                   removeBgColor := None;
                   bgReplacementColor := Some "#FFFFFF"%string |} in
  pixelAt (data imageData) 0 = Some (0, 255, 0, 0)
  /\ processFrameLocal (Some ctx) imageData [recolor; remove_bg] config
     = Returned {| data := [0; 255; 0; 0;  255; 0; 0; 255]; width := 2; height := 1 |}
  /\ exists data',
       processFrameLocal (Some ctx) imageData [recolor; remove_bg] config
       = Returned (readBack ctx {| data := data'; width := width imageData;
                                   height := height imageData |})
       /\ pixelAt data' 0 = Some (0, 255, 0, 0).
Proof.
  intros ctx imageData config.
  split; [reflexivity|]. split; [vm_compute; reflexivity|].
  apply (processFrameLocal_keeps_transparent_pixels ctx imageData
           [recolor; remove_bg] config 0 0 255 0).
  reflexivity.
Defined.

(** *** A pixel of a rule's own colour *)

Lemma sqDist_zero c1 c2 : sqDist c1 c2 = 0 <-> c1 = c2.
Proof.
  destruct c1 as [r1 g1 b1], c2 as [r2 g2 b2]. unfold sqDist. cbn [r g b].
  split.
  - intros H.
    assert (r1 = r2) by nia. assert (g1 = g2) by nia. assert (b1 = b2) by nia.
    congruence.
  - intros H. injection H as -> -> ->. ring.
Qed.

(** X5.  A pixel of alpha at least 10 whose colour is exactly the source
    colour of some rule is always recoloured, and by the first rule of the
    list that has this source colour: no rule standing before it has that
    source colour, and the other rules never win against it. *)
Theorem recolor_exact_match
    (rules : list RecolorPair) (rule : RecolorPair) (data : list Z) (k : nat)
    (pr pg pb pa : Z) :
  In rule rules ->
  hexToRgb (original rule) = Some {| r := pr; g := pg; b := pb |} ->
  pixelAt data k = Some (pr, pg, pb, pa) ->
  10 <= pa ->
  exists earlier best later,
    map processPair rules = earlier ++ best :: later
    /\ originalRGB best = {| r := pr; g := pg; b := pb |}
    /\ (forall q, In q earlier -> originalRGB q <> {| r := pr; g := pg; b := pb |})
    /\ bestMatch {| r := pr; g := pg; b := pb |} (map processPair rules) = Some best
    /\ pixelAt (recolorPass rules data) k =
       Some (let '(nr, ng, nb) := recolorTo best pr pg pb in (nr, ng, nb, pa)).
Proof.
  intros Hin Hhex Hpx Ha.
  set (cur := {| r := pr; g := pg; b := pb |}) in *.
  assert (byteRGB cur) as Hcur by (eapply hexToRgb_bytes, Hhex).
  assert (In (processPair rule) (map processPair rules)) as Hin'
    by (apply in_map, Hin).
  assert (sqDist cur (originalRGB (processPair rule)) = 0) as Hzero.
  { apply sqDist_zero. unfold processPair. cbn [originalRGB]. rewrite Hhex.
    reflexivity. }
  destruct (bestMatch_spec cur rules Hcur)
    as [[_ Hfar]|(l1 & p & l2 & Hps & Hbest & _ & H1 & H2)].
  { specialize (Hfar _ Hin'). lia. }
  pose proof (sqDist_nonneg cur (originalRGB p)) as Hp0.
  assert (sqDist cur (originalRGB p) = 0) as Hp.
  { rewrite Hps in Hin'. apply in_app_or in Hin' as [Hq|[Hq|Hq]].
    - specialize (H1 _ Hq). lia.
    - subst p. exact Hzero.
    - specialize (H2 _ Hq). lia. }
  exists l1, p, l2.
  split; [exact Hps|].
  split; [symmetry; apply sqDist_zero, Hp|].
  split.
  { intros q Hq Heq. specialize (H1 _ Hq).
    assert (sqDist cur (originalRGB q) = 0) by (apply sqDist_zero; congruence).
    lia. }
  split; [exact Hbest|].
  unfold recolorPass. rewrite pixelAt_mapPixels, Hpx. cbn [option_map recolorPixel].
  destruct (Z.ltb_spec pa 10) as [?|_]; [lia|].
  fold cur. rewrite Hbest. reflexivity.
Qed.

Lemma recolor_exact_match_witness :
  let rules := [{| original := "#FE0101"; target := "#00FF00" |};
                {| original := "#FF0000"; target := "#0000FF" |};
                {| original := "#ff0000"; target := "#FFFF00" |}]%string in
  let rule := {| original := "#ff0000"; target := "#FFFF00" |}%string in
  let data := [255; 0; 0; 200] in
  In rule rules
  /\ hexToRgb (original rule) = Some {| r := 255; g := 0; b := 0 |}
  /\ pixelAt data 0 = Some (255, 0, 0, 200)
  /\ 10 <= 200
  /\ recolorPass rules data = [0; 0; 255; 200]
  /\ exists earlier best later,
       map processPair rules = earlier ++ best :: later
       /\ originalRGB best = {| r := 255; g := 0; b := 0 |}
       /\ (forall q, In q earlier -> originalRGB q <> {| r := 255; g := 0; b := 0 |})
       /\ bestMatch {| r := 255; g := 0; b := 0 |} (map processPair rules) = Some best
       /\ pixelAt (recolorPass rules data) 0 =
          Some (let '(nr, ng, nb) := recolorTo best 255 0 0 in (nr, ng, nb, 200)).
Proof.
  intros rules rule data.
  split; [right; right; left; reflexivity|].
  split; [reflexivity|]. split; [reflexivity|]. split; [lia|].
  split; [vm_compute; reflexivity|].
  apply (recolor_exact_match rules rule data 0 255 0 0 200).
  - right. right. left. reflexivity.
  - reflexivity.
  - reflexivity.
  - lia.
Defined.

(** *** Hexadecimal notation *)

Lemma hexDigit_hexChar upper d :
  0 <= d <= 15 -> hexDigit (hexChar upper d) = Some d.
Proof.
  intros Hd.
  assert (d = 0 \/ d = 1 \/ d = 2 \/ d = 3 \/ d = 4 \/ d = 5 \/ d = 6 \/ d = 7
          \/ d = 8 \/ d = 9 \/ d = 10 \/ d = 11 \/ d = 12 \/ d = 13 \/ d = 14
          \/ d = 15) as H by lia.
  destruct upper;
    repeat (destruct H as [->|H]; [reflexivity|]); subst d; reflexivity.
Qed.

Lemma parseHexPair_hexByte upper v :
  isByte v ->
  parseHexPair (hexChar upper (v / 16)) (hexChar upper (v mod 16)) = Some v.
Proof.
  unfold isByte. intros Hv. unfold parseHexPair.
  pose proof (Z.div_mod v 16 ltac:(lia)) as Hdm.
  pose proof (Z.mod_pos_bound v 16 ltac:(lia)) as Hm.
  assert (0 <= v / 16 <= 15) as Hq.
  { split; [apply Z.div_pos; lia|].
    assert (v / 16 < 16) by (apply Z.div_lt_upper_bound; lia). lia. }
  rewrite !hexDigit_hexChar by lia. f_equal. lia.
Qed.

(** X6.  [hexToRgb] reads back every byte colour written as six hexadecimal
    digits, in lower or in upper case, with or without the leading '#'. *)
Theorem hexToRgb_toHex (upper hash : bool) (c : RGB) :
  byteRGB c -> hexToRgb (toHex upper hash c) = Some c.
Proof.
  intros (Hr & Hg & Hb). destruct c as [cr cg cb]. cbn [r g b] in *.
  unfold toHex. cbn [r g b].
  set (digits := hexByte upper cr (hexByte upper cg (hexByte upper cb ""))).
  assert (match list_ascii_of_string digits with
          | [c1; c2; c3; c4; c5; c6] =>
              match parseHexPair c1 c2, parseHexPair c3 c4, parseHexPair c5 c6 with
              | Some vr, Some vg, Some vb => Some {| r := vr; g := vg; b := vb |}
              | _, _, _ => None
              end
          | _ => None
          end = Some {| r := cr; g := cg; b := cb |}) as Hparse.
  { subst digits. unfold hexByte. cbn [list_ascii_of_string].
    rewrite !parseHexPair_hexByte by assumption. reflexivity. }
  destruct hash; [exact Hparse|].
  unfold hexToRgb.
  replace (match digits with String "#"%char rest => rest | _ => digits end)
    with digits; [exact Hparse|].
  subst digits. unfold hexByte.
  destruct (hexChar upper (cr / 16)) as [b0 b1 b2 b3 b4 b5 b6 b7] eqn:E.
  assert (hexDigit (hexChar upper (cr / 16)) <> None) as Hd.
  { assert (0 <= cr / 16 <= 15) as Hq.
    { unfold isByte in Hr. split; [apply Z.div_pos; lia|].
      assert (cr / 16 < 16) by (apply Z.div_lt_upper_bound; lia). lia. }
    rewrite hexDigit_hexChar by exact Hq. discriminate. }
  rewrite E in Hd.
  destruct b0, b1, b2, b3, b4, b5, b6, b7; try reflexivity.
  all: exfalso; apply Hd; reflexivity.
Qed.

Lemma hexToRgb_toHex_witness :
  byteRGB {| r := 18; g := 171; b := 255 |}
  /\ toHex false true {| r := 18; g := 171; b := 255 |} = "#12abff"%string
  /\ toHex true false {| r := 18; g := 171; b := 255 |} = "12ABFF"%string
  /\ hexToRgb (toHex false true {| r := 18; g := 171; b := 255 |})
     = Some {| r := 18; g := 171; b := 255 |}.
Proof.
  split; [unfold byteRGB, isByte; cbn; lia|].
  split; [reflexivity|]. split; [reflexivity|].
  apply (hexToRgb_toHex false true {| r := 18; g := 171; b := 255 |}).
  unfold byteRGB, isByte. cbn. lia.
Defined.

(** *** Grey targets *)

Lemma ltb_not_eqb (x y : float) : (x <? y)%float = true -> (x =? y)%float = false.
Proof.
  rewrite FloatAxioms.ltb_spec, FloatAxioms.eqb_spec. unfold SFltb, SFeqb.
  destruct (SFcompare (Prim2SF x) (Prim2SF y)) as [[| |]|]; try discriminate.
  reflexivity.
Qed.

Lemma channel_next a :
  0 <= a < 255 -> (channel a <? channel (a + 1))%float = true.
Proof.
  intros Ha.
  apply (holdsOn_spec (fun z => (channel z <? channel (z + 1))%float) 0 254); [|lia].
  vm_compute. reflexivity.
Qed.

Lemma channel_increasing a b :
  0 <= a -> a < b -> b <= 255 -> (channel a <? channel b)%float = true.
Proof.
  intros Ha Hab Hb.
  replace b with (a + 1 + Z.of_nat (Z.to_nat (b - a - 1))) in * by lia.
  induction (Z.to_nat (b - a - 1)) as [|d IH].
  - rewrite Z.add_0_r. apply channel_next. lia.
  - eapply ltb_trans.
    + apply IH; lia.
    + replace (a + 1 + Z.of_nat (S d)) with (a + 1 + Z.of_nat d + 1) by lia.
      apply channel_next. lia.
Qed.

Lemma channel_ltb a b :
  isByte a -> isByte b -> (channel a <? channel b)%float = (a <? b).
Proof.
  unfold isByte. intros Ha Hb. destruct (Z.ltb_spec a b) as [Hlt|Hge].
  - apply channel_increasing; lia.
  - destruct (Z.eq_dec a b) as [->|Hne]; [apply ltb_irrefl|].
    apply ltb_asym, channel_increasing; lia.
Qed.

Lemma channel_regular a :
  isByte a -> is_nan (channel a) = false /\ (channel a =? channel a)%float = true.
Proof.
  intros Ha.
  pose proof (holdsOn_spec
                (fun z => negb (is_nan (channel z)) && (channel z =? channel z)%float)
                0 255 ltac:(vm_compute; reflexivity) a Ha) as H.
  cbv beta in H. apply andb_prop in H as [H1 H2].
  apply negb_true_iff in H1. split; assumption.
Qed.

Lemma Math_max_channel a b :
  isByte a -> isByte b -> Math_max (channel a) (channel b) = channel (Z.max a b).
Proof.
  intros Ha Hb. unfold Math_max.
  rewrite (proj1 (channel_regular a Ha)), (proj1 (channel_regular b Hb)).
  cbn [orb]. rewrite !channel_ltb by assumption.
  destruct (Z.ltb_spec a b) as [H1|H1].
  - rewrite Z.max_r by lia. reflexivity.
  - destruct (Z.ltb_spec b a) as [H2|H2].
    + rewrite Z.max_l by lia. reflexivity.
    + assert (a = b) as -> by lia. rewrite Z.max_id.
      destruct (get_sign (channel b)); reflexivity.
Qed.

Lemma Math_min_channel a b :
  isByte a -> isByte b -> Math_min (channel a) (channel b) = channel (Z.min a b).
Proof.
  intros Ha Hb. unfold Math_min.
  rewrite (proj1 (channel_regular a Ha)), (proj1 (channel_regular b Hb)).
  cbn [orb]. rewrite !channel_ltb by assumption.
  destruct (Z.ltb_spec a b) as [H1|H1].
  - rewrite Z.min_l by lia. reflexivity.
  - destruct (Z.ltb_spec b a) as [H2|H2].
    + rewrite Z.min_r by lia. reflexivity.
    + assert (a = b) as -> by lia. rewrite Z.min_id.
      destruct (get_sign (channel b)); reflexivity.
Qed.

(** The lightness [rgbToHsl] computes depends on the largest and the
    smallest channel only. *)
Lemma rgbToHsl_lightness pr pg pb :
  isByte pr -> isByte pg -> isByte pb ->
  snd (rgbToHsl pr pg pb)
  = ((channel (Z.max (Z.max pr pg) pb) + channel (Z.min (Z.min pr pg) pb)) / 2)%float.
Proof.
  intros Hr Hg Hb. unfold rgbToHsl. fold (channel pr) (channel pg) (channel pb).
  cbv zeta.
  assert (isByte (Z.max pr pg)) by (unfold isByte in *; lia).
  assert (isByte (Z.min pr pg)) by (unfold isByte in *; lia).
  rewrite !Math_max_channel, !Math_min_channel by assumption.
  destruct (_ =? _)%float; reflexivity.
Qed.

Lemma rgbToHsl_grey v :
  isByte v -> rgbToHsl v v v = (0%float, 0%float, ((channel v + channel v) / 2)%float).
Proof.
  intros Hv. unfold rgbToHsl. fold (channel v). cbv zeta.
  rewrite !Math_max_channel, !Math_min_channel, !Z.max_id, !Z.min_id
    by (rewrite ?Z.max_id, ?Z.min_id; assumption).
  rewrite (proj2 (channel_regular v Hv)). reflexivity.
Qed.

Lemma hslToRgb_achromatic h l :
  hslToRgb h 0 l
  = (Math_round (l * 255)%float, Math_round (l * 255)%float, Math_round (l * 255)%float).
Proof. reflexivity. Qed.

Lemma greyLevel_mean M m :
  isByte M -> isByte m -> M + m - 1 <= 2 * greyLevel M m <= M + m + 1.
Proof.
  intros HM Hm.
  pose proof (holdsOn_spec
                (fun x => holdsOn (fun y => (x + y - 1 <=? 2 * greyLevel x y)
                                            && (2 * greyLevel x y <=? x + y + 1))
                                  0 255)
                0 255 ltac:(vm_cast_no_check (eq_refl true)) M HM) as H.
  cbv beta in H.
  pose proof (holdsOn_spec _ 0 255 H m Hm) as H'. cbv beta in H'.
  apply andb_prop in H' as [H1 H2]. apply Z.leb_le in H1. apply Z.leb_le in H2. lia.
Qed.

(** X7.  When the target colour of the matching rule is a grey (three equal
    channels; a target that is not a hex colour counts as black), the pixel
    becomes a grey of its own lightness: its three channels are set to one
    level, within 1/2 of the mean of its largest and its smallest channel,
    and its alpha is kept.  Recolouring towards white therefore does not
    whiten: pure red becomes (128, 128, 128). *)
Theorem recolor_grey_target
    (rules : list RecolorPair) (data : list Z) (k : nat) (pr pg pb pa : Z)
    (best : ProcessedPair) (v : Z) :
  pixelAt data k = Some (pr, pg, pb, pa) ->
  bytePixel (pr, pg, pb, pa) ->
  10 <= pa ->
  bestMatch {| r := pr; g := pg; b := pb |} (map processPair rules) = Some best ->
  isByte v ->
  targetHSL best = rgbToHsl v v v ->
  let M := Z.max (Z.max pr pg) pb in
  let m := Z.min (Z.min pr pg) pb in
  pixelAt (recolorPass rules data) k
  = Some (greyLevel M m, greyLevel M m, greyLevel M m, pa)
  /\ M + m - 1 <= 2 * greyLevel M m <= M + m + 1.
Proof.
  intros Hpx (Hr & Hg & Hb & Ha) Halpha Hbest Hv Htarget M m.
  split.
  - unfold recolorPass. rewrite pixelAt_mapPixels, Hpx.
    cbn [option_map recolorPixel].
    destruct (Z.ltb_spec pa 10) as [?|_]; [lia|].
    rewrite Hbest. unfold recolorTo. rewrite Htarget, (rgbToHsl_grey v Hv).
    pose proof (rgbToHsl_lightness pr pg pb Hr Hg Hb) as Hl.
    destruct (rgbToHsl pr pg pb) as [[cH cS] cL]. cbn [snd] in Hl. subst cL.
    rewrite hslToRgb_achromatic. reflexivity.
  - apply greyLevel_mean; unfold isByte in *; subst M m; lia.
Qed.

Lemma recolor_grey_target_witness :
  let rules := [{| original := "#FF0000"; target := "#FFFFFF" |}]%string in
  let data := [255; 0; 0; 255;  230; 20; 10; 77] in
  pixelAt data 1 = Some (230, 20, 10, 77)
  /\ bytePixel (230, 20, 10, 77)
  /\ 10 <= 77
  /\ bestMatch {| r := 230; g := 20; b := 10 |} (map processPair rules)
     = Some (processPair {| original := "#FF0000"; target := "#FFFFFF" |}%string)
  /\ isByte 255
  /\ targetHSL (processPair {| original := "#FF0000"; target := "#FFFFFF" |}%string)
     = rgbToHsl 255 255 255
  /\ recolorPass rules data = [128; 128; 128; 255;  120; 120; 120; 77]
  /\ (let M := Z.max (Z.max 230 20) 10 in
      let m := Z.min (Z.min 230 20) 10 in
      pixelAt (recolorPass rules data) 1
      = Some (greyLevel M m, greyLevel M m, greyLevel M m, 77)
      /\ M + m - 1 <= 2 * greyLevel M m <= M + m + 1).
Proof.
  intros rules data.
  split; [reflexivity|]. split; [unfold bytePixel, isByte; lia|].
  split; [lia|]. split; [vm_compute; reflexivity|].
  split; [unfold isByte; lia|]. split; [reflexivity|].
  split; [vm_compute; reflexivity|].
  apply (recolor_grey_target rules data 1 230 20 10 77
           (processPair {| original := "#FF0000"; target := "#FFFFFF" |}%string) 255).
  - reflexivity.
  - unfold bytePixel, isByte. lia.
  - lia.
  - vm_compute. reflexivity.
  - unfold isByte. lia.
  - reflexivity.
Defined.

(** X8.  The colour written on a match uses nothing of the pixel but its
    lightness: two byte pixels with the same largest and the same smallest
    channel are given the same colour by a rule, whatever their hue. *)
Theorem recolor_uses_lightness_only
    (best : ProcessedPair) (pr pg pb qr qg qb : Z) :
  isByte pr -> isByte pg -> isByte pb -> isByte qr -> isByte qg -> isByte qb ->
  Z.max (Z.max pr pg) pb = Z.max (Z.max qr qg) qb ->
  Z.min (Z.min pr pg) pb = Z.min (Z.min qr qg) qb ->
  recolorTo best pr pg pb = recolorTo best qr qg qb.
Proof.
  intros Hpr Hpg Hpb Hqr Hqg Hqb Hmax Hmin.
  pose proof (rgbToHsl_lightness pr pg pb Hpr Hpg Hpb) as Hp.
  pose proof (rgbToHsl_lightness qr qg qb Hqr Hqg Hqb) as Hq.
  rewrite Hmax, Hmin, <- Hq in Hp.
  unfold recolorTo. destruct (targetHSL best) as [[tH tS] tL].
  destruct (rgbToHsl pr pg pb) as [[pH pS] pL], (rgbToHsl qr qg qb) as [[qH qS] qL].
  cbn [snd] in Hp. subst pL. reflexivity.
Qed.

Lemma recolor_uses_lightness_only_witness :
  let best := processPair {| original := "#FF0000"; target := "#0000FF" |}%string in
  isByte 200 /\ isByte 40 /\ isByte 90 /\ isByte 40 /\ isByte 200 /\ isByte 150
  /\ Z.max (Z.max 200 40) 90 = Z.max (Z.max 40 200) 150
  /\ Z.min (Z.min 200 40) 90 = Z.min (Z.min 40 200) 150
  /\ recolorTo best 200 40 90 = (0, 0, 240)
  /\ recolorTo best 200 40 90 = recolorTo best 40 200 150.
Proof.
  intros best.
  do 6 (split; [unfold isByte; lia|]).
  split; [reflexivity|]. split; [reflexivity|]. split; [vm_compute; reflexivity|].
  apply (recolor_uses_lightness_only best 200 40 90 40 200 150);
    unfold isByte; try lia; reflexivity.
Defined.

(** *** Defaults of the configuration *)

Lemma hexOr_spec fallback c0 s :
  hexToRgb fallback = Some c0 ->
  match hexToRgb (hexOr fallback s) with Some c => c | None => c0 end
  = match hexToRgb s with Some c => c | None => c0 end.
Proof.
  intros Hf. unfold hexOr.
  destruct (hexToRgb s) as [c|] eqn:E; [rewrite E | rewrite Hf]; reflexivity.
Qed.

Lemma processPair_normalisePair p : processPair (normalisePair p) = processPair p.
Proof.
  unfold processPair, normalisePair. cbn [original target].
  rewrite !(hexOr_spec "#000000" black) by reflexivity. reflexivity.
Qed.

Lemma hexToRgb_nonempty s c : hexToRgb s = Some c -> s <> ""%string.
Proof. intros H ->. discriminate. Qed.

Lemma bgRGB_normalise config : bgRGB (normalise config) = bgRGB config.
Proof.
  unfold bgRGB, normalise. cbn [removeBgColor].
  destruct (removeBgColor config) as [s|]; [|reflexivity].
  unfold hexOr, truthy.
  destruct (hexToRgb s) as [c|] eqn:E.
  - destruct s as [|ch s]; [discriminate|]. rewrite E. reflexivity.
  - destruct s as [|ch s]; [reflexivity|]. rewrite E. reflexivity.
Qed.

Lemma replaceRGB_normalise config : replaceRGB (normalise config) = replaceRGB config.
Proof.
  rewrite !replaceRGB_spec. unfold normalise. cbn [bgReplacementColor].
  destruct (bgReplacementColor config) as [s|]; [|reflexivity].
  destruct (hexToRgb s) as [c|] eqn:E; [exact E | reflexivity].
Qed.

(** X9.  A colour of the configuration that cannot be used acts as the
    default: a rule colour that is not a hex colour as #000000, a key colour
    that is absent, empty or not a hex colour as #00FF00, a replacement
    colour that is empty or not a hex colour as none (transparent mode).
    [processFrameLocal] gives the same result on a configuration and on its
    normalised form. *)
Theorem processFrameLocal_defaults
    (ctx : option Canvas2D) (imageData : ImageData) (modes : list Mode)
    (config : ProcessingConfig) :
  processFrameLocal ctx imageData modes (normalise config)
  = processFrameLocal ctx imageData modes config.
Proof.
  destruct ctx as [ctx|]; [|reflexivity].
  rewrite !processFrameLocal_with_context.
  assert (forall d, removeBgPass (normalise config) d = removeBgPass config d) as Hbg.
  { intros d. unfold removeBgPass. rewrite bgRGB_normalise, replaceRGB_normalise.
    reflexivity. }
  assert (forall ps d, recolorPass (map normalisePair ps) d = recolorPass ps d) as Hrec.
  { intros ps d. unfold recolorPass. rewrite map_map.
    rewrite (map_ext _ _ processPair_normalisePair). reflexivity. }
  f_equal. f_equal. f_equal.
  unfold normalise at 2. cbn [recolorPairs].
  destruct (recolorPairs config) as [[|p ps]|]; cbn [option_map map].
  - destruct (includes remove_bg modes); [apply Hbg | reflexivity].
  - rewrite <- (Hrec (p :: ps)). cbn [map].
    destruct (includes remove_bg modes); [apply Hbg | reflexivity].
  - destruct (includes remove_bg modes); [apply Hbg | reflexivity].
Qed.

(** *** The shape of the result *)

(** X10.  With a context, [processFrameLocal] hands the canvas a buffer of
    the length of the input's, with the input's width and height; and when
    remove-bg is not among the modes and recolor is not among them or has no
    rule (the list is absent or empty) that buffer is the input's. *)
Theorem processFrameLocal_keeps_shape
    (ctx : Canvas2D) (imageData : ImageData) (modes : list Mode)
    (config : ProcessingConfig) :
  exists data',
    processFrameLocal (Some ctx) imageData modes config
    = Returned (readBack ctx {| data := data'; width := width imageData;
                                height := height imageData |})
    /\ List.length data' = List.length (data imageData)
    /\ (includes remove_bg modes = false ->
        includes recolor modes = false \/ recolorPairs config = None
        \/ recolorPairs config = Some [] ->
        data' = data imageData).
Proof.
  rewrite processFrameLocal_with_context. eexists. split; [reflexivity|]. split.
  - destruct (includes remove_bg modes);
      [unfold removeBgPass; rewrite length_mapPixels|];
      destruct (recolorPairs config) as [[|p ps]|]; try reflexivity;
      destruct (includes recolor modes); try reflexivity;
      unfold recolorPass; apply length_mapPixels.
  - intros -> [->|[->| ->]]; try reflexivity.
    destruct (recolorPairs config) as [[|p ps]|]; reflexivity.
Qed.

(** ** The remote call *)

Lemma newError_not_quota m :
  str_includes "429" m = false -> str_includes "quota" m = false ->
  str_includes "exhausted" m = false ->
  isQuotaError (newError m) = false /\ isQuota (newError m) = false.
Proof.
  intros H1 H2 H3. unfold isQuotaError, isQuota, messageIncludes, newError.
  cbn [status message]. rewrite H1, H2, H3. split; reflexivity.
Qed.

(** X11.  Without an API key (absent, or empty) [editFrameWithGemini] is
    rejected with "API Key not found" before any remote call: the environment
    is as it was.  This error is a quota error for neither classification, so
    it is not retried and does not set the editor's flag. *)
Theorem editFrameWithGemini_without_key
    (generateContent : string -> string -> nat -> Settled Response.GenerateContentResponse)
    (random : nat -> float) (base64Image instruction : string)
    (modes : list Mode) (w : World) :
  let error := newError "API Key not found" in
  editFrameWithGemini None generateContent random base64Image instruction modes w
  = (Rejected error, w)
  /\ editFrameWithGemini (Some ""%string) generateContent random base64Image
       instruction modes w
     = (Rejected error, w)
  /\ isQuotaError error = false /\ isQuota error = false.
Proof. repeat split. Qed.

(** The three ways a response is refused. *)
Lemma extractImage_error_messages response error :
  extractImage response = Rejected error ->
  error = newError "No image data found in Gemini response."
  \/ error = newError "Gemini returned a response with no content parts."
  \/ exists c rest reason,
       Response.candidates response = Some (c :: rest)
       /\ Response.finishReason c = Some reason /\ reason <> ""%string
       /\ error = newError ("Gemini generation finished with reason: " ++ reason).
Proof.
  unfold extractImage.
  assert (forall c rest,
            Response.candidates response = Some (c :: rest) ->
            match GifService.truthy (Response.finishReason c) with
            | Some reason =>
                Rejected (newError ("Gemini generation finished with reason: " ++ reason))
            | None => Rejected (newError "Gemini returned a response with no content parts.")
            end = @Rejected string error ->
            error = newError "No image data found in Gemini response."
            \/ error = newError "Gemini returned a response with no content parts."
            \/ exists c rest reason,
                 Response.candidates response = Some (c :: rest)
                 /\ Response.finishReason c = Some reason /\ reason <> ""%string
                 /\ error = newError ("Gemini generation finished with reason: " ++ reason))
    as Hnoparts.
  { intros c rest Hc. unfold GifService.truthy.
    destruct (Response.finishReason c) as [[|ch reason]|] eqn:E; intros H;
      injection H as <-.
    - right. left. reflexivity.
    - right. right. exists c, rest, (String ch reason).
      split; [exact Hc|]. split; [exact E|]. split; [discriminate | reflexivity].
    - right. left. reflexivity. }
  destruct (Response.candidates response) as [[|c rest]|].
  - intros H. injection H as <-. right. left. reflexivity.
  - specialize (Hnoparts c rest eq_refl).
    destruct (Response.content c) as [[[[|p ps]|]]|]; cbv beta iota zeta;
      cbn [Response.parts]; try exact Hnoparts.
    match goal with
    | |- match ?x with _ => _ end = _ -> _ => destruct x
    end; intros H; [discriminate | injection H as <-; left; reflexivity].
  - intros H. injection H as <-. right. left. reflexivity.
Qed.

(** X12.  A response that carries no usable image and gives no finish
    reason ends the call at once: [editFrameWithGemini] is rejected with the
    callback's error after exactly one invocation and no wait, and that error
    is a quota error for neither classification. *)
Theorem response_without_image_is_not_retried
    (apiKey : option string)
    (generateContent : string -> string -> nat -> Settled Response.GenerateContentResponse)
    (random : nat -> float) (base64Image instruction : string)
    (modes : list Mode) (w : World)
    (response : Response.GenerateContentResponse) (error : JsError) :
  truthy apiKey <> None ->
  generateContent base64Image (buildPrompt instruction modes) (calls w)
  = Fulfilled response ->
  extractImage response = Rejected error ->
  (forall c rest, Response.candidates response = Some (c :: rest) ->
                  Response.finishReason c = None) ->
  editFrameWithGemini apiKey generateContent random base64Image instruction modes w
  = (Rejected error,
     {| calls := S (calls w); draws := draws w; effects := effects w ++ [Invoke] |})
  /\ isQuotaError error = false /\ isQuota error = false.
Proof.
  intros Hkey Hresp Herr Hreason.
  assert (isQuotaError error = false /\ isQuota error = false) as Hq.
  { destruct (extractImage_error_messages _ _ Herr)
      as [->|[->|(c & rest & reason & Hc & Hr & _)]].
    - apply newError_not_quota; reflexivity.
    - apply newError_not_quota; reflexivity.
    - rewrite (Hreason c rest Hc) in Hr. discriminate. }
  split; [|exact Hq].
  unfold editFrameWithGemini, getClient.
  destruct (truthy apiKey) as [key|]; [|contradiction].
  cbn [generateWithRetry]. unfold callback at 1. rewrite Hresp, Herr.
  rewrite (proj1 Hq). reflexivity.
Qed.

Lemma response_without_image_is_not_retried_witness :
  let response :=
    {| Response.candidates :=
         Some [{| Response.content :=
                    Some {| Response.parts :=
                              Some [{| Response.inlineData := None;
                                       Response.text := Some "Sorry."%string |};
                                    {| Response.inlineData :=
                                         Some {| Response.mimeType := Some "image/png"%string;
                                                 Response.data := Some ""%string |};
                                       Response.text := None |};
                                    {| Response.inlineData :=
                                         Some {| Response.mimeType := Some "image/png"%string;
                                                 Response.data := Some "iVBORw0KGgo="%string |};
                                       Response.text := None |}] |};
                  Response.finishReason := None |}] |} in
  let generateContent := fun (_ _ : string) (_ : nat) => Fulfilled response in
  let random := fun _ : nat => 0.5%float in
  let error := newError "No image data found in Gemini response." in
  truthy (Some "key"%string) <> None
  /\ generateContent "AAAA"%string (buildPrompt "" [remove_bg]) (calls world0)
     = Fulfilled response
  /\ extractImage response = Rejected error
  /\ (forall c rest, Response.candidates response = Some (c :: rest) ->
                     Response.finishReason c = None)
  /\ editFrameWithGemini (Some "key"%string) generateContent random
       "AAAA" "" [remove_bg] world0
     = (Rejected error,
        {| calls := S (calls world0); draws := draws world0;
           effects := effects world0 ++ [Invoke] |})
  /\ isQuotaError error = false /\ isQuota error = false.
Proof.
  intros response generateContent random error.
  assert (forall c rest, Response.candidates response = Some (c :: rest) ->
                         Response.finishReason c = None) as Hreason.
  { intros c rest H. injection H as <- _. reflexivity. }
  split; [discriminate|]. split; [reflexivity|]. split; [reflexivity|].
  split; [exact Hreason|].
  apply (response_without_image_is_not_retried (Some "key"%string) generateContent
           random "AAAA" "" [remove_bg] world0 response error).
  - discriminate.
  - reflexivity.
  - reflexivity.
  - exact Hreason.
Defined.


(** *** The image of a response *)

Lemma find_first {A : Type} (f : A -> bool) (l : list A) (x : A) :
  find f l = Some x <->
  exists l1 l2, l = l1 ++ x :: l2 /\ f x = true /\ forall y, In y l1 -> f y = false.
Proof.
  induction l as [|a l IH]; cbn [find].
  - split; [discriminate|]. intros (l1 & l2 & H & _). destruct l1; discriminate.
  - destruct (f a) eqn:Fa.
    + split.
      * intros H. injection H as <-. exists [], l.
        split; [reflexivity|]. split; [exact Fa | intros y []].
      * intros (l1 & l2 & H & Fx & Hl1). destruct l1 as [|b l1].
        -- cbn in H. congruence.
        -- cbn in H. injection H as <- _.
           rewrite (Hl1 a) in Fa by (left; reflexivity). discriminate.
    + rewrite IH. split.
      * intros (l1 & l2 & -> & Fx & Hl1). exists (a :: l1), l2.
        split; [reflexivity|]. split; [exact Fx|].
        intros y [<-|Hy]; [exact Fa | apply Hl1, Hy].
      * intros (l1 & l2 & H & Fx & Hl1). destruct l1 as [|b l1].
        -- cbn in H. injection H as <- _. congruence.
        -- cbn in H. injection H as <- ->. exists l1, l2.
           split; [reflexivity|]. split; [exact Fx|].
           intros y Hy. apply Hl1. right. exact Hy.
Qed.

(** X13.  The callback returns the image data [d] exactly when the first
    candidate has a part list, [d] is the data of the first part of that list
    that has [inlineData], and [d] is not empty.  The other candidates, and
    the inline parts after the first, are never looked at. *)
Theorem extractImage_fulfilled (response : Response.GenerateContentResponse) (d : string) :
  extractImage response = Fulfilled d <->
  exists candidate others content skipped part later blob,
    Response.candidates response = Some (candidate :: others)
    /\ Response.content candidate = Some content
    /\ Response.parts content = Some (skipped ++ part :: later)
    /\ (forall q, In q skipped -> Response.inlineData q = None)
    /\ Response.inlineData part = Some blob
    /\ Response.data blob = Some d
    /\ d <> ""%string.
Proof.
  unfold extractImage. split.
  - destruct (Response.candidates response) as [[|c rest]|];
      [ discriminate | | discriminate ].
    destruct (Response.content c) as [ct|] eqn:Ect;
      [|destruct (truthy _); discriminate].
    destruct (Response.parts ct) as [[|p ps]|] eqn:Eps;
      [ destruct (truthy _); discriminate | | destruct (truthy _); discriminate ].
    cbv zeta.
    destruct (find _ (p :: ps)) as [part|] eqn:Ef; [|discriminate].
    apply find_first in Ef as (l1 & l2 & Hsplit & Hpart & Hl1).
    destruct (Response.inlineData part) as [blob|] eqn:Eb; [|discriminate].
    unfold truthy. destruct (Response.data blob) as [[|ch s]|] eqn:Ed;
      [discriminate | | discriminate].
    intros H. injection H as <-.
    exists c, rest, ct, l1, part, l2, blob.
    split; [reflexivity|]. split; [exact Ect|]. split; [congruence|].
    split.
    { intros q Hq. specialize (Hl1 q Hq).
      destruct (Response.inlineData q); [discriminate | reflexivity]. }
    split; [exact Eb|]. split; [exact Ed | discriminate].
  - intros (c & rest & ct & l1 & part & l2 & blob & -> & -> & Hps & Hl1 & Hb & Hd & Hne).
    rewrite Hps.
    assert (find (fun p => match Response.inlineData p with Some _ => true | None => false end)
                 (l1 ++ part :: l2) = Some part) as Hf.
    { apply find_first. exists l1, l2. split; [reflexivity|].
      split; [rewrite Hb; reflexivity|].
      intros y Hy. rewrite (Hl1 y Hy). reflexivity. }
    destruct (l1 ++ part :: l2) as [|p ps] eqn:E; [destruct l1; discriminate|].
    cbv zeta. rewrite Hf, Hb, Hd. unfold truthy.
    destruct d; [contradiction | reflexivity].
Qed.

(** *** The time spent waiting *)

(** X14.  With the default arguments a call makes at most 4 invocations
    and waits at most 17 seconds in all; a call that uses its 4 invocations
    has waited at least 14 seconds; a call settled by its first invocation
    does nothing but that invocation.  (The delays are rounded sums, and 17
    seconds are reached when [Math.random()] returns its largest value each
    time.) *)
Theorem generateWithRetry_total_wait {A : Type} (fn : nat -> Settled A)
    (random : nat -> float) :
  (forall k, (0 <=? random k)%float = true /\ (random k <? 1)%float = true) ->
  let w := snd (generateWithRetry fn random 3 2000 world0) in
  (calls w <= 4)%nat
  /\ (0 <= totalWait (effects w))%Q
  /\ (totalWait (effects w) <= 17000 # 1)%Q
  /\ (calls w = 4%nat -> (14000 # 1 <= totalWait (effects w))%Q)
  /\ (calls w = 1%nat -> effects w = [Invoke]).
Proof.
  intros Hrand w.
  destruct (generateWithRetry_general fn random 2000 3 world0)
    as (n & Hn & Hcalls & Heff & _).
  fold w in Hcalls, Heff. cbn [world0 calls draws effects Nat.add app] in *.
  rewrite effectsFrom_default in Heff by exact Hn.
  rewrite Hcalls, Heff.
  destruct (Hrand 0%nat) as [H0 H0'], (Hrand 1%nat) as [H1 H1'],
           (Hrand 2%nat) as [H2 H2'].
  destruct (retryDelay_bounds random 0 ltac:(lia) H0 H0') as (_ & _ & _ & _ & Hd0).
  destruct (retryDelay_bounds random 1 ltac:(lia) H1 H1') as (_ & _ & _ & _ & Hd1).
  destruct (retryDelay_bounds random 2 ltac:(lia) H2 H2') as (_ & _ & _ & _ & Hd2).
  change (inject_Z (2000 * 2 ^ Z.of_nat 0)) with (2000 # 1)%Q in Hd0.
  change (inject_Z (2000 * 2 ^ Z.of_nat 0 + 1000)) with (3000 # 1)%Q in Hd0.
  change (inject_Z (2000 * 2 ^ Z.of_nat 1)) with (4000 # 1)%Q in Hd1.
  change (inject_Z (2000 * 2 ^ Z.of_nat 1 + 1000)) with (5000 # 1)%Q in Hd1.
  change (inject_Z (2000 * 2 ^ Z.of_nat 2)) with (8000 # 1)%Q in Hd2.
  change (inject_Z (2000 * 2 ^ Z.of_nat 2 + 1000)) with (9000 # 1)%Q in Hd2.
  destruct n as [|[|[|[|n]]]]; try lia;
    (split; [lia|]);
    cbn [retryEffects app totalWait];
    revert Hd0 Hd1 Hd2;
    generalize (F2Q (retryDelay random 0)) (F2Q (retryDelay random 1))
               (F2Q (retryDelay random 2));
    intros d0 d1 d2 Hd0 Hd1 Hd2;
    (split; [Lqa.lra|]); (split; [Lqa.lra|]);
    (split; [intros Hc; try discriminate; Lqa.lra|]);
    intros Hc; try discriminate; reflexivity.
Qed.

Lemma generateWithRetry_total_wait_witness :
  let quotaError := {| status := None; message := Some "quota exceeded"%string |} in
  let fn := fun _ : nat => @Rejected unit quotaError in
  let random := fun _ : nat => 0x1.fffffffffffffp-1%float in
  let w := snd (generateWithRetry fn random 3 2000 world0) in
  (forall k, (0 <=? random k)%float = true /\ (random k <? 1)%float = true)
  /\ effects w = [Invoke; Wait 3000; Invoke; Wait 5000; Invoke; Wait 9000; Invoke]
  /\ (totalWait (effects w) == 17000 # 1)%Q
  /\ (calls w <= 4)%nat
  /\ (0 <= totalWait (effects w))%Q
  /\ (totalWait (effects w) <= 17000 # 1)%Q
  /\ (calls w = 4%nat -> (14000 # 1 <= totalWait (effects w))%Q)
  /\ (calls w = 1%nat -> effects w = [Invoke]).
Proof.
  intros quotaError fn random w.
  split; [intros k; split; reflexivity|].
  split; [vm_compute; reflexivity|].
  split; [vm_compute; reflexivity|].
  apply (generateWithRetry_total_wait fn random).
  intros k. split; reflexivity.
Defined.

(** ** The editor *)

(** *** Toggling a mode *)

Lemma Mode_eqb_eq m1 m2 : Mode_eqb m1 m2 = true <-> m1 = m2.
Proof. destruct m1, m2; cbn; split; intros H; try reflexivity; discriminate. Qed.

Lemma includes_In m modes : includes m modes = true <-> In m modes.
Proof.
  unfold includes. rewrite existsb_exists. split.
  - intros (x & Hx & Heq). apply Mode_eqb_eq in Heq. subst. exact Hx.
  - intros H. exists m. split; [exact H | apply Mode_eqb_eq; reflexivity].
Qed.

Lemma includes_iff m l1 l2 :
  (In m l1 <-> In m l2) -> includes m l1 = includes m l2.
Proof.
  intros H. destruct (includes m l1) eqn:E1, (includes m l2) eqn:E2; try reflexivity.
  - apply includes_In, H, includes_In in E1. congruence.
  - apply includes_In, H, includes_In in E2. congruence.
Qed.

Lemma In_toggleMode mode l m :
  In m (toggleMode mode l) <->
  (if includes mode l then In m l /\ m <> mode else In m l \/ m = mode).
Proof.
  unfold toggleMode. destruct (includes mode l) eqn:E.
  - rewrite filter_In, negb_true_iff. split; intros [H1 H2]; split; try exact H1.
    + intros ->. rewrite (proj2 (Mode_eqb_eq mode mode) eq_refl) in H2. discriminate.
    + destruct (Mode_eqb m mode) eqn:Em; [|reflexivity].
      apply Mode_eqb_eq in Em. contradiction.
  - rewrite in_app_iff. cbn [In]. intuition auto.
Qed.

(** X15.  [toggleMode] flips the membership of the toggled mode and leaves
    that of the other mode; it keeps a list without duplicates free of
    duplicates; toggling twice gives a list with the members of the first. *)
Theorem toggleMode_flips (mode : Mode) (currentModes : list Mode) :
  includes mode (toggleMode mode currentModes) = negb (includes mode currentModes)
  /\ (forall other, other <> mode ->
        includes other (toggleMode mode currentModes) = includes other currentModes)
  /\ (NoDup currentModes -> NoDup (toggleMode mode currentModes))
  /\ (forall m, includes m (toggleMode mode (toggleMode mode currentModes))
                = includes m currentModes).
Proof.
  assert (forall l, includes mode (toggleMode mode l) = negb (includes mode l)) as Hflip.
  { intros l. destruct (includes mode (toggleMode mode l)) eqn:E.
    - apply includes_In, In_toggleMode in E.
      destruct (includes mode l); [destruct E as [_ E]; contradiction | reflexivity].
    - destruct (includes mode l) eqn:El; [reflexivity|].
      assert (In mode (toggleMode mode l)) as Hin
        by (apply In_toggleMode; rewrite El; right; reflexivity).
      apply includes_In in Hin. congruence. }
  assert (forall l other, other <> mode ->
            includes other (toggleMode mode l) = includes other l) as Hother.
  { intros l other Hne. apply includes_iff. rewrite In_toggleMode.
    destruct (includes mode l); intuition congruence. }
  split; [apply Hflip|]. split; [apply Hother|]. split.
  - intros Hnd. unfold toggleMode. destruct (includes mode currentModes) eqn:E.
    + apply NoDup_filter, Hnd.
    + apply NoDup_app; [exact Hnd | repeat constructor; intros [] |].
      intros x Hx [<-|[]]. apply includes_In in Hx. congruence.
  - intros m. destruct (Mode_eqb m mode) eqn:Em.
    + apply Mode_eqb_eq in Em. subst m. rewrite !Hflip. apply negb_involutive.
    + assert (m <> mode) as Hne
        by (intros ->; rewrite (proj2 (Mode_eqb_eq mode mode) eq_refl) in Em; discriminate).
      rewrite !Hother by exact Hne. reflexivity.
Qed.

(** *** Editing the rules *)

Lemma removeRecolorPair_absent id pairs :
  ~ In id (map Config.id pairs) -> removeRecolorPair id pairs = pairs.
Proof.
  intros H. unfold removeRecolorPair. induction pairs as [|p pairs IH]; [reflexivity|].
  cbn [filter]. destruct (String.eqb_spec (Config.id p) id) as [Heq|Hne].
  - exfalso. apply H. left. exact Heq.
  - cbn [negb]. f_equal. apply IH. intros Hin. apply H. right. exact Hin.
Qed.

Lemma updateRecolorPair_absent id field value pairs :
  ~ In id (map Config.id pairs) -> updateRecolorPair id field value pairs = pairs.
Proof.
  intros H. unfold updateRecolorPair. induction pairs as [|p pairs IH]; [reflexivity|].
  cbn [map]. destruct (String.eqb_spec (Config.id p) id) as [Heq|Hne].
  - exfalso. apply H. left. exact Heq.
  - f_equal. apply IH. intros Hin. apply H. right. exact Hin.
Qed.

(** X16.  Editing the rules: a rule is added at the end of the list, as
    #000000 -> #FFFFFF, so that it comes last in the order in which
    [processFrameLocal] tries the rules; removing the rule just added, its
    identifier being new, gives back the list as it was; and an update under
    an identifier that no rule carries changes nothing. *)
Theorem recolor_pair_editing (newId : string) (pairs : list Config.RecolorPair) :
  ~ In newId (map Config.id pairs) ->
  removeRecolorPair newId (addRecolorPair newId pairs) = pairs
  /\ map toRule (addRecolorPair newId pairs)
     = map toRule pairs ++ [{| original := "#000000"; target := "#FFFFFF" |}]%string
  /\ (forall field value, updateRecolorPair newId field value pairs = pairs)
  /\ (forall field value,
        map Config.id (updateRecolorPair newId field value (addRecolorPair newId pairs))
        = map Config.id pairs
          ++ [match field with Config.IdField => value | _ => newId end]).
Proof.
  intros Hfresh. split; [|split; [|split]].
  - unfold addRecolorPair, removeRecolorPair. rewrite filter_app. cbn [filter Config.id].
    rewrite String.eqb_refl. cbn [negb]. rewrite app_nil_r.
    apply removeRecolorPair_absent, Hfresh.
  - unfold addRecolorPair. rewrite map_app. reflexivity.
  - intros field value. apply updateRecolorPair_absent, Hfresh.
  - intros field value. unfold addRecolorPair, updateRecolorPair.
    rewrite map_app, map_app. cbn [map Config.id]. rewrite String.eqb_refl.
    fold (updateRecolorPair newId field value pairs).
    rewrite (updateRecolorPair_absent _ _ _ _ Hfresh).
    destruct field; reflexivity.
Qed.

Lemma recolor_pair_editing_witness :
  let pairs := [{| Config.id := "1"; Config.original := "#FF0000";
                   Config.target := "#00FF00";
                   Config.objectDescription := Some ""%string |}]%string in
  ~ In "k3x9q0aab"%string (map Config.id pairs)
  /\ removeRecolorPair "k3x9q0aab" (addRecolorPair "k3x9q0aab" pairs) = pairs
  /\ map toRule (addRecolorPair "k3x9q0aab" pairs)
     = map toRule pairs ++ [{| original := "#000000"; target := "#FFFFFF" |}]%string
  /\ (forall field value, updateRecolorPair "k3x9q0aab" field value pairs = pairs)
  /\ (forall field value,
        map Config.id (updateRecolorPair "k3x9q0aab" field value
                                         (addRecolorPair "k3x9q0aab" pairs))
        = map Config.id pairs
          ++ [match field with Config.IdField => value | _ => "k3x9q0aab"%string end]).
Proof.
  intros pairs.
  assert (~ In "k3x9q0aab"%string (map Config.id pairs)) as Hfresh.
  { intros [H|[]]. discriminate. }
  split; [exact Hfresh|].
  apply (recolor_pair_editing "k3x9q0aab" pairs). exact Hfresh.
Defined.

(** *** The progress shown *)

(** X17.  For a run of [n] frames, [1 <= n <= 50] ([MAX_FRAMES]), the
    percentage shown after [c] frames is an integer from 0 to 100 within 1/2
    of [100 c / n]; it is 100 only when [c = n], and it strictly increases
    with [c]. *)
Theorem progress_percentage (n c : Z) :
  1 <= n <= 50 -> 0 <= c <= n ->
  exists p,
    percentOf (progressPercent c n) = Some p
    /\ (Z2F p =? progressPercent c n)%float = true
    /\ 0 <= p <= 100
    /\ Z.abs (2 * (100 * c - n * p)) <= n
    /\ (p = 100 <-> c = n)
    /\ (c < n -> exists q, percentOf (progressPercent (c + 1) n) = Some q /\ p < q).
Proof.
  intros Hn Hc.
  pose proof (holdsOn_spec (fun x => holdsOn (progressCheck x) 0 x) 1 50
                ltac:(vm_compute; reflexivity) n Hn) as H.
  cbv beta in H. pose proof (holdsOn_spec _ 0 n H c Hc) as Hchk.
  unfold progressCheck in Hchk.
  destruct (percentOf (progressPercent c n)) as [p|]; [|discriminate].
  repeat (apply andb_prop in Hchk as [Hchk ?]).
  exists p. split; [reflexivity|]. split; [assumption|].
  split; [lia|]. split; [lia|]. split.
  - destruct (Z.eqb_spec p 100), (Z.eqb_spec c n); try discriminate; tauto.
  - intros Hlt. destruct (Z.eqb_spec c n); [lia|]. cbn [orb] in *.
    destruct (percentOf (progressPercent (c + 1) n)) as [q|]; [|discriminate].
    exists q. split; [reflexivity | lia].
Qed.

Lemma progress_percentage_witness :
  1 <= 40 <= 50 /\ 0 <= 23 <= 40
  /\ percentOf (progressPercent 23 40) = Some 57
  /\ exists p,
       percentOf (progressPercent 23 40) = Some p
       /\ (Z2F p =? progressPercent 23 40)%float = true
       /\ 0 <= p <= 100
       /\ Z.abs (2 * (100 * 23 - 40 * p)) <= 40
       /\ (p = 100 <-> 23 = 40)
       /\ (23 < 40 -> exists q, percentOf (progressPercent (23 + 1) 40) = Some q /\ p < q).
Proof.
  split; [lia|]. split; [lia|]. split; [vm_compute; reflexivity|].
  apply (progress_percentage 40 23); lia.
Defined.

(** *** The project name *)

Lemma allChars_app f s1 s2 :
  allChars f (s1 ++ s2) = allChars f s1 && allChars f s2.
Proof.
  induction s1 as [|c s1 IH]; cbn [String.append allChars]; [reflexivity|].
  rewrite IH, andb_assoc. reflexivity.
Qed.

(** X18.  The project name is the file name without its last extension: an
    ending [.ext] whose [ext] is not empty and holds neither a dot nor a
    slash is removed, whatever stands before it; a name with no such ending
    is kept as it is. *)
Theorem stripExtension_spec :
  (forall base ext,
     ext <> ""%string -> allChars notSlashOrDot ext = true ->
     stripExtension (base ++ "." ++ ext) = base)
  /\ (forall name,
        (forall base ext, name = (base ++ "." ++ ext)%string ->
           ext = ""%string \/ allChars notSlashOrDot ext = false) ->
        stripExtension name = name).
Proof.
  split.
  - intros base ext Hne Hall. induction base as [|c base IH].
    + cbn [String.append stripExtension]. change (Ascii.eqb "." ".") with true.
      rewrite Hall. destruct ext; [contradiction | reflexivity].
    + cbn [String.append stripExtension]. rewrite allChars_app.
      cbn [String.append allChars]. change (notSlashOrDot ".") with false.
      cbn [andb]. rewrite !andb_false_r. f_equal. exact IH.
  - induction name as [|c rest IH]; intros H; [reflexivity|].
    cbn [stripExtension].
    destruct (Ascii.eqb c "." && negb (rest =? "")%string
              && allChars notSlashOrDot rest) eqn:E.
    + apply andb_prop in E as [E Hall]. apply andb_prop in E as [Hc Hrest].
      apply Ascii.eqb_eq in Hc. subst c.
      destruct (H ""%string rest eq_refl) as [->|Hf];
        [discriminate | congruence].
    + f_equal. apply IH. intros base ext ->.
      apply (H (String c base) ext). reflexivity.
Qed.

Example stripExtension_examples :
  map stripExtension ["cat.gif"; "archive.tar.gz"; "README"; "dir.v2/cat"; "cat."; ".gif"]%string
  = ["cat"; "archive.tar"; "README"; "dir.v2/cat"; "cat."; ""]%string.
Proof. reflexivity. Qed.

(** *** The project limit *)

(** X19.  With at most 10 projects present, an upload takes the first
    [10 - count] of the chosen files, in order, so that the project list
    never exceeds 10; the alert is raised exactly when some file is left
    out. *)
Theorem upload_respects_limit {File : Type} (projectCount : nat) (files : list File) :
  (projectCount <= 10)%nat ->
  let added := filesToProcess projectCount files in
  added = firstn (10 - projectCount) files
  /\ (projectCount + List.length added <= 10)%nat
  /\ List.length added = Nat.min (10 - projectCount) (List.length files)
  /\ (limitAlert projectCount files = true <->
      (10 - projectCount < List.length files)%nat).
Proof.
  intros Hcount added.
  assert (added = firstn (10 - projectCount) files) as Hadded.
  { subst added. unfold filesToProcess, slice0, MAX_PROJECTS. cbv zeta.
    destruct (Z.ltb_spec (10 - Z.of_nat projectCount) 0) as [?|_]; [lia|].
    destruct (Z.min_spec (10 - Z.of_nat projectCount) (Z.of_nat (List.length files)))
      as [[Hlt ->]|[Hge ->]].
    - f_equal. lia.
    - rewrite Nat2Z.id. rewrite !firstn_all2 by lia. reflexivity. }
  assert (List.length added = Nat.min (10 - projectCount) (List.length files)) as Hlen
    by (rewrite Hadded; apply length_firstn).
  split; [exact Hadded|]. split; [lia|]. split; [exact Hlen|].
  unfold limitAlert. fold added. rewrite Nat.ltb_lt. lia.
Qed.

Lemma upload_respects_limit_witness :
  (8 <= 10)%nat
  /\ filesToProcess 8 ["a.gif"; "b.gif"; "c.gif"]%string = ["a.gif"; "b.gif"]%string
  /\ limitAlert 8 ["a.gif"; "b.gif"; "c.gif"]%string = true
  /\ (let added := filesToProcess 8 ["a.gif"; "b.gif"; "c.gif"]%string in
      added = firstn (10 - 8) ["a.gif"; "b.gif"; "c.gif"]%string
      /\ (8 + List.length added <= 10)%nat
      /\ List.length added = Nat.min (10 - 8) (List.length ["a.gif"; "b.gif"; "c.gif"]%string)
      /\ (limitAlert 8 ["a.gif"; "b.gif"; "c.gif"]%string = true <->
          (10 - 8 < List.length ["a.gif"; "b.gif"; "c.gif"]%string)%nat)).
Proof.
  split; [lia|]. split; [reflexivity|]. split; [reflexivity|].
  apply (upload_respects_limit 8 ["a.gif"; "b.gif"; "c.gif"]%string). lia.
Defined.

(** *** The frame budget *)

Lemma length_filterIndex {A : Type} (s : nat) (l : list A) :
  (0 < s)%nat ->
  List.length (filterIndex (fun x => (x mod s =? 0)%nat) 0 l) = ceilDiv (List.length l) s.
Proof.
  intros Hs.
  set (l' := filterIndex (fun x => (x mod s =? 0)%nat) 0 l).
  assert (forall j, (List.length l' <= j <-> List.length l <= j * s)%nat) as Hj.
  { intros j. rewrite <- !nth_error_None. subst l'.
    rewrite (nth_error_filterIndex s l Hs 0 j).
    rewrite Nat.Div0.mod_0_l, Nat.sub_0_r, Nat.Div0.mod_same. reflexivity. }
  pose proof (proj1 (Hj (List.length l')) (Nat.le_refl _)) as Hup.
  assert (List.length l' = 0 \/ (List.length l' - 1) * s < List.length l)%nat as Hlow.
  { destruct (List.length l') as [|k] eqn:E; [left; reflexivity|right].
    destruct (Nat.lt_ge_cases ((S k - 1) * s) (List.length l)) as [H|H]; [exact H|].
    apply Hj in H. lia. }
  unfold ceilDiv.
  apply (Nat.div_unique _ _ _ (List.length l + (s - 1) - List.length l' * s)).
  - nia.
  - nia.
Qed.

Lemma length_downsample (parsedFrames : list GifFrame) :
  let n := List.length parsedFrames in
  List.length (downsample parsedFrames)
  = if (MAX_FRAMES <? n)%nat then ceilDiv n (ceilDiv n MAX_FRAMES) else n.
Proof.
  intros n. unfold downsample. fold n.
  destruct (Nat.ltb_spec MAX_FRAMES n) as [Hlt|Hge]; [|reflexivity].
  rewrite length_map. apply length_filterIndex.
  pose proof (ceilDiv_bounds n). unfold MAX_FRAMES in *. lia.
Qed.

(** X20.  Down-sampling leaves at most 50 frames; of a list of more than 50
    frames it keeps [ceil(n / stride)] frames, which is at least 26; applied
    to its own result it changes nothing. *)
Theorem downsample_frame_budget (parsedFrames : list GifFrame) :
  let n := List.length parsedFrames in
  (List.length (downsample parsedFrames) <= 50)%nat
  /\ ((50 < n)%nat ->
      (26 <= List.length (downsample parsedFrames))%nat
      /\ List.length (downsample parsedFrames) = ceilDiv n (ceilDiv n MAX_FRAMES))
  /\ downsample (downsample parsedFrames) = downsample parsedFrames.
Proof.
  intros n.
  pose proof (length_downsample parsedFrames) as Hlen. cbv zeta in Hlen. fold n in Hlen.
  pose proof (ceilDiv_bounds n) as [Hlo Hhi].
  set (s := ceilDiv n MAX_FRAMES) in *.
  assert ((50 < n)%nat ->
          (26 <= ceilDiv n s /\ ceilDiv n s <= 50)%nat) as Hbudget.
  { intros Hn. assert (2 <= s)%nat as Hs by lia.
    unfold ceilDiv at 1 2.
    pose proof (Nat.div_mod_eq (n + (s - 1)) s) as Hd.
    pose proof (Nat.mod_upper_bound (n + (s - 1)) s ltac:(lia)) as Hm.
    split; nia. }
  assert (List.length (downsample parsedFrames) <= 50)%nat as Hle.
  { rewrite Hlen. destruct (Nat.ltb_spec MAX_FRAMES n) as [Hlt|Hge];
      unfold MAX_FRAMES in *; [apply Hbudget; lia | lia]. }
  split; [exact Hle|]. split.
  - intros Hn. destruct (Nat.ltb_spec MAX_FRAMES n) as [Hlt|Hge];
      unfold MAX_FRAMES in *; [|lia].
    rewrite Hlen. split; [apply Hbudget; lia | reflexivity].
  - unfold downsample at 1.
    destruct (Nat.ltb_spec MAX_FRAMES (List.length (downsample parsedFrames)))
      as [Hlt|_]; [unfold MAX_FRAMES in Hlt; lia | reflexivity].
Qed.

Lemma totalDelay_scaled (s : nat) (d : Z) (l : list GifFrame) :
  Forall (fun f => delay f = d) l ->
  totalDelay (map (scaleDelay s) l) = d * Z.of_nat s * Z.of_nat (List.length l).
Proof.
  induction 1 as [|f l Hf _ IH]; [cbn; lia|].
  cbn [map totalDelay fold_right List.length scaleDelay delay].
  unfold totalDelay in IH. rewrite IH, Hf. lia.
Qed.

Lemma Forall_filterIndex {A : Type} (P : A -> Prop) keep (l : list A) :
  Forall P l -> forall i, Forall P (filterIndex keep i l).
Proof.
  induction 1 as [|x l Hx _ IH]; intros i; cbn [filterIndex]; [constructor|].
  destruct (keep i); [constructor; [exact Hx|]|]; apply IH.
Qed.

(** X21.  When all frames have the same delay [d >= 0], the playing time
    after down-sampling is [stride * d] for each frame kept; it is never
    shorter than the original playing time, and longer by at most
    [(stride - 1) * d]. *)
Theorem downsample_uniform_duration (parsedFrames : list GifFrame) (d : Z) :
  0 <= d ->
  Forall (fun f => delay f = d) parsedFrames ->
  let n := List.length parsedFrames in
  let stride := if (MAX_FRAMES <? n)%nat then ceilDiv n MAX_FRAMES else 1%nat in
  totalDelay (downsample parsedFrames)
  = d * Z.of_nat stride * Z.of_nat (List.length (downsample parsedFrames))
  /\ totalDelay parsedFrames <= totalDelay (downsample parsedFrames)
  /\ totalDelay (downsample parsedFrames)
     <= totalDelay parsedFrames + d * (Z.of_nat stride - 1).
Proof.
  intros Hd Hall n stride.
  assert (totalDelay parsedFrames = d * Z.of_nat n) as Htotal.
  { subst n. clear stride. induction Hall as [|f l Hf _ IH]; [cbn; lia|].
    cbn [totalDelay fold_right List.length]. unfold totalDelay in IH.
    rewrite IH, Hf. lia. }
  pose proof (length_downsample parsedFrames) as Hlen. cbv zeta in Hlen. fold n in Hlen.
  subst stride. unfold downsample in *. fold n in Hlen |- *.
  destruct (Nat.ltb_spec MAX_FRAMES n) as [Hlt|Hge].
  - set (s := ceilDiv n MAX_FRAMES) in *.
    rewrite (totalDelay_scaled s d) by (apply Forall_filterIndex, Hall).
    rewrite length_map. rewrite length_map in Hlen. rewrite Hlen, Htotal.
    pose proof (ceilDiv_bounds n) as [Hlo Hhi]. fold s in Hlo, Hhi.
    unfold MAX_FRAMES in *. assert (2 <= s)%nat as Hs by lia.
    assert (n <= ceilDiv n s * s /\ ceilDiv n s * s <= n + (s - 1))%nat as [H1 H2].
    { unfold ceilDiv.
      pose proof (Nat.div_mod_eq (n + (s - 1)) s) as Hdm.
      pose proof (Nat.mod_upper_bound (n + (s - 1)) s ltac:(lia)) as Hm.
      split; nia. }
    split; [reflexivity|]. split; nia.
  - rewrite Htotal. fold n. split; [lia|]. split; lia.
Qed.

Lemma downsample_uniform_duration_witness :
  let frame := {| imageData := {| data := []; width := 0; height := 0 |}; delay := 40 |} in
  let parsedFrames := repeat frame 120 in
  0 <= 40
  /\ Forall (fun f => delay f = 40) parsedFrames
  /\ List.length (downsample parsedFrames) = 40%nat
  /\ totalDelay parsedFrames = 4800
  /\ totalDelay (downsample parsedFrames) = 4800
  /\ (let n := List.length parsedFrames in
      let stride := if (MAX_FRAMES <? n)%nat then ceilDiv n MAX_FRAMES else 1%nat in
      totalDelay (downsample parsedFrames)
      = 40 * Z.of_nat stride * Z.of_nat (List.length (downsample parsedFrames))
      /\ totalDelay parsedFrames <= totalDelay (downsample parsedFrames)
      /\ totalDelay (downsample parsedFrames)
         <= totalDelay parsedFrames + 40 * (Z.of_nat stride - 1)).
Proof.
  intros frame parsedFrames.
  assert (Forall (fun f => delay f = 40) parsedFrames) as Hall.
  { apply Forall_forall. intros f Hf. apply repeat_spec in Hf. subst f. reflexivity. }
  split; [lia|]. split; [exact Hall|].
  split; [vm_compute; reflexivity|]. split; [vm_compute; reflexivity|].
  split; [vm_compute; reflexivity|].
  apply (downsample_uniform_duration parsedFrames 40); [lia | exact Hall].
Defined.

(** ** Bookkeeping of a run *)

Lemma processedOf_app tr1 tr2 :
  processedOf (tr1 ++ tr2) = processedOf tr1 ++ processedOf tr2.
Proof. unfold processedOf. apply flat_map_app. Qed.

Lemma callsOf_app i tr1 tr2 :
  callsOf i (tr1 ++ tr2) = (callsOf i tr1 + callsOf i tr2)%nat.
Proof. unfold callsOf. rewrite filter_app, length_app. reflexivity. Qed.

Lemma callsOf_cons i e tr :
  callsOf i (e :: tr) = ((if isCall i e then 1 else 0) + callsOf i tr)%nat.
Proof. unfold callsOf. cbn [filter]. destruct (isCall i e); reflexivity. Qed.

Lemma length_setWorker k w ws : List.length (setWorker k w ws) = List.length ws.
Proof.
  revert k. induction ws as [|x ws IH]; intros [|k]; cbn; try reflexivity.
  rewrite IH. reflexivity.
Qed.

Lemma nth_error_setWorker k w ws k' x :
  nth_error (setWorker k w ws) k' = Some x ->
  (k' = k /\ x = w) \/ (k' <> k /\ nth_error ws k' = Some x).
Proof.
  revert k k'. induction ws as [|y ws IH]; intros [|k] [|k'] H; cbn in H;
    try discriminate.
  - left. split; [reflexivity | congruence].
  - right. split; [lia | exact H].
  - right. split; [lia | exact H].
  - destruct (IH k k' H) as [[-> ->]|[Hne Hnth]].
    + left. split; reflexivity.
    + right. split; [lia | exact Hnth].
Qed.

Lemma heldJobs_setWorker ws k w w0 :
  nth_error ws k = Some w0 ->
  exists l1 l2,
    heldJobs ws = l1 ++ jobList w0 ++ l2
    /\ heldJobs (setWorker k w ws) = l1 ++ jobList w ++ l2.
Proof.
  revert k. induction ws as [|x ws IH]; intros [|k] H; cbn in H; try discriminate.
  - injection H as ->. exists [], (heldJobs ws). split; reflexivity.
  - destruct (IH k H) as (l1 & l2 & H1 & H2).
    exists (jobList x ++ l1), l2. unfold heldJobs in *. cbn [setWorker flat_map].
    rewrite H1, H2, <- !app_assoc. split; reflexivity.
Qed.

Lemma In_heldJobs ws k w i :
  nth_error ws k = Some w -> heldJob w = Some i -> In i (heldJobs ws).
Proof.
  intros Hk Hw. unfold heldJobs. apply in_flat_map. exists w.
  split; [eapply nth_error_In, Hk|]. unfold jobList. rewrite Hw. left. reflexivity.
Qed.

Lemma NoDup_app_disjoint {A : Type} (l1 l2 : list A) x :
  NoDup (l1 ++ l2) -> In x l1 -> In x l2 -> False.
Proof.
  induction l1 as [|a l1 IH]; intros Hnd H1 H2; [contradiction|].
  cbn in Hnd. apply NoDup_cons_iff in Hnd as [Hnotin Hnd].
  destruct H1 as [->|H1].
  - apply Hnotin, in_or_app. right. exact H2.
  - exact (IH Hnd H1 H2).
Qed.

(** Two workers never hold the same frame. *)
Lemma held_distinct ws :
  NoDup (heldJobs ws) ->
  forall k k' w w' i,
    k <> k' -> nth_error ws k = Some w -> nth_error ws k' = Some w' ->
    heldJob w = Some i -> heldJob w' = Some i -> False.
Proof.
  induction ws as [|x ws IH]; intros Hnd k k' w w' i Hne Hk Hk' Hw Hw'.
  - destruct k; discriminate.
  - unfold heldJobs in Hnd. cbn [flat_map] in Hnd. fold (heldJobs ws) in Hnd.
    destruct k as [|k], k' as [|k']; cbn in Hk, Hk'.
    + lia.
    + injection Hk as ->.
      apply (NoDup_app_disjoint _ _ i Hnd).
      * unfold jobList. rewrite Hw. left. reflexivity.
      * eapply In_heldJobs; eassumption.
    + injection Hk' as ->.
      apply (NoDup_app_disjoint _ _ i Hnd).
      * unfold jobList. rewrite Hw'. left. reflexivity.
      * eapply In_heldJobs; eassumption.
    + apply (IH (NoDup_app_remove_l _ _ Hnd) k k' w w' i); try assumption. lia.
Qed.

Lemma accounting_NoDup n s :
  Accounting n s ->
  NoDup (startedOf (trace s)) /\ NoDup (heldJobs (workers s))
  /\ NoDup (processedOf (trace s)).
Proof.
  intros [(m & _ & _ & Hst) Hheld _ _ _ _ _ _].
  assert (NoDup (startedOf (trace s))) as Hnd.
  { rewrite Hst. apply NoDup_rev, seq_NoDup. }
  pose proof (Permutation_NoDup Hheld Hnd) as Hnd'.
  split; [exact Hnd|]. split.
  - eapply NoDup_app_remove_r, Hnd'.
  - eapply NoDup_app_remove_l, Hnd'.
Qed.

Lemma startRun_accounting n : Accounting n (startRun n).
Proof.
  constructor; cbn [startRun queue trace workers completedCount abort].
  - exists 0%nat. rewrite Nat.sub_0_r. split; [lia|]. split; reflexivity.
  - assert (heldJobs (repeat AtLoopHead (Nat.min CONCURRENCY n)) = []) as ->.
    { induction (Nat.min CONCURRENCY n) as [|j IH]; [reflexivity | exact IH]. }
    constructor.
  - reflexivity.
  - apply repeat_length.
  - intros i. cbn. lia.
  - reflexivity.
  - intros k w Hk. apply nth_error_In, repeat_spec in Hk. subst w. exact I.
  - intros H. apply repeat_spec in H. discriminate.
Qed.

Lemma callsSoFar_ext w tr tr' :
  (forall j, heldJob w = Some j -> callsOf j tr' = callsOf j tr) ->
  callsSoFar w tr -> callsSoFar w tr'.
Proof.
  intros H. destruct w as [|i|i retries|i retries|i|]; cbn [callsSoFar];
    try (intros _; exact I); rewrite (H i eq_refl); exact (fun x => x).
Qed.

Lemma In_setWorker_Done k w ws :
  w <> Done -> In Done (setWorker k w ws) -> In Done ws.
Proof.
  intros Hw H. apply In_setWorker in H as [H|H]; [congruence | exact H].
Qed.

(** A worker goes on with the frame it holds, and may log a call for it. *)
Lemma accounting_move n s k w0 w1 index evs :
  Accounting n s ->
  nth_error (workers s) k = Some w0 ->
  heldJob w0 = Some index -> heldJob w1 = Some index ->
  evs = [] \/ evs = [RemoteCall index] ->
  callsSoFar w1 (evs ++ trace s) ->
  (callsOf index (evs ++ trace s) <= 4)%nat ->
  Accounting n (setWorkerOf k w1 evs s).
Proof.
  intros Hacc Hk Hw0 Hw1 Hevs Hnew Hbound.
  destruct (accounting_NoDup n s Hacc) as (_ & Hndheld & _).
  destruct Hacc as [Horder Hheld Hcount Hpool Hcalls Hun Hwork Hdone].
  assert (startedOf (evs ++ trace s) = startedOf (trace s)) as Hst
    by (destruct Hevs as [->| ->]; reflexivity).
  assert (processedOf (evs ++ trace s) = processedOf (trace s)) as Hpr
    by (destruct Hevs as [->| ->]; reflexivity).
  assert (forall i, i <> index -> callsOf i (evs ++ trace s) = callsOf i (trace s))
    as Hother.
  { intros i Hi. destruct Hevs as [->| ->]; [reflexivity|].
    cbn [app]. rewrite callsOf_cons. cbn [isCall].
    destruct (Nat.eqb_spec index i); [congruence | reflexivity]. }
  constructor; cbn [setWorkerOf queue trace workers completedCount abort].
  - rewrite Hst. exact Horder.
  - rewrite Hst, Hpr.
    destruct (heldJobs_setWorker _ k w1 w0 Hk) as (l1 & l2 & H1 & H2).
    rewrite H2. rewrite H1 in Hheld. unfold jobList in *.
    rewrite Hw0 in Hheld. rewrite Hw1. exact Hheld.
  - rewrite Hpr. exact Hcount.
  - rewrite length_setWorker. exact Hpool.
  - intros i. destruct (Nat.eq_dec i index) as [->|Hne]; [exact Hbound|].
    rewrite Hother by exact Hne. apply Hcalls.
  - intros i Hi. rewrite Hst in Hi.
    assert (i <> index) as Hne.
    { intros ->. apply Hi. eapply Permutation_in; [symmetry; exact Hheld|].
      apply in_or_app. left. eapply In_heldJobs; eassumption. }
    rewrite Hother by exact Hne. apply Hun, Hi.
  - intros k' w Hk'. apply nth_error_setWorker in Hk' as [[-> ->]|[Hne Hk']];
      [exact Hnew|].
    apply (callsSoFar_ext w (trace s)); [|exact (Hwork k' w Hk')].
    intros j Hj. apply Hother. intros ->.
    exact (held_distinct _ Hndheld k k' w0 w index ltac:(congruence) Hk Hk' Hw0 Hj).
  - intros H. apply Hdone. eapply In_setWorker_Done; [|exact H].
    intros ->. discriminate.
Qed.

(** A worker finishes the frame it holds. *)
Lemma accounting_finish n s k w0 index pre e s' :
  Accounting n s ->
  nth_error (workers s) k = Some w0 -> heldJob w0 = Some index ->
  e = ProcessedLocal index \/ e = ProcessedRemote index ->
  pre = [] \/ pre = [QuotaFlagSet index] ->
  queue s' = queue s -> abort s' = abort s ->
  workers s' = setWorker k AtLoopHead (workers s) ->
  completedCount s' = S (completedCount s) ->
  trace s' = e :: pre ++ trace s ->
  Accounting n s'.
Proof.
  intros Hacc Hk Hw0 He Hpre Hq Hab Hws Hcc Htr.
  destruct Hacc as [Horder Hheld Hcount Hpool Hcalls Hun Hwork Hdone].
  assert (startedOf (e :: pre ++ trace s) = startedOf (trace s)) as Hst
    by (destruct He as [->| ->], Hpre as [->| ->]; reflexivity).
  assert (processedOf (e :: pre ++ trace s) = index :: processedOf (trace s)) as Hpr
    by (destruct He as [->| ->], Hpre as [->| ->]; reflexivity).
  assert (forall i, callsOf i (e :: pre ++ trace s) = callsOf i (trace s)) as Hsame
    by (intros i; destruct He as [->| ->], Hpre as [->| ->]; reflexivity).
  constructor; rewrite ?Hq, ?Hab, ?Hws, ?Hcc, ?Htr.
  - rewrite Hst. exact Horder.
  - rewrite Hst, Hpr.
    destruct (heldJobs_setWorker _ k AtLoopHead w0 Hk) as (l1 & l2 & H1 & H2).
    rewrite H2. rewrite H1 in Hheld. unfold jobList in *. rewrite Hw0 in Hheld.
    cbn [heldJob app] in *. rewrite <- app_assoc in Hheld. cbn [app] in Hheld.
    eapply Permutation_trans; [exact Hheld|].
    eapply Permutation_trans; [symmetry; apply Permutation_middle|].
    rewrite app_assoc. apply Permutation_middle.
  - rewrite Hpr, Hcount. reflexivity.
  - rewrite length_setWorker. exact Hpool.
  - intros i. rewrite Hsame. apply Hcalls.
  - intros i Hi. rewrite Hst in Hi. rewrite Hsame. apply Hun, Hi.
  - intros k' w Hk'. apply nth_error_setWorker in Hk' as [[-> ->]|[Hne Hk']];
      [exact I|].
    apply (callsSoFar_ext w (trace s)); [|exact (Hwork k' w Hk')].
    intros j _. apply Hsame.
  - intros H. apply Hdone. eapply In_setWorker_Done; [|exact H]. discriminate.
Qed.

(** A worker at the loop head leaves the loop. *)
Lemma accounting_leave n s k :
  Accounting n s ->
  nth_error (workers s) k = Some AtLoopHead ->
  abort s = true \/ queue s = [] ->
  Accounting n (setWorkerOf k Done [] s).
Proof.
  intros [Horder Hheld Hcount Hpool Hcalls Hun Hwork Hdone] Hk Hleave.
  constructor; cbn [setWorkerOf queue trace workers completedCount abort app];
    try assumption.
  - destruct (heldJobs_setWorker _ k Done AtLoopHead Hk) as (l1 & l2 & H1 & H2).
    change (jobList Done) with (jobList AtLoopHead) in H2.
    rewrite H2, <- H1. exact Hheld.
  - rewrite length_setWorker. exact Hpool.
  - intros k' w Hk'. apply nth_error_setWorker in Hk' as [[-> ->]|[Hne Hk']];
      [exact I | exact (Hwork k' w Hk')].
  - intros _. exact Hleave.
Qed.

(** A worker at the loop head takes the next frame of the queue, to the
    remote path or to local processing. *)
Lemma accounting_start n s k index rest :
  Accounting n s ->
  nth_error (workers s) k = Some AtLoopHead ->
  queue s = index :: rest -> abort s = false ->
  let s1 := {| queue := rest;
               quotaLimitReached := quotaLimitReached s;
               abort := abort s;
               workers := workers s;
               completedCount := completedCount s;
               trace := Started index :: trace s |} in
  Accounting n (setWorkerOf k (Staggering index) [] s1)
  /\ Accounting n (fallback k index s1).
Proof.
  intros [Horder Hheld Hcount Hpool Hcalls Hun Hwork Hdone] Hk Hq Hab s1.
  destruct Horder as (m & Hm & Hqueue & Hst).
  rewrite Hq in Hqueue.
  destruct (n - m)%nat as [|j] eqn:Hj; [discriminate|].
  cbn [seq] in Hqueue. injection Hqueue as -> ->.
  assert (exists m', (m' <= n)%nat /\ seq (S m) j = seq m' (n - m')
                     /\ m :: startedOf (trace s) = rev (seq 0 m')) as Horder'.
  { exists (S m). split; [lia|]. split; [f_equal; lia|].
    rewrite seq_S, rev_app_distr, Hst. reflexivity. }
  assert (~ In m (startedOf (trace s))) as Hfresh.
  { rewrite Hst, <- in_rev, in_seq. lia. }
  assert (forall w, w <> Done -> In Done (setWorker k w (workers s)) ->
                    abort s = true \/ seq (S m) j = []) as Hdone'.
  { intros w Hw H. apply In_setWorker_Done in H; [|exact Hw].
    destruct (Hdone H) as [H'|H']; [congruence | rewrite Hq in H'; discriminate]. }
  split.
  - constructor; cbn [setWorkerOf s1 queue trace workers completedCount abort app].
    + exact Horder'.
    + destruct (heldJobs_setWorker _ k (Staggering m) AtLoopHead Hk)
        as (l1 & l2 & H1 & H2).
      rewrite H2. rewrite H1 in Hheld. cbn [jobList heldJob app] in *.
      rewrite <- app_assoc. cbn [app]. rewrite <- app_assoc in Hheld.
      apply Permutation_cons_app. exact Hheld.
    + exact Hcount.
    + rewrite length_setWorker. exact Hpool.
    + exact Hcalls.
    + intros i Hi. apply Hun. intros H. apply Hi. right. exact H.
    + intros k' w Hk'. apply nth_error_setWorker in Hk' as [[-> ->]|[Hne Hk']].
      * cbn [callsSoFar]. exact (Hun m Hfresh).
      * exact (Hwork k' w Hk').
    + apply Hdone'. discriminate.
  - constructor; cbn [fallback s1 queue trace workers completedCount abort].
    + exact Horder'.
    + destruct (heldJobs_setWorker _ k AtLoopHead AtLoopHead Hk)
        as (l1 & l2 & H1 & H2).
      rewrite H2, <- H1. cbn. apply Permutation_cons_app. exact Hheld.
    + cbn. rewrite Hcount. reflexivity.
    + rewrite length_setWorker. exact Hpool.
    + exact Hcalls.
    + intros i Hi. apply Hun. intros H. apply Hi. right. exact H.
    + intros k' w Hk'. apply nth_error_setWorker in Hk' as [[-> ->]|[Hne Hk']];
        [exact I | exact (Hwork k' w Hk')].
    + apply Hdone'. discriminate.
Qed.

Lemma catchRemote_accounting n s k w0 index err :
  Accounting n s ->
  nth_error (workers s) k = Some w0 -> heldJob w0 = Some index ->
  Accounting n (catchRemote k index err s).
Proof.
  intros Hacc Hk Hw0. unfold catchRemote. destruct (isQuota err).
  - apply (accounting_finish n s k w0 index [QuotaFlagSet index]
             (ProcessedLocal index) _ Hacc Hk Hw0
             (or_introl eq_refl) (or_intror eq_refl)); reflexivity.
  - apply (accounting_finish n s k w0 index [] (ProcessedLocal index) _ Hacc Hk Hw0
             (or_introl eq_refl) (or_introl eq_refl)); reflexivity.
Qed.

Lemma resume_accounting n activeUseAI k reply s :
  Accounting n s -> Accounting n (resume activeUseAI k reply s).
Proof.
  intros Hacc. unfold resume.
  destruct (nth_error (workers s) k) as [w|] eqn:Hk; [|exact Hacc].
  pose proof (acc_calls_worker n s Hacc k w Hk) as Hw.
  pose proof (acc_calls n s Hacc) as Hcalls.
  assert (forall index, callsOf index ([RemoteCall index] ++ trace s)
                        = S (callsOf index (trace s))) as Hcall.
  { intros index. cbn [app]. rewrite callsOf_cons. cbn [isCall].
    rewrite Nat.eqb_refl. reflexivity. }
  destruct w as [|index|index retries|index retries|index|].
  - (* the loop head *)
    destruct (queue s) as [|index rest] eqn:Hq.
    { apply accounting_leave; [exact Hacc | exact Hk | right; exact Hq]. }
    destruct (abort s) eqn:Hab.
    { apply accounting_leave; [exact Hacc | exact Hk | left; exact Hab]. }
    destruct (accounting_start n s k index rest Hacc Hk Hq Hab) as [H1 H2].
    rewrite Hab in H1, H2.
    destruct (activeUseAI && negb (quotaLimitReached s)); [exact H1 | exact H2].
  - (* the stagger timer has fired *)
    cbn [callsSoFar] in Hw. destruct reply as [|err].
    + apply (accounting_move n s k _ (Calling index 3) index [RemoteCall index]
               Hacc Hk eq_refl eq_refl (or_intror eq_refl)).
      * cbn [callsSoFar]. rewrite Hcall. lia.
      * rewrite Hcall. lia.
    + exact (catchRemote_accounting n s k _ index err Hacc Hk eq_refl).
  - (* the remote call has settled *)
    cbn [callsSoFar] in Hw. destruct reply as [|err].
    + apply (accounting_move n s k _ (Decoding index) index []
               Hacc Hk eq_refl eq_refl (or_introl eq_refl)).
      * exact I.
      * apply Hcalls.
    + destruct retries as [|retries'];
        [exact (catchRemote_accounting n s k _ index err Hacc Hk eq_refl)|].
      destruct (isQuotaError err);
        [|exact (catchRemote_accounting n s k _ index err Hacc Hk eq_refl)].
      apply (accounting_move n s k _ (BackingOff index retries') index []
               Hacc Hk eq_refl eq_refl (or_introl eq_refl)).
      * cbn [callsSoFar app]. lia.
      * apply Hcalls.
  - (* the back-off wait is over *)
    cbn [callsSoFar] in Hw.
    apply (accounting_move n s k _ (Calling index retries) index [RemoteCall index]
             Hacc Hk eq_refl eq_refl (or_intror eq_refl)).
    + cbn [callsSoFar]. rewrite Hcall. lia.
    + rewrite Hcall. lia.
  - (* the remote image is decoded *)
    destruct reply as [|err].
    + apply (accounting_finish n s k _ index [] (ProcessedRemote index) _ Hacc Hk
               eq_refl (or_intror eq_refl) (or_introl eq_refl)); reflexivity.
    + apply (accounting_finish n s k _ index [] (ProcessedLocal index) _ Hacc Hk
               eq_refl (or_introl eq_refl) (or_introl eq_refl)); reflexivity.
  - exact Hacc.
Qed.

Lemma act_accounting n activeUseAI s a :
  Accounting n s -> Accounting n (act activeUseAI s a).
Proof.
  intros Hacc. destruct a as [k reply|]; [apply resume_accounting, Hacc|].
  destruct Hacc as [Horder Hheld Hcount Hpool Hcalls Hun Hwork Hdone].
  constructor; cbn [act queue trace workers completedCount abort]; try assumption.
  intros _. left. reflexivity.
Qed.

Lemma runSchedule_accounting activeUseAI n schedule :
  Accounting n (runSchedule activeUseAI n schedule).
Proof.
  unfold runSchedule. generalize (startRun_accounting n).
  generalize (startRun n). induction schedule as [|a schedule IH]; intros s Hacc.
  - exact Hacc.
  - cbn [fold_left]. apply IH, act_accounting, Hacc.
Qed.

(** X22.  In a run, whatever the schedule: no frame is processed twice,
    every processed frame is one of the [n] frames and was started before,
    and [completedCount] is the number of processed frames, at most [n]. *)
Theorem frames_processed_at_most_once
    (activeUseAI : bool) (n : nat) (schedule : list Action) :
  let s := runSchedule activeUseAI n schedule in
  NoDup (processedOf (trace s))
  /\ (forall i, In i (processedOf (trace s)) ->
        (i < n)%nat /\ In i (startedOf (trace s)))
  /\ completedCount s = List.length (processedOf (trace s))
  /\ (completedCount s <= n)%nat.
Proof.
  intros s. pose proof (runSchedule_accounting activeUseAI n schedule) as Hacc.
  fold s in Hacc.
  destruct (accounting_NoDup n s Hacc) as (_ & _ & Hnd).
  destruct Hacc as [(m & Hm & _ & Hst) Hheld Hcount _ _ _ _ _].
  assert (forall i, In i (processedOf (trace s)) -> In i (startedOf (trace s))) as Hin.
  { intros i Hi. eapply Permutation_in; [symmetry; exact Hheld|].
    apply in_or_app. right. exact Hi. }
  split; [exact Hnd|]. split.
  - intros i Hi. split; [|apply Hin, Hi].
    apply Hin in Hi. rewrite Hst, <- in_rev, in_seq in Hi. lia.
  - split; [exact Hcount|]. rewrite Hcount.
    apply Permutation_length in Hheld.
    rewrite length_app, Hst, length_rev, length_seq in Hheld. lia.
Qed.

(** X23.  In a run, whatever the schedule, the frames are started in index
    order without a gap: at any moment the frames started are 0 .. m - 1, the
    newest being m - 1, and the queue holds m .. n - 1. *)
Theorem frames_start_in_order
    (activeUseAI : bool) (n : nat) (schedule : list Action) :
  let s := runSchedule activeUseAI n schedule in
  exists m, (m <= n)%nat
            /\ startedOf (trace s) = rev (seq 0 m)
            /\ queue s = seq m (n - m).
Proof.
  intros s.
  destruct (runSchedule_accounting activeUseAI n schedule)
    as [(m & Hm & Hq & Hst) _ _ _ _ _ _ _].
  exists m. split; [exact Hm|]. split; assumption.
Qed.

Lemma length_heldJobs ws : (List.length (heldJobs ws) <= List.length ws)%nat.
Proof.
  induction ws as [|w ws IH]; [cbn; lia|].
  unfold heldJobs in *. cbn [flat_map]. rewrite length_app. cbn [List.length].
  destruct w; cbn [jobList heldJob List.length]; lia.
Qed.

Lemma heldJobs_In ws i :
  In i (heldJobs ws) ->
  exists k w, nth_error ws k = Some w /\ heldJob w = Some i.
Proof.
  intros H. unfold heldJobs in H. apply in_flat_map in H as (w & Hw & Hi).
  apply In_nth_error in Hw as (k & Hk). exists k, w. split; [exact Hk|].
  unfold jobList in Hi. destruct (heldJob w) as [j|]; [|contradiction].
  destruct Hi as [->|[]]. reflexivity.
Qed.

(** X24.  In a run, whatever the schedule, every started frame is either
    processed or held by exactly one worker, never both, and the workers
    hold at most [CONCURRENCY] = 2 frames: at most two frames are in
    flight. *)
Theorem at_most_two_frames_in_flight
    (activeUseAI : bool) (n : nat) (schedule : list Action) :
  let s := runSchedule activeUseAI n schedule in
  Permutation (startedOf (trace s)) (heldJobs (workers s) ++ processedOf (trace s))
  /\ NoDup (heldJobs (workers s) ++ processedOf (trace s))
  /\ (forall i, In i (startedOf (trace s)) ->
        In i (processedOf (trace s))
        \/ exists k w, nth_error (workers s) k = Some w /\ heldJob w = Some i)
  /\ (forall k k' w w' i,
        nth_error (workers s) k = Some w -> nth_error (workers s) k' = Some w' ->
        heldJob w = Some i -> heldJob w' = Some i -> k = k')
  /\ (forall k w i,
        nth_error (workers s) k = Some w -> heldJob w = Some i ->
        In i (startedOf (trace s)) /\ ~ In i (processedOf (trace s)))
  /\ List.length (startedOf (trace s))
     = (List.length (heldJobs (workers s)) + List.length (processedOf (trace s)))%nat
  /\ (List.length (heldJobs (workers s)) <= CONCURRENCY)%nat
  /\ (List.length (startedOf (trace s))
      <= List.length (processedOf (trace s)) + 2)%nat.
Proof.
  intros s.
  pose proof (runSchedule_accounting activeUseAI n schedule) as Hacc. fold s in Hacc.
  destruct (accounting_NoDup n s Hacc) as (Hnd & Hndh & _).
  destruct Hacc as [_ Hheld _ Hpool _ _ _ _].
  pose proof (Permutation_NoDup Hheld Hnd) as Hndall.
  split; [exact Hheld|]. split; [exact Hndall|].
  split.
  { intros i Hi. apply (Permutation_in _ Hheld), in_app_or in Hi.
    destruct Hi as [Hi|Hi]; [right; apply heldJobs_In, Hi | left; exact Hi]. }
  split.
  { intros k k' w w' i Hk Hk' Hw Hw'.
    destruct (Nat.eq_dec k k') as [Heq|Hne]; [exact Heq|].
    exfalso. exact (held_distinct _ Hndh k k' w w' i Hne Hk Hk' Hw Hw'). }
  split.
  { intros k w i Hk Hw. pose proof (In_heldJobs _ _ _ _ Hk Hw) as Hin. split.
    - apply (Permutation_in _ (Permutation_sym Hheld)), in_or_app. left. exact Hin.
    - intros Hp. exact (NoDup_app_disjoint _ _ i Hndall Hin Hp). }
  apply Permutation_length in Hheld. rewrite length_app in Hheld.
  pose proof (length_heldJobs (workers s)) as Hle.
  unfold CONCURRENCY in *. split; [exact Hheld|]. split; lia.
Qed.

(** Counting the calls of a trace frame by frame. *)
Lemma callsOf_positive i tr : In (RemoteCall i) tr -> (0 < callsOf i tr)%nat.
Proof.
  intros H. unfold callsOf.
  assert (In (RemoteCall i) (filter (isCall i) tr)) as Hin.
  { apply filter_In. split; [exact H|]. cbn. apply Nat.eqb_refl. }
  destruct (filter (isCall i) tr); [contradiction | cbn; lia].
Qed.

Lemma callsBelow_S n tr :
  List.length (filter (isCallBelow (S n)) tr)
  = (List.length (filter (isCallBelow n) tr) + callsOf n tr)%nat.
Proof.
  unfold callsOf. induction tr as [|e tr IH]; [reflexivity|].
  cbn [filter]. destruct e as [j|j|j|j|j]; cbn [isCallBelow isCall]; try exact IH.
  destruct (Nat.ltb_spec j (S n)), (Nat.ltb_spec j n), (Nat.eqb_spec j n);
    try lia; cbn [List.length]; rewrite IH; lia.
Qed.

Lemma calls_bounded (c : nat) (tr : list Event) (n : nat) :
  (forall i, callsOf i tr <= c)%nat ->
  (forall i, (n <= i)%nat -> callsOf i tr = 0%nat) ->
  (remoteCalls tr <= c * n)%nat.
Proof.
  intros Hc Hout.
  assert (remoteCalls tr = List.length (filter (isCallBelow n) tr)) as ->.
  { unfold remoteCalls. f_equal. apply filter_ext_in.
    intros e He. destruct e as [j|j|j|j|j]; try reflexivity.
    cbn [isRemoteCall isCallBelow]. symmetry. apply Nat.ltb_lt.
    destruct (Nat.lt_ge_cases j n) as [Hlt|Hge]; [exact Hlt|].
    pose proof (callsOf_positive j tr He). rewrite (Hout j Hge) in *. lia. }
  clear Hout. induction n as [|n IH].
  - assert (filter (isCallBelow 0) tr = []) as ->; [|cbn; lia].
    clear. induction tr as [|e tr IH]; [reflexivity|].
    cbn [filter]. destruct e; exact IH.
  - rewrite callsBelow_S. specialize (Hc n). lia.
Qed.

(** X25.  In a run, whatever the schedule and whatever the remote service
    answers, the remote service is called at most 4 times for a frame, not at
    all for a frame that has not started, and so at most [4 n] times in
    all. *)
Theorem at_most_four_remote_calls_per_frame
    (activeUseAI : bool) (n : nat) (schedule : list Action) :
  let s := runSchedule activeUseAI n schedule in
  (forall i, (callsOf i (trace s) <= 4)%nat)
  /\ (forall i, ~ In i (startedOf (trace s)) -> callsOf i (trace s) = 0%nat)
  /\ (remoteCalls (trace s) <= 4 * n)%nat.
Proof.
  intros s.
  destruct (runSchedule_accounting activeUseAI n schedule)
    as [(m & Hm & _ & Hst) _ _ _ Hcalls Hun _ _].
  fold s in Hst, Hcalls, Hun.
  split; [exact Hcalls|]. split; [exact Hun|].
  apply calls_bounded; [exact Hcalls|].
  intros i Hi. apply Hun. rewrite Hst, <- in_rev, in_seq. lia.
Qed.

Lemma abort_resume activeUseAI k reply s :
  abort (resume activeUseAI k reply s) = abort s.
Proof.
  unfold resume, catchRemote, fallback, setWorkerOf.
  destruct (nth_error (workers s) k) as [[|index|index retries|index retries|index|]|];
    try reflexivity.
  - destruct (queue s); [reflexivity|]. destruct (abort s); [reflexivity|].
    destruct (activeUseAI && negb (quotaLimitReached s)); reflexivity.
  - destruct reply as [|err]; [reflexivity|]. destruct (isQuota err); reflexivity.
  - destruct reply as [|err]; [reflexivity|].
    destruct retries as [|retries']; [destruct (isQuota err); reflexivity|].
    destruct (isQuotaError err); [reflexivity|]. destruct (isQuota err); reflexivity.
  - destruct reply; reflexivity.
Qed.

Lemma abort_only_on_request activeUseAI (schedule : list Action) :
  ~ In StopRequested schedule ->
  forall s, abort s = false -> abort (fold_left (act activeUseAI) schedule s) = false.
Proof.
  induction schedule as [|a schedule IH]; intros Hno s Hab; [exact Hab|].
  cbn [fold_left]. apply IH; [intros H; apply Hno; right; exact H|].
  destruct a as [k reply|]; [|exfalso; apply Hno; left; reflexivity].
  cbn [act]. rewrite abort_resume. exact Hab.
Qed.

(** X26.  When no stop is requested during a run and all workers have left
    their loop, the queue is empty, every frame 0 .. n - 1 has been
    processed, once, and [completedCount] is [n]: the result list handed to
    the encoder has no hole, so that frames and delays stay paired. *)
Theorem finished_run_has_every_frame
    (activeUseAI : bool) (n : nat) (schedule : list Action) :
  let s := runSchedule activeUseAI n schedule in
  ~ In StopRequested schedule ->
  (forall w, In w (workers s) -> w = Done) ->
  abort s = false
  /\ queue s = []
  /\ Permutation (processedOf (trace s)) (seq 0 n)
  /\ completedCount s = n.
Proof.
  intros s Hno Hall.
  assert (abort s = false) as Hab
    by (apply (abort_only_on_request activeUseAI schedule Hno); reflexivity).
  destruct (runSchedule_accounting activeUseAI n schedule)
    as [(m & Hm & Hq & Hst) Hheld Hcount Hpool _ _ _ Hdone].
  fold s in Hq, Hst, Hheld, Hcount, Hpool, Hdone.
  assert (heldJobs (workers s) = []) as Hnone.
  { clear - Hall. induction (workers s) as [|w ws IH]; [reflexivity|].
    unfold heldJobs in *. cbn [flat_map].
    rewrite (Hall w (or_introl eq_refl)), IH; [reflexivity|].
    intros w' Hw'. apply Hall. right. exact Hw'. }
  assert (queue s = []) as Hempty.
  { destruct (workers s) as [|w ws] eqn:Hws.
    - cbn [List.length] in Hpool. unfold CONCURRENCY in Hpool.
      rewrite Hq. replace (n - m)%nat with 0%nat by lia. reflexivity.
    - assert (In Done (w :: ws)) as Hin.
      { left. apply Hall. left. reflexivity. }
      destruct (Hdone Hin) as [H|H]; [congruence | exact H]. }
  assert (m = n) as ->.
  { rewrite Hempty in Hq. destruct (n - m)%nat eqn:E; [lia | discriminate]. }
  rewrite Hnone in Hheld. cbn [app] in Hheld.
  split; [exact Hab|]. split; [exact Hempty|]. split.
  - eapply Permutation_trans; [symmetry; exact Hheld|].
    rewrite Hst. symmetry. apply Permutation_rev.
  - rewrite Hcount. apply Permutation_length in Hheld.
    rewrite <- Hheld, Hst, length_rev, length_seq. reflexivity.
Qed.

Lemma finished_run_has_every_frame_witness :
  let quotaError := {| status := Some 429; message := Some "quota"%string |} in
  let schedule :=
    [Resume 0 Ok; Resume 1 Ok; Resume 1 Ok; Resume 0 Ok;
     Resume 1 (Failed quotaError); Resume 1 Ok; Resume 1 Ok; Resume 1 Ok;
     Resume 0 (Failed {| status := None; message := Some "Context null"%string |});
     Resume 0 Ok; Resume 1 Ok; Resume 0 Ok; Resume 0 Ok;
     Resume 0 (Failed {| status := None; message := None |}); Resume 0 Ok] in
  let s := runSchedule true 3 schedule in
  ~ In StopRequested schedule
  /\ (forall w, In w (workers s) -> w = Done)
  /\ trace s = [ProcessedLocal 2; RemoteCall 2; Started 2; ProcessedLocal 0;
                ProcessedRemote 1; RemoteCall 1; RemoteCall 0; RemoteCall 1;
                Started 1; Started 0]
  /\ abort s = false
  /\ queue s = []
  /\ Permutation (processedOf (trace s)) (seq 0 3)
  /\ completedCount s = 3%nat.
Proof.
  intros quotaError schedule s.
  assert (~ In StopRequested schedule) as Hno.
  { intros H. cbn in H. repeat (destruct H as [H|H]; [discriminate|]). exact H. }
  assert (workers s = [Done; Done]) as Hws by (vm_compute; reflexivity).
  assert (forall w, In w (workers s) -> w = Done) as Hall.
  { rewrite Hws. intros w [<-|[<-|[]]]; reflexivity. }
  split; [exact Hno|]. split; [exact Hall|].
  split; [vm_compute; reflexivity|].
  apply (finished_run_has_every_frame true 3 schedule); [exact Hno | exact Hall].
Defined.

(** *** Termination *)

Lemma workLeft_cons w ws : workLeft (w :: ws) = (workerCost w + workLeft ws)%nat.
Proof. reflexivity. Qed.

Lemma workLeft_setWorker ws k w w0 :
  nth_error ws k = Some w0 ->
  (workLeft (setWorker k w ws) + workerCost w0 = workLeft ws + workerCost w)%nat.
Proof.
  revert k. induction ws as [|x ws IH]; intros [|k] H; cbn in H; try discriminate.
  - injection H as ->. cbn [setWorker]. rewrite !workLeft_cons. lia.
  - specialize (IH k H). cbn [setWorker]. rewrite !workLeft_cons. lia.
Qed.

Lemma live_step_decreases activeUseAI s k reply :
  isLive s k = true ->
  (runCost (resume activeUseAI k reply s) < runCost s)%nat.
Proof.
  unfold isLive, resume, runCost. intros Hlive.
  destruct (nth_error (workers s) k) as [w|] eqn:Hk; [|discriminate].
  assert (forall w', workLeft (setWorker k w' (workers s)) + workerCost w
                     = workLeft (workers s) + workerCost w')%nat as Hset
    by (intros w'; apply workLeft_setWorker, Hk).
  assert (forall index err,
            queue (catchRemote k index err s) = queue s
            /\ workers (catchRemote k index err s) = setWorker k AtLoopHead (workers s))
    as Hcatch.
  { intros index err. unfold catchRemote. destruct (isQuota err); split; reflexivity. }
  destruct w as [|index|index retries|index retries|index|]; try discriminate.
  - destruct (queue s) as [|index rest] eqn:Hq.
    { cbn [setWorkerOf queue workers]. rewrite Hq. specialize (Hset Done).
      cbn [workerCost] in Hset. cbn [List.length]. lia. }
    destruct (abort s).
    { cbn [setWorkerOf queue workers]. rewrite Hq. specialize (Hset Done).
      cbn [workerCost] in Hset. lia. }
    destruct (activeUseAI && negb (quotaLimitReached s)).
    + cbn [setWorkerOf queue workers]. specialize (Hset (Staggering index)).
      cbn [workerCost List.length] in *. lia.
    + cbn [fallback queue workers]. specialize (Hset AtLoopHead).
      cbn [workerCost List.length] in *. lia.
  - destruct reply as [|err].
    + cbn [setWorkerOf queue workers]. specialize (Hset (Calling index 3)).
      cbn [workerCost] in Hset. lia.
    + destruct (Hcatch index err) as [-> ->]. specialize (Hset AtLoopHead).
      cbn [workerCost] in Hset. lia.
  - destruct reply as [|err].
    + cbn [setWorkerOf queue workers]. specialize (Hset (Decoding index)).
      cbn [workerCost] in Hset. lia.
    + destruct retries as [|retries'].
      { destruct (Hcatch index err) as [-> ->]. specialize (Hset AtLoopHead).
        cbn [workerCost] in Hset. lia. }
      destruct (isQuotaError err).
      * cbn [setWorkerOf queue workers]. specialize (Hset (BackingOff index retries')).
        cbn [workerCost] in Hset. lia.
      * destruct (Hcatch index err) as [-> ->]. specialize (Hset AtLoopHead).
        cbn [workerCost] in Hset. lia.
  - cbn [setWorkerOf queue workers]. specialize (Hset (Calling index retries)).
    cbn [workerCost] in Hset. lia.
  - specialize (Hset AtLoopHead). cbn [workerCost] in Hset.
    destruct reply as [|err]; cbn [fallback queue workers]; lia.
Qed.

Lemma liveSteps_bounded activeUseAI (schedule : list Action) :
  forall s, (liveSteps activeUseAI s schedule <= runCost s)%nat.
Proof.
  induction schedule as [|a schedule IH]; intros s; [cbn; lia|].
  specialize (IH (act activeUseAI s a)).
  destruct a as [k reply|]; cbn [liveSteps act] in *.
  - destruct (isLive s k) eqn:Hlive.
    + pose proof (live_step_decreases activeUseAI s k reply Hlive). lia.
    + assert (resume activeUseAI k reply s = s) as Hsame.
      { unfold resume, isLive in *.
        destruct (nth_error (workers s) k) as [[| | | | |]|]; try discriminate;
          reflexivity. }
      rewrite Hsame in *. lia.
  - unfold runCost in *. cbn [queue workers] in IH. lia.
Qed.

(** X27.  A run cannot go on for ever: whatever the schedule and whatever
    the remote service answers, at most [11 n + 2] turns of the event loop
    resume a worker that is still in its loop (eleven for each frame, one for
    each of the two workers to leave); resuming a worker that has left, or
    one the pool does not have, changes nothing. *)
Theorem run_terminates (activeUseAI : bool) (n : nat) (schedule : list Action) :
  (liveSteps activeUseAI (startRun n) schedule <= 11 * n + 2)%nat
  /\ forall s k reply,
       isLive s k = false -> resume activeUseAI k reply s = s.
Proof.
  split.
  - pose proof (liveSteps_bounded activeUseAI schedule (startRun n)) as H.
    assert (runCost (startRun n) <= 11 * n + 2)%nat as Hinit; [|lia].
    unfold runCost, startRun. cbn [queue workers].
    rewrite length_seq.
    assert (forall j, workLeft (repeat AtLoopHead j) = j) as Hrep.
    { induction j as [|j IHj]; [reflexivity|]. cbn [repeat].
      rewrite workLeft_cons, IHj. reflexivity. }
    rewrite Hrep. unfold CONCURRENCY. lia.
  - intros s k reply Hlive. unfold resume, isLive in *.
    destruct (nth_error (workers s) k) as [[| | | | |]|]; try discriminate; reflexivity.
Qed.

(** *** Runs with the remote path off *)

Lemma offline_step s a :
  forallb isLocalEvent (trace s) = true ->
  quotaLimitReached s = false ->
  (forall w, In w (workers s) -> w = AtLoopHead \/ w = Done) ->
  forallb isLocalEvent (trace (act false s a)) = true
  /\ quotaLimitReached (act false s a) = false
  /\ (forall w, In w (workers (act false s a)) -> w = AtLoopHead \/ w = Done).
Proof.
  intros Htr Hfl Hws. destruct a as [k reply|]; [|repeat split; assumption].
  cbn [act]. unfold resume.
  destruct (nth_error (workers s) k) as [w|] eqn:Hk; [|repeat split; assumption].
  assert (forall w', In w' (setWorker k AtLoopHead (workers s)) ->
                     w' = AtLoopHead \/ w' = Done) as Hidle.
  { intros w' H. apply In_setWorker in H as [->|H]; [left; reflexivity | apply Hws, H]. }
  assert (forall w', In w' (setWorker k Done (workers s)) ->
                     w' = AtLoopHead \/ w' = Done) as Hleft.
  { intros w' H. apply In_setWorker in H as [->|H]; [right; reflexivity | apply Hws, H]. }
  destruct (Hws w (nth_error_In _ _ Hk)) as [->| ->].
  - destruct (queue s) as [|index rest]; [repeat split; assumption|].
    destruct (abort s); [repeat split; assumption|].
    cbn [andb fallback trace quotaLimitReached workers forallb isLocalEvent].
    repeat split; assumption.
  - repeat split; assumption.
Qed.

(** X28.  With the remote path off ([activeUseAI] false) a run, whatever
    the schedule, only starts frames and processes them locally: it makes no
    remote call, never sets the quota flag, and every processed frame was
    processed by [processFrameLocal]. *)
Theorem offline_run_is_local (n : nat) (schedule : list Action) :
  let s := runSchedule false n schedule in
  forallb isLocalEvent (trace s) = true
  /\ remoteCalls (trace s) = 0%nat
  /\ quotaLimitReached s = false
  /\ (forall i, In i (processedOf (trace s)) -> In (ProcessedLocal i) (trace s)).
Proof.
  intros s.
  assert (forallb isLocalEvent (trace s) = true /\ quotaLimitReached s = false) as [Hloc Hfl].
  { subst s. unfold runSchedule.
    assert (forallb isLocalEvent (trace (startRun n)) = true) as H1 by reflexivity.
    assert (quotaLimitReached (startRun n) = false) as H2 by reflexivity.
    assert (forall w, In w (workers (startRun n)) -> w = AtLoopHead \/ w = Done) as H3.
    { intros w Hw. apply repeat_spec in Hw. left. exact Hw. }
    revert H1 H2 H3. generalize (startRun n).
    induction schedule as [|a schedule IH]; intros s H1 H2 H3; [split; assumption|].
    cbn [fold_left]. destruct (offline_step s a H1 H2 H3) as (H1' & H2' & H3').
    apply IH; assumption. }
  rewrite forallb_forall in Hloc.
  split; [apply forallb_forall, Hloc|]. split; [|split; [exact Hfl|]].
  - unfold remoteCalls.
    assert (filter isRemoteCall (trace s) = []) as ->; [|reflexivity].
    induction (trace s) as [|e tr IH]; [reflexivity|]. cbn [filter].
    pose proof (Hloc e (or_introl eq_refl)) as He.
    destruct e; try discriminate; apply IH; intros e' He'; apply Hloc; right; exact He'.
  - intros i Hi. unfold processedOf in Hi. apply in_flat_map in Hi as (e & He & Hi).
    pose proof (Hloc e He) as Hl.
    destruct e as [j|j|j|j|j]; try discriminate; try contradiction.
    destruct Hi as [<-|[]]. exact He.
Qed.

(** *** Errors that do not set the flag *)

Lemma flag_step activeUseAI s a :
  quotaLimitReached s = false ->
  (forall err, In err (failuresOf [a]) -> isQuota err = false) ->
  quotaLimitReached (act activeUseAI s a) = false.
Proof.
  intros Hfl Herr. destruct a as [k reply|]; [|exact Hfl].
  assert (forall index err, reply = Failed err ->
            quotaLimitReached (catchRemote k index err s) = false) as Hcatch.
  { intros index err ->. unfold catchRemote.
    rewrite (Herr err) by (left; reflexivity). exact Hfl. }
  cbn [act]. unfold resume.
  destruct (nth_error (workers s) k) as [[|index|index retries|index retries|index|]|];
    try exact Hfl.
  - destruct (queue s) as [|index rest]; [exact Hfl|].
    destruct (abort s); [exact Hfl|].
    destruct (activeUseAI && negb (quotaLimitReached s)); exact Hfl.
  - destruct reply as [|err]; [exact Hfl | apply Hcatch; reflexivity].
  - destruct reply as [|err]; [exact Hfl|].
    destruct retries as [|retries']; [apply Hcatch; reflexivity|].
    destruct (isQuotaError err); [exact Hfl | apply Hcatch; reflexivity].
  - destruct reply as [|err]; exact Hfl.
Qed.

(** X29.  The quota flag is set only by an error whose message names the
    quota: in a run where no failure has a message containing "429", "quota"
    or "exhausted" the flag stays unset and the transparent key is the one
    of a run without failures.  An error with status 429 and another message
    is retried by [generateWithRetry] and then sends its frame to local
    processing without stopping the remote path. *)
Theorem breaker_needs_a_quota_message
    (activeUseAI : bool) (n : nat) (schedule : list Action)
    (activeModes : list Mode) (bgReplaceColor : string) :
  (forall err, In err (failuresOf schedule) -> isQuota err = false) ->
  let s := runSchedule activeUseAI n schedule in
  quotaLimitReached s = false
  /\ (forall j, ~ In (QuotaFlagSet j) (trace s))
  /\ transparentKey activeModes bgReplaceColor activeUseAI (quotaLimitReached s)
     = transparentKey activeModes bgReplaceColor activeUseAI false.
Proof.
  intros Herr s.
  assert (quotaLimitReached s = false) as Hfl.
  { subst s. unfold runSchedule.
    assert (quotaLimitReached (startRun n) = false) as H0 by reflexivity.
    revert H0 Herr. generalize (startRun n).
    induction schedule as [|a schedule IH]; intros s H0 Herr; [exact H0|].
    cbn [fold_left]. apply IH.
    - apply flag_step; [exact H0|]. intros err Hin. apply Herr.
      unfold failuresOf in *. cbn [flat_map] in *. rewrite app_nil_r in Hin.
      apply in_or_app. left. exact Hin.
    - intros err Hin. apply Herr. unfold failuresOf in *. cbn [flat_map].
      apply in_or_app. right. exact Hin. }
  split; [exact Hfl|]. split; [|rewrite Hfl; reflexivity].
  intros j Hj.
  pose proof (inv_flag_logged _ (runSchedule_invariant activeUseAI n schedule)) as Hlog.
  fold s in Hlog. assert (quotaLimitReached s = true) by (apply Hlog; exists j; exact Hj).
  congruence.
Qed.

Lemma breaker_needs_a_quota_message_witness :
  let tooMany := {| status := Some 429; message := Some "Too Many Requests"%string |} in
  let schedule :=
    [Resume 0 Ok; Resume 0 Ok; Resume 0 (Failed tooMany); Resume 0 Ok;
     Resume 0 (Failed tooMany); Resume 0 Ok; Resume 0 (Failed tooMany); Resume 0 Ok;
     Resume 0 (Failed tooMany); Resume 0 Ok; Resume 0 Ok] in
  let s := runSchedule true 2 schedule in
  (forall err, In err (failuresOf schedule) -> isQuota err = false)
  /\ isQuotaError tooMany = true
  /\ trace s = [RemoteCall 1; Started 1; ProcessedLocal 0; RemoteCall 0; RemoteCall 0;
                RemoteCall 0; RemoteCall 0; Started 0]
  /\ quotaLimitReached s = false
  /\ (forall j, ~ In (QuotaFlagSet j) (trace s))
  /\ transparentKey [remove_bg] "transparent" true (quotaLimitReached s)
     = transparentKey [remove_bg] "transparent" true false.
Proof.
  intros tooMany schedule s.
  assert (forall err, In err (failuresOf schedule) -> isQuota err = false) as Herr.
  { intros err Hin. cbn in Hin.
    repeat (destruct Hin as [<-|Hin]; [reflexivity|]). contradiction. }
  split; [exact Herr|]. split; [reflexivity|]. split; [vm_compute; reflexivity|].
  apply (breaker_needs_a_quota_message true 2 schedule [remove_bg] "transparent").
  exact Herr.
Defined.
